(** * Verification of the peer-network file service

    A shallow embedding of the parts of the server/client/peer network that
    its specification makes claims about:

    - [Mutex]: the distributed mutual exclusion engine
      ([net/mutex/distributed_mutual_exclusion_service.cc]);
    - [Network]: several engines connected by FIFO peer links;
    - [Buffer] and [Bytes]: the circular byte buffer and the byte-string
      helpers ([util/buffer.cc], [util/bytes.h]);
    - [Proto], [Socket] and [AsyncMessageService]: protocol messages and the
      framing of messages on a connection ([net/proto/messages.cc],
      [net/socket.cc], [net/proto/async_message_service.cc]);
    - [Path], [IStream], [FileService] and [Project2Service]: paths, the
      reading of a file, the file service and the server's handlers
      ([util/path.cc], [net/server/service/file_service.cc],
      [net/server/impl/project2_service.cc]);
    - [Strings] and [Project2Client]: the string helpers and the client's
      reading of an enquiry ([util/strings.h], [util/strings.cc],
      [net/client/impl/project2_client.cc]).

    Every definition follows the C++ source function of the same name; a
    thrown exception, or behaviour the language leaves undefined, is the
    [None] of an [option]. The properties come after the definitions. *)

From Stdlib Require Import ZArith NArith Lia.
From Stdlib Require Import Init.Byte Strings.Byte Strings.Ascii Strings.String.
From stdpp Require Import base option list gmap strings pretty relations.

Local Open Scope Z_scope.

(** ** The mutual exclusion engine *)

Module Mutex.

(** [std::size_t] arithmetic: 64-bit unsigned with wrap-around. *)
Definition size_t_max : Z := 2 ^ 64 - 1.
Definition wrap (x : Z) : Z := x mod 2 ^ 64.

(** [enum class State]. *)
Inductive State := kWaiting | kRequesting | kInCriticalSection.

#[export] Instance State_eq_dec : EqDecision State.
Proof. solve_decision. Defined.

(** [proto::mutex::RequestMessage] and [proto::mutex::ReplyMessage]: a Lamport
    clock value and a file name. *)
Record RequestMessage := mkRequest { req_timestamp : Z; req_file_name : string }.
Record ReplyMessage := mkReply { rep_timestamp : Z; rep_file_name : string }.

(** The messages the engine looks at in [OnReceiveMessage]; every other
    opcode is ignored. *)
Inductive Message :=
| MsgError (message : string)
| MsgReply (reply : ReplyMessage)
| MsgRequest (request : RequestMessage)
| MsgOther.

(** [struct PeerNetworkEntry]: the peer's node id (a [std::uint8_t]) and the
    files this node holds that peer's permission for. *)
Record PeerNetworkEntry := mkEntry {
  connection_id : Z;
  have_permission_for : gset string
}.

(** [struct DelayedRequest]: the entry is a reference into [network_], kept
    here as its index. *)
Record DelayedRequest := mkDelayed { entry : nat; request : RequestMessage }.

Section Engine.

(** The caller's [mutex_operation_t] callback is opaque to the engine. *)
Context {Op : Type}.

(** [struct MutualExclusionRequest]. *)
Record MutualExclusionRequest := mkMine {
  file_name : string;
  operation : Op;
  timestamp : Z
}.

(** The fields of [DistributedMutualExclusionService] guarded by
    [state_mutex_], together with the node's own id
    ([components_.common.options.id], an [int]). *)
Record Service := mkService {
  id : Z;
  network_ : list PeerNetworkEntry;
  timestamp_ : Z;
  state_ : State;
  my_request_ : option MutualExclusionRequest;
  delayed_requests_ : list DelayedRequest
}.

(** What a handler does to the outside world. *)
Inductive Effect :=
| SendMessage (peer : nat) (msg : Message)
| PerformOperation (op : Op)
| FailOperation (op : Op) (message : string)
| ReportError (peer : nat).

Definition set_timestamp (t : Z) (s : Service) : Service :=
  mkService (id s) (network_ s) t (state_ s) (my_request_ s) (delayed_requests_ s).

Definition set_state (st : State) (s : Service) : Service :=
  mkService (id s) (network_ s) (timestamp_ s) st (my_request_ s) (delayed_requests_ s).

Definition set_my_request (r : option MutualExclusionRequest) (s : Service) : Service :=
  mkService (id s) (network_ s) (timestamp_ s) (state_ s) r (delayed_requests_ s).

Definition set_network (n : list PeerNetworkEntry) (s : Service) : Service :=
  mkService (id s) n (timestamp_ s) (state_ s) (my_request_ s) (delayed_requests_ s).

Definition set_delayed (d : list DelayedRequest) (s : Service) : Service :=
  mkService (id s) (network_ s) (timestamp_ s) (state_ s) (my_request_ s) d.

(** [entry.have_permission_for.emplace(file_name)] and [.erase(file_name)]
    on the entry at index [i]. *)
Definition emplace_permission (f : string) (e : PeerNetworkEntry) : PeerNetworkEntry :=
  mkEntry (connection_id e) ({[ f ]} ∪ have_permission_for e).

Definition erase_permission (f : string) (e : PeerNetworkEntry) : PeerNetworkEntry :=
  mkEntry (connection_id e) (have_permission_for e ∖ {[ f ]}).

Definition update_entry (i : nat) (g : PeerNetworkEntry → PeerNetworkEntry)
    (s : Service) : Service :=
  set_network (alter g i (network_ s)) s.

Definition has_permission (f : string) (e : PeerNetworkEntry) : bool :=
  bool_decide (f ∈ have_permission_for e).

(** [CheckForMutualExclusion]. [my_request_.value()] throws
    [bad_optional_access] when there is no outstanding request: [None]. *)
Definition CheckForMutualExclusion (s : Service) : option (Service * list Effect) :=
  req ← my_request_ s;
  let has_mutual_exclusion := forallb (has_permission (file_name req)) (network_ s) in
  if has_mutual_exclusion
  then Some (set_state kInCriticalSection s, [PerformOperation (operation req)])
  else Some (s, []).

(** The clock update shared by the Reply and Request paths:
    [std::max(msg.timestamp + 1, timestamp_ + 1)]. *)
Definition bump (ts : Z) (s : Service) : Service :=
  set_timestamp (Z.max (wrap (ts + 1)) (wrap (timestamp_ s + 1))) s.

Definition reply_to (s : Service) (i : nat) (f : string) : Effect :=
  SendMessage i (MsgReply (mkReply (timestamp_ s) f)).

(** [OnReceiveRequest]. *)
Definition OnReceiveRequest (s : Service) (i : nat) (request : RequestMessage)
    : option (Service * list Effect) :=
  e ← network_ s !! i;
  let f := req_file_name request in
  let s := bump (req_timestamp request) s in
  match state_ s with
  | kWaiting =>
      let s := update_entry i (erase_permission f) s in
      Some (s, [reply_to s i f])
  | kInCriticalSection =>
      Some (set_delayed (delayed_requests_ s ++ [mkDelayed i request]) s, [])
  | kRequesting =>
      mine ← my_request_ s;
      if negb (bool_decide (file_name mine = f)) then
        let s := update_entry i (erase_permission f) s in
        Some (s, [reply_to s i f])
      else if (timestamp mine >? req_timestamp request)
              || ((timestamp mine =? req_timestamp request)
                  && (id s >? connection_id e)) then
        Some (s, [reply_to s i f])
      else
        Some (set_delayed (delayed_requests_ s ++ [mkDelayed i request]) s, [])
  end.

(** The [kReply] branch of [OnReceiveMessage]. *)
Definition OnReceiveReply (s : Service) (i : nat) (reply : ReplyMessage)
    : option (Service * list Effect) :=
  _ ← network_ s !! i;
  let s := bump (rep_timestamp reply) s in
  let s := update_entry i (emplace_permission (rep_file_name reply)) s in
  CheckForMutualExclusion s.

(** [OnReceiveMessage] for a successfully read message. *)
Definition OnReceiveMessage (s : Service) (i : nat) (msg : Message)
    : option (Service * list Effect) :=
  match msg with
  | MsgError _ => Some (s, [ReportError i])
  | MsgReply reply => OnReceiveReply s i reply
  | MsgRequest request => OnReceiveRequest s i request
  | MsgOther => Some (s, [])
  end.

(** [RequestMutualExclusion]: the loop over [network_], entry by entry. *)
Fixpoint send_requests (req : MutualExclusionRequest) (i : nat)
    (entries : list PeerNetworkEntry) : list Effect :=
  match entries with
  | [] => []
  | e :: rest =>
      (if has_permission (file_name req) e then []
       else [SendMessage i (MsgRequest (mkRequest (timestamp req) (file_name req)))])
      ++ send_requests req (S i) rest
  end.

Definition RequestMutualExclusion (s : Service) : option (Service * list Effect) :=
  let s := set_state kRequesting s in
  req ← my_request_ s;
  Some (s, send_requests req 0%nat (network_ s)).

(** [RunWithMutualExclusion]. *)
Definition RunWithMutualExclusion (s : Service) (f : string) (op : Op)
    : option (Service * list Effect) :=
  if bool_decide (is_Some (my_request_ s)) || negb (bool_decide (state_ s = kWaiting))
  then Some (s, [FailOperation op "Operation already in progress"])
  else
    let s := set_my_request (Some (mkMine f op (timestamp_ s))) s in
    '(s, out1) ← RequestMutualExclusion s;
    '(s, out2) ← CheckForMutualExclusion s;
    Some (s, out1 ++ out2).

(** [DeliverDelayedRequests]: the [while (!delayed_requests_.empty())] loop,
    one unit of [fuel] per iteration. *)
Fixpoint DeliverDelayedRequests (fuel : nat) (s : Service)
    : option (Service * list Effect) :=
  match delayed_requests_ s with
  | [] => Some (s, [])
  | next :: _ =>
      match fuel with
      | O => None
      | S fuel =>
          '(s, out1) ← OnReceiveRequest s (entry next) (request next);
          let s := set_delayed (tail (delayed_requests_ s)) s in
          '(s, out2) ← DeliverDelayedRequests fuel s;
          Some (s, out1 ++ out2)
      end
  end.

(** [ReleaseMutualExclusion], run when the operation calls its "done"
    continuation. While the state is [kWaiting] no request is deferred
    again, so one iteration per queued request drains the queue. *)
Definition ReleaseMutualExclusion (s : Service) : option (Service * list Effect) :=
  let s := set_my_request None s in
  let s := set_state kWaiting s in
  DeliverDelayedRequests (length (delayed_requests_ s)) s.


(** A run of [OnReceiveMessage] over messages read one after the other, each
    with the index of the peer it came from. *)
Fixpoint receive_all (s : Service) (msgs : list (nat * Message))
    : option (Service * list Effect) :=
  match msgs with
  | [] => Some (s, [])
  | (i, m) :: rest =>
      '(s, out1) ← OnReceiveMessage s i m;
      '(s, out2) ← receive_all s rest;
      Some (s, out1 ++ out2)
  end.


(** What a handler that runs alone finds and leaves in the fields guarded by
    [state_mutex_]: a request is recorded exactly while the engine is not
    waiting, requests are deferred only then, and every deferred request
    came from an entry of [network_]. *)
Definition engine_invariant (s : Service) : Prop :=
  (state_ s = kWaiting ↔ my_request_ s = None)
  ∧ (state_ s = kWaiting → delayed_requests_ s = [])
  ∧ Forall (λ d, (entry d < length (network_ s))%nat) (delayed_requests_ s).

(** The Lamport stamp a message carries. *)
Definition stamp (m : Message) : option Z :=
  match m with
  | MsgReply reply => Some (rep_timestamp reply)
  | MsgRequest request => Some (req_timestamp request)
  | _ => None
  end.

End Engine.

Arguments MutualExclusionRequest : clear implicits.
Arguments Service : clear implicits.
Arguments Effect : clear implicits.

End Mutex.

(** ** Several engines connected by FIFO peer links *)

Module Network.
Import Mutex.

(** A message in flight on the link from node [src] to node [dst]. *)
Record Packet := mkPacket { src : Z; dst : Z; payload : Message }.

(** Every node's engine, and the messages in flight in send order. The
    caller's operation is identified by a number. *)
Record System := mkSystem {
  nodes : gmap Z (Service nat);
  wire : list Packet
}.

(** The steps of the system: a node's client calls
    [RunWithMutualExclusion], a node's operation calls its "done"
    continuation, or the oldest message on one link is read and handed to
    [OnReceiveMessage]. *)
Inductive Event :=
| Enter (node : Z) (f : string) (op : nat)
| Release (node : Z)
| Deliver (from to : Z).

(** Index in [network_] of the entry for peer [p]. *)
Fixpoint peer_index (p : Z) (entries : list PeerNetworkEntry) : option nat :=
  match entries with
  | [] => None
  | e :: rest =>
      if bool_decide (connection_id e = p) then Some 0%nat
      else S <$> peer_index p rest
  end.

(** The messages the effects of node [n] put on its outgoing links. *)
Definition sent (n : Z) (s : Service nat) (out : list (Effect nat)) : list Packet :=
  omap (λ eff, match eff with
               | SendMessage i msg =>
                   e ← network_ s !! i; Some (mkPacket n (connection_id e) msg)
               | _ => None
               end) out.

(** The oldest message on the link [from] → [to], and the wire without it. *)
Fixpoint take_packet (from to : Z) (w : list Packet) : option (Message * list Packet) :=
  match w with
  | [] => None
  | p :: rest =>
      if bool_decide (src p = from) && bool_decide (dst p = to)
      then Some (payload p, rest)
      else '(m, rest') ← take_packet from to rest; Some (m, p :: rest')
  end.

Definition commit (sys : System) (n : Z) (w : list Packet)
    (r : Service nat * list (Effect nat)) : System :=
  mkSystem (<[n := r.1]> (nodes sys)) (w ++ sent n r.1 r.2).

Definition do_event (sys : System) (ev : Event) : option System :=
  match ev with
  | Enter n f op =>
      s ← nodes sys !! n;
      r ← RunWithMutualExclusion s f op;
      Some (commit sys n (wire sys) r)
  | Release n =>
      s ← nodes sys !! n;
      if bool_decide (state_ s = kInCriticalSection) then
        r ← ReleaseMutualExclusion s;
        Some (commit sys n (wire sys) r)
      else None
  | Deliver from to =>
      s ← nodes sys !! to;
      i ← peer_index from (network_ s);
      '(m, w) ← take_packet from to (wire sys);
      r ← OnReceiveMessage s i m;
      Some (commit sys to w r)
  end.

Fixpoint run (sys : System) (evs : list Event) : option System :=
  match evs with
  | [] => Some sys
  | ev :: rest => sys' ← do_event sys ev; run sys' rest
  end.

(** The engine of node [n] after construction and [OnNetworkConnected]: an
    entry without permissions for every other node, clock 0, [kWaiting]. *)
Definition start_node (ids : list Z) (n : Z) : Service nat :=
  mkService n
    ((λ p, mkEntry p ∅) <$> filter (λ p, p ≠ n) ids)
    0 kWaiting None [].

Definition start (ids : list Z) : System :=
  mkSystem (list_to_map ((λ n, (n, start_node ids n)) <$> ids)) [].

Definition step (sys sys' : System) : Prop :=
  ∃ ev, do_event sys ev = Some sys'.

Definition reachable (ids : list Z) (sys : System) : Prop :=
  rtc step (start ids) sys.

(** Node [n] is in its critical section for file [f]. *)
Definition in_critical_section (sys : System) (n : Z) (f : string) : Prop :=
  ∃ s mine, nodes sys !! n = Some s
            ∧ state_ s = kInCriticalSection
            ∧ my_request_ s = Some mine
            ∧ file_name mine = f.

(** Node 1 of three right after start, and the same node with clock 5 and a
    request for ["f"] out that it stamped 5. *)
Definition idle_node : Service nat := start_node [1; 2; 3] 1.

Definition requesting_node : Service nat :=
  mkService 1 [mkEntry 2 ∅; mkEntry 3 ∅] 5 kRequesting
    (Some (mkMine "f" 0%nat 5)) [].

(** Node 3 in the same situation. *)
Definition requesting_node_3 : Service nat :=
  mkService 3 [mkEntry 1 ∅; mkEntry 2 ∅] 5 kRequesting
    (Some (mkMine "f" 0%nat 5)) [].

(** Node 1 after it has left its critical section for ["f"]: waiting, with
    both permissions retained. *)
Definition retaining_node : Service nat :=
  mkService 1 [mkEntry 2 {[ "f" ]}; mkEntry 3 {[ "f" ]}] 3 kWaiting None [].


(** A schedule for three nodes. Node 3 enters and leaves for ["f"]; node 2
    does the same, which takes node 3's permission from node 2 back but
    leaves it node 1's. Then node 3 and node 1 both ask for ["f"]. *)
Definition race : list Event :=
  [ Enter 3 "f" 0%nat;
    Deliver 3 1; Deliver 3 2; Deliver 1 3; Deliver 2 3;
    Release 3;
    Enter 2 "f" 1%nat;
    Deliver 2 1; Deliver 2 3; Deliver 1 2; Deliver 3 2;
    Release 2;
    Enter 3 "f" 2%nat;
    Enter 1 "f" 3%nat;
    Deliver 1 3; Deliver 3 2; Deliver 1 2;
    Deliver 3 1; Deliver 2 1; Deliver 2 3 ].

End Network.

(** ** Bytes *)

(** Equality on bytes is decided on their numeric values. *)
#[export] Instance byte_eq_dec : EqDecision byte.
Proof.
  intros x y. destruct (decide (Byte.to_N x = Byte.to_N y)) as [e|n].
  - left. apply (f_equal Byte.of_N) in e. rewrite !Byte.of_to_N in e. congruence.
  - right. congruence.
Defined.

(** ** The circular byte buffer ([util/buffer.cc]) *)

Module Buffer.

Local Open Scope N_scope.

Definition default_size : N := 1024.
Definition max_size : N := 2 ^ 64 - 1.

(** A [util::buffer]: the allocation behind [data_] (a byte per cell, its
    length the allocated size) and the four bookkeeping fields. Sizes and
    positions are [std::size_t]. *)
Record buffer := mkBuffer {
  data_ : list byte;
  capacity_ : N;
  read_ : N;
  write_ : N;
  full_ : bool
}.

(** [new std::uint8_t[n]]; the fresh cells are never read before they are
    written, they are shown as zero bytes. *)
Definition allocate (n : N) : list byte := replicate (N.to_nat n) "000"%byte.

(** [memcpy(dest, mem + off, len)] and [memcpy(mem + off, src, |src|)]. A copy
    that leaves the allocation has no defined behaviour: [None]. *)
Definition memcpy_from (mem : list byte) (off len : N) : option (list byte) :=
  if off + len <=? N.of_nat (length mem)
  then Some (take (N.to_nat len) (drop (N.to_nat off) mem))
  else None.

Definition memcpy_to (mem : list byte) (off : N) (src : list byte) : option (list byte) :=
  if off + N.of_nat (length src) <=? N.of_nat (length mem)
  then Some (take (N.to_nat off) mem ++ src
             ++ drop (N.to_nat off + length src) mem)
  else None.

Definition set_data (d : list byte) (b : buffer) : buffer :=
  mkBuffer d (capacity_ b) (read_ b) (write_ b) (full_ b).

(** [buffer::buffer(std::size_t size)]; throws on size zero. *)
Definition make (size : N) : option buffer :=
  if size =? 0 then None else Some (mkBuffer (allocate size) size 0 0 false).

(** [util::buffer()] with the default size. *)
Definition fresh : buffer := mkBuffer (allocate default_size) default_size 0 0 false.

(** What the move constructor leaves behind in its argument. *)
Definition moved_from : buffer := mkBuffer [] 0 0 0 false.

(** [buffer::buffer(const void* data, std::size_t size)], which the
    constructors from [std::string&&] and [std::vector<std::uint8_t>&&]
    delegate to. *)
Definition of_bytes (data : list byte) : buffer :=
  let size := N.of_nat (length data) in
  if size =? 0 then fresh else mkBuffer data size 0 0 true.

Definition empty (b : buffer) : bool := negb (full_ b) && (read_ b =? write_ b).

Definition size (b : buffer) : N :=
  if full_ b then capacity_ b
  else if read_ b <=? write_ b then write_ b - read_ b
  else capacity_ b + write_ b - read_ b.

Definition space_remaining (b : buffer) : N := capacity_ b - size b.

Definition space_remaining_until_end (b : buffer) : N :=
  if write_ b <? read_ b then read_ b - write_ b else capacity_ b - write_ b.

(** [advance_write] and [advance_read]; [None] is the [buffer_exception]. *)
Definition advance_write (by_ : N) (b : buffer) : option buffer :=
  if by_ =? 0 then Some b
  else if full_ b || (space_remaining b <? by_) then None
  else
    let w := write_ b + by_ in
    let w := if capacity_ b <=? w then w - capacity_ b else w in
    Some (mkBuffer (data_ b) (capacity_ b) (read_ b) w (read_ b =? w)).

Definition advance_read (by_ : N) (b : buffer) : option buffer :=
  if by_ =? 0 then Some b
  else if size b <? by_ then None
  else
    let r := read_ b + by_ in
    let r := if capacity_ b <=? r then r - capacity_ b else r in
    Some (mkBuffer (data_ b) (capacity_ b) r (write_ b) false).

(** [read_into(dest, size)]: the bytes that end up in [dest]. The length of
    the first copy is taken from [space_remaining_until_end], the room
    after the write position. *)
Definition read_into (b : buffer) (size : N) : option (list byte) :=
  let first_write_max_size := space_remaining_until_end b in
  if size <=? first_write_max_size then memcpy_from (data_ b) (read_ b) size
  else
    head ← memcpy_from (data_ b) (read_ b) first_write_max_size;
    rest ← memcpy_from (data_ b) 0 (size - first_write_max_size);
    Some (head ++ rest).

(** The [while (new_capacity < needed)] loop of [resize]. *)
Fixpoint grow (fuel : nat) (needed new_capacity : N) : option N :=
  if needed <=? new_capacity then Some new_capacity
  else match fuel with
       | O => None
       | S fuel =>
           let c := if N.shiftr max_size 1 <? new_capacity then needed
                    else new_capacity in
           grow fuel needed (N.shiftl c 1 mod 2 ^ 64)
       end.

Definition resize (to_fit : N) (b : buffer) : option buffer :=
  let current_size := size b in
  if max_size - to_fit <=? current_size then None
  else
    let needed := current_size + to_fit in
    new_capacity ← grow 128 needed (capacity_ b);
    kept ← read_into b current_size;
    new_data ← memcpy_to (allocate new_capacity) 0 kept;
    advance_write current_size (mkBuffer new_data new_capacity 0 0 false).

(** [put(data, size, allow_resize)]; [put_iter] does the same with
    [std::copy] from an iterator range. *)
Definition put (data : list byte) (allow_resize : bool) (b : buffer) : option buffer :=
  let size := N.of_nat (length data) in
  b ← (if space_remaining b <? size
       then (if allow_resize then resize size b else None)
       else Some b);
  let first_write_max_size := space_remaining_until_end b in
  mem ← (if size <=? first_write_max_size
         then memcpy_to (data_ b) (write_ b) data
         else
           mem ← memcpy_to (data_ b) (write_ b)
                   (take (N.to_nat first_write_max_size) data);
           memcpy_to mem 0 (drop (N.to_nat first_write_max_size) data));
  advance_write size (set_data mem b).

Definition put_iter := put.

(** [get()]. *)
Definition get (b : buffer) : option (byte * buffer) :=
  if empty b then None
  else
    next ← data_ b !! N.to_nat (read_ b);
    b ← advance_read 1 b;
    Some (next, b).

(** [get_many(amount)]. *)
Definition get_many (amount : N) (b : buffer) : option (list byte * buffer) :=
  if size b <? amount then None
  else
    output ← read_into b amount;
    b ← advance_read amount b;
    Some (output, b).

(** [get_until(delim)]: the [while (!empty())] loop, one unit of fuel per
    byte read. [delim[delim_pos]] at the end of the string is its
    terminating zero. The one delimiter in use is ASCII, so comparing the
    byte read with the [char] of the delimiter is comparing bytes. *)
Fixpoint get_until_loop (fuel : nat) (delim : list byte) (b : buffer)
    (output : list byte) (delim_pos : nat) : option (list byte * buffer) :=
  if empty b then Some (output, b)
  else match fuel with
       | O => None
       | S fuel =>
           '(next, b) ← get b;
           if bool_decide ((delim ++ ["000"%byte]) !! delim_pos = Some next) then
             let delim_pos := S delim_pos in
             if bool_decide (delim_pos = length delim) then Some (output, b)
             else get_until_loop fuel delim b output delim_pos
           else
             let output :=
               if bool_decide (0 < delim_pos)%nat
               then output ++ take delim_pos delim else output in
             get_until_loop fuel delim b (output ++ [next]) 0%nat
       end.

Definition get_until (delim : list byte) (b : buffer) : option (list byte * buffer) :=
  get_until_loop (N.to_nat (size b)) delim b [] 0%nat.

(** [consume] and [commit]. *)
Definition consume (amount : N) (b : buffer) : option buffer :=
  if size b <? amount then None else advance_read amount b.

Definition commit (size : N) (b : buffer) : option buffer := advance_write size b.

(** [shift()]. *)
Definition shift (b : buffer) : option buffer :=
  if full_ b && (read_ b =? 0) then Some b
  else if read_ b <? write_ b then
    let size := write_ b - read_ b in
    moved ← memcpy_from (data_ b) (read_ b) size;
    mem ← memcpy_to (data_ b) 0 moved;
    Some (mkBuffer mem (capacity_ b) 0 size (full_ b))
  else
    temp ← memcpy_from (data_ b) 0 (write_ b);
    let first_write_size := capacity_ b - read_ b in
    moved ← memcpy_from (data_ b) (read_ b) first_write_size;
    mem ← memcpy_to (data_ b) 0 moved;
    mem ← memcpy_to mem first_write_size temp;
    let data_size := size b in
    Some (mkBuffer mem (capacity_ b) 0 data_size (full_ b)).

(** [reserve(size)]: the offset of the returned pointer in the allocation. *)
Definition reserve (size : N) (b : buffer) : option (N * buffer) :=
  if size =? 0 then None
  else if size <=? space_remaining_until_end b then Some (write_ b, b)
  else if size <=? space_remaining b then
    b ← shift b; Some (write_ b, b)
  else
    b ← resize size b; Some (write_ b, b).

(** [view()]: each [buffer_view] as offset and size. *)
Definition view (b : buffer) : list (N * N) :=
  if read_ b <=? write_ b then [(read_ b, size b)]
  else [(read_ b, capacity_ b - read_ b); (0, write_ b)].

(** The bytes a reader of the views sees. *)
Definition view_bytes (b : buffer) : option (list byte) :=
  mjoin <$> mapM (λ v : N * N, memcpy_from (data_ b) v.1 v.2) (view b).

(** [to_string()]. *)
Definition to_string (b : buffer) : option (list byte * buffer) :=
  get_many (size b) b.

(** [move_buffer(other, allow_resize)]: this buffer, then [other]. *)
Fixpoint move_views (views : list (N * N)) (other : buffer) (allow_resize : bool)
    (written : N) (b : buffer) : option (N * buffer) :=
  match views with
  | [] => Some (written, b)
  | v :: rest =>
      let write_size := if allow_resize then v.2
                        else N.min (space_remaining b) v.2 in
      chunk ← memcpy_from (data_ other) v.1 write_size;
      b ← put chunk allow_resize b;
      move_views rest other allow_resize (written + write_size) b
  end.

Definition move_buffer (other : buffer) (allow_resize : bool) (b : buffer)
    : option (buffer * buffer) :=
  '(written, b) ← move_views (view other) other allow_resize 0 b;
  other ← consume written other;
  Some (b, other).

(** A buffer whose unread bytes are [content], in one piece from [read_] up
    to [write_], with the write position short of the end of the
    allocation: the state of a buffer that was filled from its start and
    has not wrapped around. *)
Definition holds (b : buffer) (content : list byte) : Prop :=
  full_ b = false
  ∧ N.of_nat (length (data_ b)) = capacity_ b
  ∧ read_ b + N.of_nat (length content) = write_ b
  ∧ write_ b < capacity_ b
  ∧ take (length content) (drop (N.to_nat (read_ b)) (data_ b)) = content.

End Buffer.

(** ** Byte strings ([util/bytes.h]) *)

Module Bytes.

Local Open Scope N_scope.

Definition low_byte (x : N) : byte :=
  default "000"%byte (Byte.of_N (N.land x 255)).

(** [insert<N>(buffer&, byte_string)]: least significant byte first. *)
Fixpoint insert (n : nat) (byte_string : N) (dest : Buffer.buffer)
    : option Buffer.buffer :=
  match n with
  | O => Some dest
  | S n =>
      dest ← Buffer.put [low_byte byte_string] true dest;
      insert n (N.shiftr byte_string 8) dest
  end.

(** [extract<N>(buffer&)]: [result |= src.get() << (i << 3)]. [src.get()]
    is promoted to a 32-bit [int] before the shift, and the shifted [int] is
    converted to the type of the result, [minimum_byte_string_t<N>], which
    for the 64-bit result of more than four bytes extends its sign bit. The
    language defines no result for a shift by 32 bits or more: a zero byte
    adds nothing to the result whatever the machine does with such a shift,
    and for any other byte the model has no result ([None]). *)
Definition result_bits (n : nat) : N :=
  if bool_decide (n ≤ 1)%nat then 8
  else if bool_decide (n ≤ 2)%nat then 16
  else if bool_decide (n ≤ 4)%nat then 32 else 64.

(** The 32-bit [int] with bit pattern [pattern], converted to the unsigned
    type of [bits] bits. *)
Definition int_as (bits : N) (pattern : N) : N :=
  (if 2 ^ 31 <=? pattern then pattern + (2 ^ 64 - 2 ^ 32) else pattern)
  mod 2 ^ bits.

Fixpoint extract_loop (todo : nat) (i : N) (bits : N) (result : N)
    (src : Buffer.buffer) : option (N * Buffer.buffer) :=
  match todo with
  | O => Some (result, src)
  | S todo =>
      '(next, src) ← Buffer.get src;
      if 32 <=? N.shiftl i 3 then
        if Byte.to_N next =? 0 then extract_loop todo (i + 1) bits result src
        else None
      else
        let shifted := N.shiftl (Byte.to_N next) (N.shiftl i 3) mod 2 ^ 32 in
        extract_loop todo (i + 1) bits (N.lor result (int_as bits shifted)) src
  end.

Definition extract (n : nat) (src : Buffer.buffer) : option (N * Buffer.buffer) :=
  extract_loop n 0 (result_bits n) 0 src.

(** The [n] bytes [insert<n>] writes for [byte_string]. *)
Fixpoint le_bytes (n : nat) (byte_string : N) : list byte :=
  match n with
  | O => []
  | S n => low_byte byte_string :: le_bytes n (N.shiftr byte_string 8)
  end.

(** The number whose bytes, least significant first, are [bs]. *)
Fixpoint le_value (bs : list byte) : N :=
  match bs with
  | [] => 0
  | b :: bs => Byte.to_N b + 256 * le_value bs
  end.

End Bytes.

(** ** Protocol messages ([net/proto/messages.cc]) *)

(** A [util::result<T, Error>]; a thrown exception or undefined behaviour is
    the [None] of the surrounding [option]. *)
Inductive result (T : Type) :=
| ok (value : T)
| err (what : string).
Arguments ok {T} value.
Arguments err {T} what.

Module Proto.

Local Open Scope N_scope.

Definition kOpcodeLength : N := 1.
Definition kBodySizeLength : N := 4.
Definition kMaxBodySize : N := 2 ^ 32 - 1.

(** [kStringDelimiter], carriage return and line feed. *)
Definition kStringDelimiter : list byte := ["013"; "010"]%byte.

(** [enum class Opcode : std::uint8_t]; the reader casts any byte to it. *)
Definition Opcode := byte.
Definition kOk : Opcode := "000"%byte.
Definition kError : Opcode := "001"%byte.
Definition kEstablishConnection : Opcode := "002"%byte.
Definition kResponse : Opcode := "003"%byte.
Definition kFileTransfer : Opcode := "004"%byte.
Definition kTransmitData : Opcode := "005"%byte.
Definition kFinished : Opcode := "006"%byte.
Definition kEnquiry : Opcode := "007"%byte.
Definition kRead : Opcode := "008"%byte.
Definition kWrite : Opcode := "009"%byte.
Definition kRequest : Opcode := "100"%byte.
Definition kReply : Opcode := "101"%byte.
Definition kShutdown : Opcode := "200"%byte.

(** [struct Message]. *)
Record Message := mkMessage { opcode : Opcode; body : Buffer.buffer }.

(** [struct WriteMessage] and [struct ResponseMessage]; a [std::string] goes
    into a buffer as its bytes and comes out of [to_string] the same way. *)
Record WriteMessage := mkWrite { file_name : string; line : string }.
Record ResponseMessage := mkResponse { message : string }.

(** [WriteMessage::ToMessage]. *)
Definition WriteMessage_ToMessage (w : WriteMessage) : option Message :=
  body ← Buffer.put_iter (list_byte_of_string (file_name w)) true Buffer.fresh;
  body ← Buffer.put kStringDelimiter true body;
  body ← Buffer.put_iter (list_byte_of_string (line w)) true body;
  Some (mkMessage kWrite body).

(** [Message::ToWrite]. *)
Definition ToWrite (m : Message) : option (result WriteMessage) :=
  if negb (bool_decide (opcode m = kWrite)) then Some (err "Bad opcode for conversion")
  else
    '(file_name, body) ← Buffer.get_until kStringDelimiter (body m);
    '(line, _) ← Buffer.to_string body;
    Some (ok (mkWrite (string_of_list_byte file_name) (string_of_list_byte line))).

(** [ResponseMessage::ToMessage]. *)
Definition ResponseMessage_ToMessage (r : ResponseMessage) : Message :=
  mkMessage kResponse (Buffer.of_bytes (list_byte_of_string (message r))).

(** Carriage return and line feed as strings. *)
Definition cr : string := String "013" EmptyString.
Definition lf : string := String "010" EmptyString.

(** The other message structs. Every field called [message], [file_name] or
    [data] in the source has its struct's name in front here; [node_id_t] is
    a [std::uint8_t]. *)
Record ErrorMessage := mkError { error_message : string }.
Record EstablishConnectionMessage := mkEstablishConnection {
  establish_id : N;
  establish_message : string
}.
Record FileTransferMessage := mkFileTransfer { transfer_file_name : string }.
Record TransmitDataMessage := mkTransmitData { transmit_data : list byte }.
Record ReadMessage := mkRead { read_file_name : string }.

(** The conversions from [Message]; each starts with [ASSERT_OPCODE]. *)
Definition ToOk (m : Message) : option (result unit) :=
  if negb (bool_decide (opcode m = kOk)) then Some (err "Bad opcode for conversion")
  else Some (ok ()).

Definition ToError (m : Message) : option (result ErrorMessage) :=
  if negb (bool_decide (opcode m = kError)) then Some (err "Bad opcode for conversion")
  else
    '(message, _) ← Buffer.to_string (body m);
    Some (ok (mkError (string_of_list_byte message))).

Definition ToEstablishConnection (m : Message)
    : option (result EstablishConnectionMessage) :=
  if negb (bool_decide (opcode m = kEstablishConnection))
  then Some (err "Bad opcode for conversion")
  else
    '(id, body) ← Bytes.extract 1 (body m);
    '(message, _) ← Buffer.to_string body;
    Some (ok (mkEstablishConnection id (string_of_list_byte message))).

Definition ToResponse (m : Message) : option (result ResponseMessage) :=
  if negb (bool_decide (opcode m = kResponse)) then Some (err "Bad opcode for conversion")
  else
    '(message, _) ← Buffer.to_string (body m);
    Some (ok (mkResponse (string_of_list_byte message))).

Definition ToFileTransfer (m : Message) : option (result FileTransferMessage) :=
  if negb (bool_decide (opcode m = kFileTransfer))
  then Some (err "Bad opcode for conversion")
  else
    '(file_name, _) ← Buffer.to_string (body m);
    Some (ok (mkFileTransfer (string_of_list_byte file_name))).

Definition ToTransmitData (m : Message) : option (result TransmitDataMessage) :=
  if negb (bool_decide (opcode m = kTransmitData))
  then Some (err "Bad opcode for conversion")
  else
    '(data, _) ← Buffer.get_many (Buffer.size (body m)) (body m);
    Some (ok (mkTransmitData data)).

Definition ToFinished (m : Message) : option (result unit) :=
  if negb (bool_decide (opcode m = kFinished)) then Some (err "Bad opcode for conversion")
  else Some (ok ()).

Definition ToEnquiry (m : Message) : option (result unit) :=
  if negb (bool_decide (opcode m = kEnquiry)) then Some (err "Bad opcode for conversion")
  else Some (ok ()).

Definition ToRead (m : Message) : option (result ReadMessage) :=
  if negb (bool_decide (opcode m = kRead)) then Some (err "Bad opcode for conversion")
  else
    '(file_name, _) ← Buffer.to_string (body m);
    Some (ok (mkRead (string_of_list_byte file_name))).

(** [sizeof(std::size_t)] is 8. *)
Definition ToRequest (m : Message) : option (result Mutex.RequestMessage) :=
  if negb (bool_decide (opcode m = kRequest)) then Some (err "Bad opcode for conversion")
  else
    '(clock, body) ← Bytes.extract 8 (body m);
    '(file_name, _) ← Buffer.to_string body;
    Some (ok (Mutex.mkRequest (Z.of_N clock) (string_of_list_byte file_name))).

Definition ToReply (m : Message) : option (result Mutex.ReplyMessage) :=
  if negb (bool_decide (opcode m = kReply)) then Some (err "Bad opcode for conversion")
  else
    '(clock, body) ← Bytes.extract 8 (body m);
    '(file_name, _) ← Buffer.to_string body;
    Some (ok (Mutex.mkReply (Z.of_N clock) (string_of_list_byte file_name))).

(** The conversions to [Message]. A [Message] made from its opcode alone has
    a default buffer for body. *)
Definition OkMessage_ToMessage : Message := mkMessage kOk Buffer.fresh.

Definition ErrorMessage_ToMessage (e : ErrorMessage) : Message :=
  mkMessage kError (Buffer.of_bytes (list_byte_of_string (error_message e))).

Definition EstablishConnectionMessage_ToMessage (e : EstablishConnectionMessage)
    : option Message :=
  body ← Bytes.insert 1 (establish_id e) Buffer.fresh;
  body ← Buffer.put_iter (list_byte_of_string (establish_message e)) false body;
  Some (mkMessage kEstablishConnection body).

Definition FileTransferMessage_ToMessage (t : FileTransferMessage) : Message :=
  mkMessage kFileTransfer
    (Buffer.of_bytes (list_byte_of_string (transfer_file_name t))).

Definition TransmitDataMessage_ToMessage (t : TransmitDataMessage) : Message :=
  mkMessage kTransmitData (Buffer.of_bytes (transmit_data t)).

Definition FinishedMessage_ToMessage : Message := mkMessage kFinished Buffer.fresh.

Definition EnquiryMessage_ToMessage : Message := mkMessage kEnquiry Buffer.fresh.

Definition ReadMessage_ToMessage (r : ReadMessage) : Message :=
  mkMessage kRead (Buffer.of_bytes (list_byte_of_string (read_file_name r))).

Definition RequestMessage_ToMessage (r : Mutex.RequestMessage) : option Message :=
  body ← Bytes.insert 8 (Z.to_N (Mutex.req_timestamp r)) Buffer.fresh;
  body ← Buffer.put_iter (list_byte_of_string (Mutex.req_file_name r)) false body;
  Some (mkMessage kRequest body).

Definition ReplyMessage_ToMessage (r : Mutex.ReplyMessage) : option Message :=
  body ← Bytes.insert 8 (Z.to_N (Mutex.rep_timestamp r)) Buffer.fresh;
  body ← Buffer.put_iter (list_byte_of_string (Mutex.rep_file_name r)) false body;
  Some (mkMessage kReply body).

End Proto.

(** ** Sockets ([net/socket.cc]) *)

Module Socket.

Local Open Scope N_scope.

(** The two byte queues of a [Socket]. *)
Record Socket := mkSocket {
  input_buffer_ : Buffer.buffer;
  output_buffer_ : Buffer.buffer
}.

Definition fresh : Socket := mkSocket Buffer.fresh Buffer.fresh.

(** [Socket::Send] on a connection that takes every byte offered: the bytes
    written, in order, and the socket afterwards. *)
Definition Send (s : Socket) : option (list byte * Socket) :=
  let out := output_buffer_ s in
  sent ← Buffer.view_bytes out;
  out ← Buffer.consume (N.of_nat (length sent)) out;
  Some (sent, mkSocket (input_buffer_ s) out).

(** [Socket::Receive(bytes)] when [::read] returns [chunk]. *)
Definition Receive (bytes : N) (chunk : list byte) (s : Socket) : option Socket :=
  if bytes <? N.of_nat (length chunk) then None
  else
    '(read_buffer, inp) ← Buffer.reserve bytes (input_buffer_ s);
    mem ← Buffer.memcpy_to (Buffer.data_ inp) read_buffer chunk;
    inp ← Buffer.commit (N.of_nat (length chunk)) (Buffer.set_data mem inp);
    Some (mkSocket inp (output_buffer_ s)).

End Socket.

(** ** Message framing ([net/proto/async_message_service.cc]) *)

Module AsyncMessageService.
Import Proto.

Local Open Scope N_scope.

(** The reader's fields, the socket it reads from, and the bytes appended so
    far to the staging file of a file transfer. *)
Record Service := mkService {
  socket_ : Socket.Socket;
  compound_message_parent_ : option Message;
  finished_compound_ : bool;
  opcode_ : option Opcode;
  expected_ : option N;
  body_ : Buffer.buffer;
  transfer_file_ : list byte
}.

Definition start (socket : Socket.Socket) : Service :=
  mkService socket None false None None Buffer.fresh [].

Definition set_input (inp : Buffer.buffer) (s : Service) : Service :=
  mkService (Socket.mkSocket inp (Socket.output_buffer_ (socket_ s)))
    (compound_message_parent_ s) (finished_compound_ s) (opcode_ s)
    (expected_ s) (body_ s) (transfer_file_ s).

Definition set_socket (sock : Socket.Socket) (s : Service) : Service :=
  mkService sock (compound_message_parent_ s) (finished_compound_ s) (opcode_ s)
    (expected_ s) (body_ s) (transfer_file_ s).

Definition set_opcode (o : option Opcode) (s : Service) : Service :=
  mkService (socket_ s) (compound_message_parent_ s) (finished_compound_ s) o
    (expected_ s) (body_ s) (transfer_file_ s).

Definition set_expected (e : option N) (s : Service) : Service :=
  mkService (socket_ s) (compound_message_parent_ s) (finished_compound_ s)
    (opcode_ s) e (body_ s) (transfer_file_ s).

Definition set_body (b : Buffer.buffer) (s : Service) : Service :=
  mkService (socket_ s) (compound_message_parent_ s) (finished_compound_ s)
    (opcode_ s) (expected_ s) b (transfer_file_ s).

Definition Input (s : Service) : Buffer.buffer := Socket.input_buffer_ (socket_ s).

(** [ResetCurrentMessage] and [ResetCompoundMessage]. *)
Definition ResetCurrentMessage (s : Service) : Service :=
  mkService (socket_ s) (compound_message_parent_ s) (finished_compound_ s)
    None None Buffer.fresh (transfer_file_ s).

Definition ResetCompoundMessage (s : Service) : Service :=
  ResetCurrentMessage
    (mkService (socket_ s) None false (opcode_ s) (expected_ s) (body_ s)
       (transfer_file_ s)).

Definition FinishedReadingCurrentMessage (s : Service) : bool :=
  match opcode_ s, expected_ s with
  | Some _, Some expected => expected =? Buffer.size (body_ s)
  | _, _ => false
  end.

Definition FinishedReadingCompoundMessage (s : Service) : bool :=
  match compound_message_parent_ s with
  | Some _ => finished_compound_ s
  | None => false
  end.

Definition FinishedReading (s : Service) : bool :=
  FinishedReadingCompoundMessage s || FinishedReadingCurrentMessage s.

Definition OpcodeStartsACompoundMessage (o : Opcode) : bool :=
  bool_decide (o = kFileTransfer).

Definition InACompoundMessage (s : Service) : bool :=
  bool_decide (is_Some (compound_message_parent_ s)).

(** [GetReturnedMessage]. *)
Definition GetReturnedMessage (s : Service) : option Message :=
  match compound_message_parent_ s with
  | Some parent => Some parent
  | None => o ← opcode_ s; Some (mkMessage o (body_ s))
  end.

(** [ProcessBytesIntoCurrentMessage]. *)
Definition ProcessBytesIntoCurrentMessage (bytes_available : N) (s : Service)
    : option (bool * Service) :=
  (* opcode *)
  r ← match opcode_ s with
      | Some _ => Some (inl (bytes_available, s))
      | None =>
          if bytes_available <? kOpcodeLength then Some (inr s)
          else
            '(o, inp) ← Buffer.get (Input s);
            Some (inl (bytes_available - kOpcodeLength,
                       set_opcode (Some o) (set_input inp s)))
      end;
  match r with
  | inr s => Some (false, s)
  | inl (bytes_available, s) =>
      (* body size *)
      r ← match expected_ s with
          | Some _ => Some (inl (bytes_available, s))
          | None =>
              if bytes_available <? kBodySizeLength then Some (inr s)
              else
                '(e, inp) ← Bytes.extract 4 (Input s);
                let s := set_expected (Some e) (set_input inp s) in
                s ← (if negb (e =? 0)
                     then '(_, b) ← Buffer.reserve e (body_ s); Some (set_body b s)
                     else Some s);
                Some (inl (bytes_available - kBodySizeLength, s))
          end;
      match r with
      | inr s => Some (false, s)
      | inl (bytes_available, s) =>
          (* body *)
          expected ← expected_ s;
          let currently_have := Buffer.size (body_ s) in
          if currently_have <? expected then
            let bytes_to_use := N.min bytes_available (expected - currently_have) in
            '(bytes, inp) ← Buffer.get_many bytes_to_use (Input s);
            b ← Buffer.put_iter bytes false (body_ s);
            Some (true, set_body b (set_input inp s))
          else Some (true, s)
      end
  end.

(** [HandleCompoundMessageHeader]; creating the staging file succeeds. *)
Definition HandleCompoundMessageHeader (s : Service) : option (result Service) :=
  o ← opcode_ s;
  let s := mkService (socket_ s) (Some (mkMessage o (body_ s)))
             (finished_compound_ s) (opcode_ s) (expected_ s) Buffer.moved_from
             (transfer_file_ s) in
  if bool_decide (o = kFileTransfer)
  then Some (ok (mkService (socket_ s) (compound_message_parent_ s)
                   (finished_compound_ s) (opcode_ s) (expected_ s) (body_ s) []))
  else Some (err "Invalid compound message opcode").

(** [HandleCompoundMessageFrame]. *)
Definition HandleCompoundMessageFrame (s : Service) : option (result Service) :=
  if negb (InACompoundMessage s) || negb (FinishedReadingCurrentMessage s)
  then Some (err "Cannot execute a message that has not been completely read")
  else
    parent ← compound_message_parent_ s;
    o ← opcode_ s;
    if bool_decide (opcode parent = kFileTransfer) then
      if bool_decide (o = kTransmitData) then
        chunk ← Buffer.view_bytes (body_ s);
        Some (ok (mkService (socket_ s) (compound_message_parent_ s)
                    (finished_compound_ s) (opcode_ s) (expected_ s) (body_ s)
                    (transfer_file_ s ++ chunk)))
      else if bool_decide (o = kFinished) then
        Some (ok (mkService (socket_ s) (compound_message_parent_ s) true
                    (opcode_ s) (expected_ s) (body_ s) (transfer_file_ s)))
      else Some (err "Invalid file transfer message frame")
    else Some (err "Invalid compound message opcode").

(** [ProcessBytes]. *)
Definition ProcessBytes (bytes_available : N) (s : Service)
    : option (result (bool * Service)) :=
  '(res, s) ← ProcessBytesIntoCurrentMessage bytes_available s;
  if FinishedReadingCurrentMessage s then
    o ← opcode_ s;
    if OpcodeStartsACompoundMessage o then
      r ← HandleCompoundMessageHeader s;
      match r with
      | ok s => Some (ok (res, ResetCurrentMessage s))
      | err e => Some (err e)
      end
    else if InACompoundMessage s then
      r ← HandleCompoundMessageFrame s;
      match r with
      | ok s => Some (ok (res, ResetCurrentMessage s))
      | err e => Some (err e)
      end
    else Some (ok (res, s))
  else Some (ok (res, s)).

(** [ProcessAllBytes]: the [while (progress_can_be_made && !FinishedReading())]
    loop, one unit of fuel per iteration. *)
Fixpoint ProcessAllBytes_loop (fuel : nat) (s : Service) : option (result Service) :=
  if FinishedReading s then Some (ok s)
  else
    let bytes_available := Buffer.size (Input s) in
    if bytes_available =? 0 then Some (ok s)
    else match fuel with
         | O => None
         | S fuel =>
             r ← ProcessBytes bytes_available s;
             match r with
             | err e => Some (err e)
             | ok (true, s) => ProcessAllBytes_loop fuel s
             | ok (false, s) => Some (ok s)
             end
         end.

Definition ProcessAllBytes (s : Service) : option (result Service) :=
  ProcessAllBytes_loop (2 * N.to_nat (Buffer.size (Input s)) + 2) s.

(** [ReceiveBytes], rescheduled through [PollForRead] until a message is
    complete; [chunks] are the results of the successive [::read] calls, and
    running out of them is the reader waiting for more input ([None]). *)
Fixpoint ReceiveBytes (chunks : list (list byte)) (s : Service)
    : option (result (Message * Service)) :=
  if FinishedReading s then m ← GetReturnedMessage s; Some (ok (m, s))
  else match chunks with
       | [] => None
       | chunk :: chunks =>
           sock ← Socket.Receive 1024 chunk (socket_ s);
           r ← ProcessAllBytes (set_socket sock s);
           match r with
           | err e => Some (err e)
           | ok s =>
               if FinishedReading s
               then m ← GetReturnedMessage s; Some (ok (m, s))
               else ReceiveBytes chunks s
           end
       end.

(** [ReadMessage]. *)
Definition ReadMessage (chunks : list (list byte)) (s : Service)
    : option (result (Message * Service)) :=
  r ← ProcessAllBytes (ResetCompoundMessage s);
  match r with
  | err e => Some (err e)
  | ok s => ReceiveBytes chunks s
  end.

(** [PutMessageInOutputBuffer]. *)
Definition PutMessageInOutputBuffer (msg : Message) (output : Buffer.buffer)
    : option (result Buffer.buffer) :=
  let body_size := Buffer.size (body msg) in
  if kMaxBodySize <? body_size then Some (err "Body size exceeds maximum")
  else
    output ← Buffer.put [opcode msg] true output;
    let size := body_size mod 2 ^ 32 in
    output ← Bytes.insert 4 size output;
    '(output, _) ← Buffer.move_buffer (body msg) true output;
    Some (ok output).

(** What [FillOutputBuffer] takes from [components_] and from the file
    system: whether the process is the server, and the content of the files
    that [std::ifstream] opens, by name. *)
Record Components := mkComponents {
  server : bool;
  readable : gmap string (list byte)
}.

(** The [while (more_chunks)] loop of a file transfer, one unit of fuel per
    chunk. [readsome] hands over what is left of the file, up to
    [chunk_size] bytes, and the chunk goes out in the [chunk_size] bytes it
    was resized to. *)
Fixpoint put_chunks (fuel : nat) (chunk_size : N) (file : list byte)
    (output : Buffer.buffer) : option (result Buffer.buffer) :=
  let bytes_read := N.min chunk_size (N.of_nat (length file)) in
  if bytes_read =? 0 then Some (ok output)
  else match fuel with
       | O => None
       | S fuel =>
           let chunk :=
             take (N.to_nat bytes_read) file
             ++ replicate (N.to_nat (chunk_size - bytes_read)) "000"%byte in
           r ← PutMessageInOutputBuffer
                 (TransmitDataMessage_ToMessage (mkTransmitData chunk)) output;
           match r with
           | err e => Some (err e)
           | ok output =>
               if bytes_read <? chunk_size then Some (ok output)
               else put_chunks fuel chunk_size (drop (N.to_nat bytes_read) file)
                      output
           end
       end.

(** [FillOutputBuffer]. FileTransfer is the one opcode that starts a
    compound message: the named file goes out as a header, its chunks and a
    Finished message. Every other message is put in directly. *)
Definition FillOutputBuffer (components : Components) (msg : Message)
    (output : Buffer.buffer) : option (result Buffer.buffer) :=
  if OpcodeStartsACompoundMessage (opcode msg) then
    r ← ToFileTransfer msg;
    match r with
    | err e => Some (err e)
    | ok transfer =>
        match readable components !! transfer_file_name transfer with
        | None => Some (err "Could not open file for transfer")
        | Some file =>
            r ← PutMessageInOutputBuffer (FileTransferMessage_ToMessage transfer)
                  output;
            match r with
            | err e => Some (err e)
            | ok output =>
                let chunk_size := if server components then 200 else 100 in
                r ← put_chunks (S (length file)) chunk_size file output;
                match r with
                | err e => Some (err e)
                | ok output => PutMessageInOutputBuffer FinishedMessage_ToMessage output
                end
            end
        end
    end
  else PutMessageInOutputBuffer msg output.

(** [WriteMessage]: the output buffer is filled and sent; the bytes that go
    out. *)
Definition WriteMessage (components : Components) (msg : Message)
    (sock : Socket.Socket) : option (result (list byte * Socket.Socket)) :=
  r ← FillOutputBuffer components msg (Socket.output_buffer_ sock);
  match r with
  | err e => Some (err e)
  | ok output =>
      '(sent, sock) ← Socket.Send (Socket.mkSocket (Socket.input_buffer_ sock) output);
      Some (ok (sent, sock))
  end.

(** Encoding on a fresh connection of a client without a file to transfer,
    and decoding what arrives on one. *)
Definition client_without_files : Components := mkComponents false ∅.

Definition encode (msg : Message) : option (result (list byte)) :=
  r ← WriteMessage client_without_files msg Socket.fresh;
  match r with
  | err e => Some (err e)
  | ok (sent, _) => Some (ok sent)
  end.

Definition decode (chunks : list (list byte)) : option (result Message) :=
  r ← ReadMessage chunks (start Socket.fresh);
  match r with
  | err e => Some (err e)
  | ok (m, _) => Some (ok m)
  end.

(** A Response whose text is 510 times the letter a, and a short one. *)
Definition long_response : Message :=
  ResponseMessage_ToMessage
    (mkResponse (string_of_list_byte (replicate 510 "a"%byte))).

Definition short_response : Message :=
  ResponseMessage_ToMessage (mkResponse "abc").

(** The longest Response that a single read brings back whole. *)
Definition fitting_response : Message :=
  ResponseMessage_ToMessage
    (mkResponse (string_of_list_byte (replicate 509 "a"%byte))).

End AsyncMessageService.

(** ** String helpers ([util/strings.h], [util/strings.cc]) *)

Module Strings.

Local Open Scope N_scope.

(** A [std::string] as the list of its characters. Positions and counts are
    [std::size_t]: 64-bit unsigned with wrap-around, [std::string::npos] the
    largest one. *)
Definition npos : N := 2 ^ 64 - 1.
Definition plus (a b : N) : N := (a + b) mod 2 ^ 64.
Definition minus (a b : N) : N := (a + 2 ^ 64 - b mod 2 ^ 64) mod 2 ^ 64.

Definition size (s : list ascii) : N := N.of_nat (length s).

(** The searches of [std::string] that the helpers use: the first position
    from [pos] on whose character satisfies [p], and the last one up to
    [pos]. *)
Definition find_first (p : ascii → bool) (s : list ascii) (pos : N) : N :=
  match list_find (λ c, p c = true) (drop (N.to_nat pos) s) with
  | Some (i, _) => pos + N.of_nat i
  | None => npos
  end.

Definition find_last (p : ascii → bool) (s : list ascii) (pos : N) : N :=
  if size s =? 0 then npos
  else
    let from := N.min pos (size s - 1) in
    match list_find (λ c, p c = true) (reverse (take (S (N.to_nat from)) s)) with
    | Some (i, _) => from - N.of_nat i
    | None => npos
    end.

(** [s.find(c, pos)], [s.find_first_not_of(set, pos)] and
    [s.find_last_not_of(set, pos)]. *)
Definition find (s : list ascii) (c : ascii) (pos : N) : N :=
  find_first (λ x, Ascii.eqb x c) s pos.

Definition find_first_not_of (s set : list ascii) (pos : N) : N :=
  find_first (λ x, negb (bool_decide (x ∈ set))) s pos.

Definition find_last_not_of (s set : list ascii) (pos : N) : N :=
  find_last (λ x, negb (bool_decide (x ∈ set))) s pos.

(** [s.substr(pos, count)]; it throws [std::out_of_range] for a position
    behind the end: [None]. *)
Definition substr (s : list ascii) (pos count : N) : option (list ascii) :=
  if size s <? pos then None
  else Some (take (N.to_nat (N.min count (size s - pos))) (drop (N.to_nat pos) s)).

(** [split(src, char delim)]: the [while] loop, one unit of fuel per
    delimiter found, and the rest of the string behind the last one. *)
Fixpoint split_loop (fuel : nat) (src : list ascii) (delim : ascii) (prev : N)
    (tokens : list (list ascii)) : option (N * list (list ascii)) :=
  let pos := find src delim prev in
  if pos =? npos then Some (prev, tokens)
  else match fuel with
       | O => None
       | S fuel =>
           token ← substr src prev (minus pos prev);
           split_loop fuel src delim (plus pos 1) (tokens ++ [token])
       end.

Definition split (src : list ascii) (delim : ascii) : option (list (list ascii)) :=
  '(prev, tokens) ← split_loop (length src) src delim 0 [];
  token ← substr src prev npos;
  Some (tokens ++ [token]).

(** [split_trim(src, delim, whitespace)]. *)
Fixpoint split_trim_loop (fuel : nat) (src : list ascii) (delim : ascii)
    (whitespace : list ascii) (prev : N) (tokens : list (list ascii))
    : option (N * list (list ascii)) :=
  let pos := find src delim prev in
  if pos =? npos then Some (prev, tokens)
  else match fuel with
       | O => None
       | S fuel =>
           let begin := find_first_not_of src whitespace prev in
           if pos <=? begin then
             split_trim_loop fuel src delim whitespace
               (if begin =? npos then begin else plus begin 1) tokens
           else
             let end_ := find_last_not_of src whitespace (minus pos 1) in
             token ← substr src begin (plus (minus end_ begin) 1);
             split_trim_loop fuel src delim whitespace (plus pos 1)
               (tokens ++ [token])
       end.

(** What [split_trim] does behind its loop: the rest of the string, if it is
    not whitespace. *)
Definition split_trim_rest (src whitespace : list ascii)
    (state : N * list (list ascii)) : option (list (list ascii)) :=
  let '(prev, tokens) := state in
  let begin := find_first_not_of src whitespace prev in
  if negb (begin =? npos) then
    let end_ := find_last_not_of src whitespace npos in
    token ← substr src begin (plus (minus end_ begin) 1);
    Some (tokens ++ [token])
  else Some tokens.

Definition split_trim (src : list ascii) (delim : ascii) (whitespace : list ascii)
    : option (list (list ascii)) :=
  split_trim_loop (length src) src delim whitespace 0 []
  ≫= split_trim_rest src whitespace.

(** The default [whitespace]: blank and tab. *)
Definition default_whitespace : list ascii := [" "; "009"]%char.

(** What a stream writes for the [const char*] of a string: the characters
    before the first null character. *)
Fixpoint c_str (s : list ascii) : list ascii :=
  match s with
  | [] => []
  | c :: s => if Ascii.eqb c zero then [] else c :: c_str s
  end.

(** [join(range, delim)]: every element but the last goes out followed by
    the delimiter, which the [ostream_iterator] holds as [delim.data()], then
    the last one. *)
Definition join (range : list (list ascii)) (delim : list ascii) : list ascii :=
  match last range with
  | None => []
  | Some final =>
      mjoin ((λ e, e ++ c_str delim) <$> take (length range - 1) range) ++ final
  end.

(** A string that is not empty and neither begins nor ends with a character
    of [whitespace]. *)
Definition trimmed (whitespace : list ascii) (s : list ascii) : Prop :=
  (∃ c, head s = Some c ∧ c ∉ whitespace)
  ∧ (∃ c, last s = Some c ∧ c ∉ whitespace).

End Strings.

(** ** File system paths ([util/path.cc]) *)

Module Path.

Local Open Scope nat_scope.

(** A [util::fs::path] is its [path_] string; [prefix_length_] is never
    assigned anything but 0 and [root_name_length()] is the constant 0. *)
Definition path := string.

(** [s[i]]; at [i = s.size()] a [std::string] yields its terminating zero. *)
Definition char_at (s : string) (i : nat) : ascii :=
  default "000"%char (String.get i s).

Definition is_sep (c : ascii) : bool := Ascii.eqb c "/".

Definition last_char (s : string) : ascii := char_at s (String.length s - 1).

Definition pop_back (s : string) : string := substring 0 (String.length s - 1) s.

Definition suffix (i : nat) (s : string) : string :=
  substring i (String.length s - i) s.

(** [std::unique] with "both are separators" as the equivalence. *)
Fixpoint unique_separators (s : string) : string :=
  match s with
  | String a rest =>
      match rest with
      | String b _ =>
          if is_sep a && is_sep b then unique_separators rest
          else String a (unique_separators rest)
      | EmptyString => s
      end
  | EmptyString => EmptyString
  end.

(** [process_assigned_path] and [assign(const std::string&)]. *)
Definition process_assigned_path (s : string) : string :=
  let start :=
    if (2 <? String.length s) && is_sep (char_at s 0) && is_sep (char_at s 1)
       && negb (is_sep (char_at s 2))
    then 2 else 0 in
  substring 0 start s +:+ unique_separators (suffix start s).

Definition assign (str : string) : path := process_assigned_path str.

Definition empty (p : path) : bool := String.length p =? 0.

Definition has_root_directory (p : path) : bool :=
  (0 <? String.length p) && is_sep (char_at p 0).

Definition is_absolute (p : path) : bool := has_root_directory p.

Definition root_name (p : path) : path := assign (substring 0 0 p).

Definition root_directory (p : path) : path :=
  if has_root_directory p then assign "/" else "".

Definition root_path (p : path) : path :=
  assign (root_name p +:+ root_directory p).

Definition root_path_length (p : path) : nat :=
  if has_root_directory p then 1 else 0.

Definition has_relative_path (p : path) : bool :=
  root_path_length p <? String.length p.

(** *** [path::iterator] *)

(** An iterator over the names of path [p]: the position [iter_] in [path_]
    and the name [current_] it points at. [first_] and [prefix_] are
    position 0 and [last_] is the length of [p]. *)
Record iterator := mkIterator { iter_ : nat; current_ : path }.

Definition root_ (p : path) : nat :=
  if has_root_directory p then 0 else String.length p.

(** [std::find(it, last_, '/')]. *)
Fixpoint index_of_separator (s : string) : nat :=
  match s with
  | EmptyString => 0
  | String c rest => if is_sep c then 0 else S (index_of_separator rest)
  end.

Definition find (p : path) (it : nat) : nat :=
  it + index_of_separator (suffix it p).

(** [while (it != last_ && *it == '/') ++it]. *)
Fixpoint count_separators (s : string) : nat :=
  match s with
  | EmptyString => 0
  | String c rest => if is_sep c then S (count_separators rest) else 0
  end.

(** [std::find] on reverse iterators from [it] down to [first_], then
    [.base()]: the position after the last separator before [it]. *)
Fixpoint rfind (p : path) (it : nat) : nat :=
  match it with
  | 0 => 0
  | S k => if is_sep (char_at p k) then S k else rfind p k
  end.

(** [iterator::increment]. The source's test for a third slash adds one to
    the character under the iterator instead of to the iterator; that
    character is a slash there, so the test never holds. *)
Definition increment (p : path) (pos : nat) : nat :=
  let from_start := pos =? 0 in
  if pos =? String.length p then pos
  else
    let it := S pos in
    if is_sep (char_at p pos) then
      if negb (it =? String.length p) && is_sep (char_at p it) then
        if from_start then find p it
        else it + count_separators (suffix it p)
      else it
    else if from_start && negb (it =? String.length p)
            && Ascii.eqb (char_at p it) ":" then S it
    else find p it.

(** [iterator::decrement]. *)
Definition decrement (p : path) (pos : nat) : nat :=
  if pos =? 0 then pos
  else
    let it := pos - 1 in
    let it :=
      if negb (it =? root_ p)
         && (negb (pos =? String.length p) || negb (is_sep (char_at p it)))
      then rfind p it else it in
    if (it =? 2) && is_sep (char_at p 0) && is_sep (char_at p 1)
    then it - 2 else it.

(** [iterator::update_current]. *)
Definition update_current (p : path) (iter : nat) : path :=
  if (iter =? String.length p)
     || (negb (iter =? 0) && negb (iter =? String.length p)
         && (is_sep (char_at p iter) && negb (iter =? root_ p))
         && (S iter =? String.length p))
  then ""
  else assign (substring iter (increment p iter - iter) p).

Definition begin_ (p : path) : iterator :=
  mkIterator 0 (if 0 =? String.length p then "" else update_current p 0).

Definition end_ (p : path) : iterator := mkIterator (String.length p) "".

(** The [while] loop of [operator++]. *)
Fixpoint skip_separators (fuel : nat) (p : path) (it : nat) : nat :=
  match fuel with
  | 0 => it
  | S fuel =>
      if negb (it =? String.length p) && negb (it =? root_ p)
         && is_sep (char_at p it) && negb (S it =? String.length p)
      then skip_separators fuel p (S it) else it
  end.

(** [operator++] and [operator--]. *)
Definition next (p : path) (it : iterator) : iterator :=
  let i := skip_separators (String.length p) p (increment p (iter_ it)) in
  mkIterator i (update_current p i).

Definition prev (p : path) (it : iterator) : iterator :=
  let i := decrement p (iter_ it) in
  mkIterator i (update_current p i).

(** The names a loop [for (; it != p.end(); ++it)] visits. Every [++] moves
    the position forward, so the length of [p] bounds the visits. *)
Fixpoint names_from (fuel : nat) (p : path) (it : iterator) : list path :=
  match fuel with
  | 0 => []
  | S fuel =>
      if iter_ it =? String.length p then []
      else current_ it :: names_from fuel p (next p it)
  end.

Definition names (p : path) : list path :=
  names_from (String.length p) p (begin_ p).

(** *** Comparison *)

(** [char] is signed. *)
Definition signed_char (c : ascii) : Z :=
  let n := Z.of_nat (nat_of_ascii c) in
  if (n <? 128)%Z then n else (n - 256)%Z.

(** The character loop of [compare] and what follows it. The test
    [it2 == path_.end()] compares positions in two different strings and
    does not hold; [*it2] at the end of [rhs] reads its terminating zero. *)
Fixpoint compare_from (s1 s2 : string) : Z :=
  match s1, s2 with
  | EmptyString, EmptyString => 0
  | EmptyString, String _ _ => -1
  | String c1 r1, String c2 r2 =>
      if Ascii.eqb c1 c2 then compare_from r1 r2
      else if is_sep c1 then -1
      else if is_sep c2 then 1
      else if (signed_char c1 <? signed_char c2)%Z then -1 else 1
  | String c1 _, EmptyString =>
      if is_sep c1 then -1
      else if (signed_char c1 <? 0)%Z then -1 else 1
  end.

Definition compare (p rhs : path) : Z :=
  let hrd1 := has_root_directory p in
  let hrd2 := has_root_directory rhs in
  if negb (Bool.eqb hrd1 hrd2) then (if hrd1 then 1 else -1)%Z
  else
    let rnl := if hrd1 then 1 else 0 in
    compare_from (suffix rnl p) (suffix rnl rhs).

(** [operator==(const path&)] and [operator==(const std::string&)]. *)
Definition eq (p rhs : path) : bool := (compare p rhs =? 0)%Z.
Definition eq_string (p : path) (str : string) : bool :=
  (compare p (assign str) =? 0)%Z.

(** *** Names *)

(** [filename], [has_filename], [remove_filename]. *)
Definition filename (p : path) : path :=
  if negb (has_relative_path p) then ""
  else current_ (prev p (end_ p)).

Definition has_filename (p : path) : bool :=
  has_relative_path p && negb (empty (filename p)).

Definition remove_filename (p : path) : path :=
  if has_filename p
  then substring 0 (String.length p - String.length (filename p)) p
  else p.

(** *** [operator/=] *)

(** The loop that adds each name of [rhs]. *)
Fixpoint append_names (rhs_names : list path) (first : bool) (p : string) : string :=
  match rhs_names with
  | [] => p
  | name :: rest =>
      let p :=
        if negb first && negb (negb (empty p) && is_sep (last_char p))
        then p +:+ "/" else p in
      append_names rest false (p +:+ name)
  end.

Definition append (p rhs : path) : path :=
  if empty rhs then
    if negb (empty p) && negb (is_sep (last_char p))
       && negb (Ascii.eqb (last_char p) ":")
    then p +:+ "/" else p
  else if is_absolute rhs
          && (negb (String.eqb p (root_name p)) || negb (String.eqb rhs "/"))
  then rhs
  else
    let p :=
      if has_root_directory rhs then root_name p
      else if (negb (has_root_directory p) && is_absolute p) || has_filename p
      then p +:+ "/" else p in
    append_names (names rhs) true p.

(** [operator/(const path&, const std::string&)]. *)
Definition join (lhs : path) (rhs : string) : path := append lhs (assign rhs).

(** *** [lexically_normal] *)

Fixpoint normal_loop (root : path) (todo : list path) (normalized : path)
    (last_dot_dot : bool) : path :=
  match todo with
  | [] => normalized
  | name :: rest =>
      let add :=
        normal_loop root rest
          (if negb (empty name && last_dot_dot) then append normalized name
           else normalized)
          (eq_string name "..") in
      if eq_string name "." then
        normal_loop root rest (append normalized (assign "")) last_dot_dot
      else if eq_string name ".." && negb (empty normalized) then
        if eq normalized root then normal_loop root rest normalized last_dot_dot
        else if negb (eq_string (current_ (prev normalized (end_ normalized))) "..")
        then
          let normalized :=
            if is_sep (last_char normalized) then pop_back normalized
            else normalized in
          normal_loop root rest (remove_filename normalized) last_dot_dot
        else add
      else add
  end.

Definition lexically_normal (p : path) : path :=
  let normalized := normal_loop (root_path p) (names p) "" false in
  if empty normalized then assign "." else normalized.

(** *** [lexically_relative] *)

(** The loop over the common names. Its test [me != base.end()] compares
    positions in two different strings and always holds. *)
Fixpoint skip_common (fuel : nat) (p base : path) (me them : iterator)
    : iterator * iterator :=
  match fuel with
  | 0 => (me, them)
  | S fuel =>
      if negb (iter_ me =? String.length p) && eq (current_ me) (current_ them)
      then skip_common fuel p base (next p me) (next base them)
      else (me, them)
  end.

Fixpoint count_difference (todo : list path) (count : Z) : Z :=
  match todo with
  | [] => count
  | name :: rest =>
      if negb (eq_string name "") && negb (eq_string name ".")
         && negb (eq_string name "..")
      then count_difference rest (count + 1)
      else if eq_string name ".." then count_difference rest (count - 1)
      else count_difference rest count
  end.

Definition lexically_relative (p base : path) : path :=
  if negb (eq (root_name p) (root_name base))
     || negb (Bool.eqb (is_absolute p) (is_absolute base))
     || (negb (has_root_directory p) && has_root_directory base)
  then ""
  else
    let '(me, them) :=
      skip_common (String.length p) p base (begin_ p) (begin_ base) in
    if (iter_ me =? String.length p) && (iter_ them =? String.length base)
    then assign "."
    else
      let count :=
        count_difference (names_from (String.length base) base them) 0 in
      if (count <? 0)%Z then ""
      else
        let result :=
          Nat.iter (Z.to_nat count) (λ r, append r (assign "..")) "" in
        foldl append result (names_from (String.length p) p me).

End Path.

(** ** Reading a file through [std::ifstream] *)

Module IStream.

Local Open Scope Z_scope.

(** An open input file stream: the file's content, the read position, and
    the two state bits the code can meet. *)
Record ifstream := mkStream {
  content : string;
  pos : Z;
  failbit : bool;
  eofbit : bool
}.

Definition open (content : string) : ifstream := mkStream content 0 false false.

Definition size (s : ifstream) : Z := Z.of_nat (String.length (content s)).

(** [operator!] is [fail()]. *)
Definition fail (s : ifstream) : bool := failbit s.
Definition good (s : ifstream) : bool := negb (failbit s) && negb (eofbit s).

Inductive seekdir := cur | end_.

(** [seekg(off, dir)] clears [eofbit], does nothing more on a failed stream,
    and fails when the target lies before the start of the file. *)
Definition seekg (off : Z) (dir : seekdir) (s : ifstream) : ifstream :=
  if failbit s then mkStream (content s) (pos s) true false
  else
    let target := (match dir with cur => pos s | end_ => size s end) + off in
    if target <? 0 then mkStream (content s) (pos s) true false
    else mkStream (content s) target false false.

(** [peek()]: the next character, or end of file ([None]). *)
Definition peek (s : ifstream) : option ascii * ifstream :=
  if negb (good s) then (None, mkStream (content s) (pos s) true (eofbit s))
  else match String.get (Z.to_nat (pos s)) (content s) with
       | Some c => (Some c, s)
       | None => (None, mkStream (content s) (pos s) (failbit s) true)
       end.

(** [get()]. *)
Definition get (s : ifstream) : option ascii * ifstream :=
  if negb (good s) then (None, mkStream (content s) (pos s) true (eofbit s))
  else match String.get (Z.to_nat (pos s)) (content s) with
       | Some c => (Some c, mkStream (content s) (pos s + 1) false false)
       | None => (None, mkStream (content s) (pos s) true true)
       end.

(** The characters up to the first newline, and whether one was found. *)
Fixpoint until_newline (s : string) : string * bool :=
  match s with
  | EmptyString => (EmptyString, false)
  | String c rest =>
      if Ascii.eqb c "010" then (EmptyString, true)
      else let '(l, found) := until_newline rest in (String c l, found)
  end.

(** [std::getline(file, str)] into [str]: on a stream that is not good
    nothing is extracted and [str] is left as it is. *)
Definition getline (str : string) (s : ifstream) : string * ifstream :=
  if negb (good s) then (str, mkStream (content s) (pos s) true (eofbit s))
  else
    let rest := Path.suffix (Z.to_nat (pos s)) (content s) in
    let '(l, found) := until_newline rest in
    let extracted := Z.of_nat (String.length l) + (if found then 1 else 0) in
    (l, mkStream (content s) (pos s + extracted)
          (extracted =? 0) (negb found)).

End IStream.

(** ** The file service ([net/server/service/file_service.cc]) *)

Module FileService.

(** The files below the managed root, by path, and the paths that cannot
    be opened for appending. *)
Record FileSystem := mkFileSystem {
  files : gmap string string;
  unwritable : gset string
}.

Definition nl : string := String "010" EmptyString.

(** [FileService::Initialize] sets [root_] so. *)
Definition make_root (root : string) : Path.path :=
  Path.lexically_normal (Path.assign root).

(** [name[0] == '.']. *)
Definition hidden (name : string) : bool := Ascii.eqb (Path.char_at name 0) ".".

(** The path check that [ReadLastLine] and [AppendLine] share:
    [root_.lexically_relative(full_path) != ".."]. *)
Definition full_path (root_ : Path.path) (name : string) : Path.path :=
  Path.lexically_normal (Path.join root_ name).

Definition outside_root (root_ : Path.path) (name : string) : bool :=
  negb (Path.eq_string (Path.lexically_relative root_ (full_path root_ name)) "..").

(** The part of [ReadLastLine] that works on the open file. *)
Fixpoint seek_back (fuel : nat) (ch : option ascii) (file : IStream.ifstream)
    : option ascii * IStream.ifstream :=
  match fuel with
  | O => (ch, file)
  | S fuel =>
      if bool_decide (ch = Some "010"%char) then (ch, file)
      else
        let file := IStream.seekg (-1) IStream.cur file in
        if IStream.fail file then (ch, file)
        else let '(ch, file) := IStream.peek file in seek_back fuel ch file
  end.

Definition last_line_of (content : string) : string :=
  let file := IStream.open content in
  let file := IStream.seekg (-1) IStream.end_ file in
  if IStream.fail file then ""
  else
    let '(c, file) := IStream.peek file in
    let '(stop, file) :=
      if bool_decide (c = Some "010"%char)
      then let file := IStream.seekg (-1) IStream.cur file in
           (IStream.fail file, file)
      else (false, file) in
    if stop then ""
    else
      let '(ch, file) :=
        seek_back (S (String.length content)) (Some "000"%char) file in
      let file :=
        if bool_decide (ch = Some "010"%char) then (IStream.get file).2 else file in
      (IStream.getline "" file).1.

(** [FileService::ReadLastLine], for names that do not lead to a directory:
    the file system of the model holds regular files only. *)
Definition ReadLastLine (fs : FileSystem) (root_ : Path.path) (name : string)
    : result string :=
  if outside_root root_ name || hidden name then err "Invalid file access"
  else match files fs !! full_path root_ name with
       | None => err ("Failed to open file " +:+ name)
       | Some content => ok (last_line_of content)
       end.

(** [FileService::AppendLine]: the outcome and the file system afterwards. *)
Definition AppendLine (fs : FileSystem) (root_ : Path.path) (name line : string)
    : result unit * FileSystem :=
  if outside_root root_ name then (err "Invalid file access", fs)
  else
    let p := full_path root_ name in
    if bool_decide (p ∈ unwritable fs) then (err ("Failed to open file " +:+ name), fs)
    else
      let old := default "" (files fs !! p) in
      (ok (), mkFileSystem (<[p := old +:+ line +:+ nl]> (files fs)) (unwritable fs)).

(** A root directory and an empty file system to try the service on. *)
Definition sample_root : Path.path := make_root "/srv/files".
Definition empty_fs : FileSystem := mkFileSystem ∅ ∅.

(** [FileService::GetFiles]; [listing] is what [get_files_in_directory]
    returns for the root: an error, or the names of the regular files in the
    order [readdir] gave them. *)
Definition GetFiles (listing : result (list string)) : result (list string) :=
  match listing with
  | err what => err what
  | ok files => ok (filter (λ name, hidden name = false) files)
  end.

End FileService.

(** ** The server's request dispatcher ([net/server/impl/project2_service.cc]) *)

Module Project2Service.

(** What a handler sends back, before [ToMessage]. *)
Inductive Sent :=
| OkMessage
| ErrorMessage (message : string)
| ResponseMessage (message : string).

Inductive NextState := AwaitMessage | Stop.

(** The [HandleWrite] state for the received Write message [write]. *)
Definition HandleWrite (fs : FileService.FileSystem) (root_ : Path.path)
    (write : Proto.WriteMessage) : Sent * NextState * FileService.FileSystem :=
  match FileService.AppendLine fs root_ (Proto.file_name write) (Proto.line write) with
  | (err what, fs) => (ErrorMessage what, Stop, fs)
  | (ok _, fs) => (OkMessage, AwaitMessage, fs)
  end.

(** The [HandleRead] state for the received file name. *)
Definition HandleRead (fs : FileService.FileSystem) (root_ : Path.path)
    (file_name : string) : Sent * NextState :=
  match FileService.ReadLastLine fs root_ file_name with
  | err what => (ErrorMessage what, Stop)
  | ok last_line => (ResponseMessage last_line, AwaitMessage)
  end.

(** The [HandleEnquiry] state for the outcome of [PeerName] and the listing
    of the root; an error of the socket or of the file service ends the state
    machine with that error. *)
Definition HandleEnquiry (peer_name : result string) (listing : result (list string))
    : result (Sent * NextState) :=
  match peer_name with
  | err what => err what
  | ok _ =>
      match FileService.GetFiles listing with
      | err what => err what
      | ok files =>
          ok (ResponseMessage
                (string_of_list_ascii
                   (Strings.join (list_ascii_of_string <$> files)
                      (list_ascii_of_string ", "))),
              AwaitMessage)
      end
  end.

(** The message a handler hands to [WriteMessage]. *)
Definition Sent_ToMessage (sent : Sent) : Proto.Message :=
  match sent with
  | OkMessage => Proto.OkMessage_ToMessage
  | ErrorMessage what => Proto.ErrorMessage_ToMessage (Proto.mkError what)
  | ResponseMessage text => Proto.ResponseMessage_ToMessage (Proto.mkResponse text)
  end.

End Project2Service.

(** ** The client ([net/client/impl/project2_client.cc]) *)

Module Project2Client.

(** The [kResponse] case of the [ReceiveEnquiryResponse] state: the file
    names the client keeps in [file_names_], or the error it stops with. *)
Definition ReceiveEnquiryResponse (message : string) : option (result (list string)) :=
  file_names ← Strings.split_trim (list_ascii_of_string message) ","
                  Strings.default_whitespace;
  if bool_decide (file_names = [])
  then Some (err "Server responded to enquiry with 0 file names")
  else Some (ok (string_of_list_ascii <$> file_names)).

Inductive NextState := Wait | Stop.

(** The callback that the [ReceiveEnquiryResponse] state hands to
    [ReadMessage], on the outcome of the read: the file names the client has
    in [file_names_] afterwards and its next state, or the error it stops
    with. [ok()] of a conversion that failed has no defined result. *)
Definition ReceiveEnquiryResponse_callback (file_names_ : list string)
    (read : result Proto.Message) : option (result (list string * NextState)) :=
  match read with
  | err what => Some (err what)
  | ok msg =>
      if bool_decide (Proto.opcode msg = Proto.kResponse) then
        r ← Proto.ToResponse msg;
        match r with
        | err _ => None
        | ok resp =>
            r ← ReceiveEnquiryResponse (Proto.message resp);
            match r with
            | err what => Some (err what)
            | ok file_names => Some (ok (file_names, Wait))
            end
        end
      else if bool_decide (Proto.opcode msg = Proto.kError) then
        r ← Proto.ToError msg;
        match r with
        | err _ => None
        | ok _ => Some (ok (file_names_, Stop))
        end
      else
        Some (err ("Received message type "
                   +:+ pretty (Byte.to_N (Proto.opcode msg))
                   +:+ " from server in enquiry response state, expected "
                   +:+ pretty (Byte.to_N Proto.kResponse)))
  end.

End Project2Client.

(** * Properties *)

(** ** The mutual exclusion engine *)

Section EngineFacts.
Import Mutex.
Context {Op : Type}.
Implicit Types (s : Service Op) (e : PeerNetworkEntry) (f : string).

Lemma has_permission_true f e : has_permission f e = true ↔ f ∈ have_permission_for e.
Proof. unfold has_permission. by rewrite bool_decide_eq_true. Qed.

Lemma has_permission_false f e : has_permission f e = false ↔ f ∉ have_permission_for e.
Proof. unfold has_permission. by rewrite bool_decide_eq_false. Qed.

(** Without wrap-around the clock update is "the larger one, plus one". *)
Lemma bump_no_overflow (s : Service Op) ts :
  0 ≤ timestamp_ s < size_t_max → 0 ≤ ts < size_t_max →
  timestamp_ (bump ts s) = Z.max (timestamp_ s) ts + 1.
Proof.
  intros HT Hts. unfold bump, wrap, size_t_max in *. simpl.
  rewrite !Z.mod_small by lia. lia.
Qed.

(** The requests [RequestMutualExclusion] sends: one per entry without the
    permission, addressed by the entry's index. *)
Lemma elem_of_send_requests (req : MutualExclusionRequest Op) k entries i m :
  SendMessage i m ∈ send_requests req k entries ↔
  m = MsgRequest (mkRequest (timestamp req) (file_name req))
  ∧ (k ≤ i)%nat
  ∧ ∃ e, entries !! (i - k)%nat = Some e ∧ file_name req ∉ have_permission_for e.
Proof.
  revert k. induction entries as [|e rest IH]; intros k; simpl.
  - split; [by intros ?%elem_of_nil | by intros (_ & _ & e & ? & _)].
  - rewrite elem_of_app, IH. split.
    + intros [H | (-> & Hk & e' & Hl & Hn)].
      * destruct (has_permission _ e) eqn:Hp; [by apply elem_of_nil in H|].
        apply list_elem_of_singleton in H. injection H as -> ->.
        split; [done|]. split; [lia|]. exists e.
        rewrite Nat.sub_diag. split; [done|]. by apply has_permission_false.
      * split; [done|]. split; [lia|]. exists e'. split; [|done].
        replace (i - k)%nat with (S (i - S k)) by lia. done.
    + intros (-> & Hk & e' & Hl & Hn).
      destruct (decide (i = k)) as [->|Hne].
      * left. rewrite Nat.sub_diag in Hl. injection Hl as ->.
        apply has_permission_false in Hn. rewrite Hn. by apply list_elem_of_singleton.
      * right. split; [done|]. split; [lia|]. exists e'. split; [|done].
        replace (i - k)%nat with (S (i - S k)) in Hl by lia. done.
Qed.




End EngineFacts.

Section EngineClaims.
Import Mutex.
Context {Op : Type}.
Implicit Types (s : Service Op) (e : PeerNetworkEntry) (f : string).

(** Claim C2, as amended. A call [RunWithMutualExclusion(f, op)] made while
    the node is waiting with no outstanding request leaves the Lamport clock
    at its value [T], records the outstanding request [(f, T, op)], and every
    message it sends is a Request for [f] that carries [T]. *)
Theorem entry_records_current_clock s f op :
  state_ s = kWaiting → my_request_ s = None →
  ∃ s' out, RunWithMutualExclusion s f op = Some (s', out)
    ∧ timestamp_ s' = timestamp_ s
    ∧ my_request_ s' = Some (mkMine f op (timestamp_ s))
    ∧ ∀ i m, SendMessage i m ∈ out →
        m = MsgRequest (mkRequest (timestamp_ s) f).
Proof.
  intros Hst Hreq. unfold RunWithMutualExclusion.
  rewrite Hreq, Hst. simpl.
  unfold CheckForMutualExclusion. simpl.
  destruct (forallb _ _) eqn:Hall; simpl;
    eexists _, _; (split; [reflexivity|]); simpl; repeat split; try done.
  - intros i m [Hin | Hin]%elem_of_app.
    + by apply elem_of_send_requests in Hin as (-> & _).
    + apply list_elem_of_singleton in Hin. discriminate.
  - intros i m Hin. rewrite app_nil_r in Hin.
    by apply elem_of_send_requests in Hin as (-> & _).
Qed.

(** Claim C3. A node that is requesting file [myFn] with stamp [myTs] and
    receives a Request with stamp [ts] for the same file from a peer [P] with
    another id defers it, sending nothing, when [(myTs, self_id)] is
    lexicographically below [(ts, P.id)], and otherwise sends [P] a Reply for
    [myFn]; a peer with a lower id and the same stamp gets its Reply. *)
Theorem same_file_priority s i e mine ts :
  state_ s = kRequesting → my_request_ s = Some mine →
  network_ s !! i = Some e → id s ≠ connection_id e →
  let request := mkRequest ts (file_name mine) in
  let mine_first :=
    timestamp mine < ts ∨ (timestamp mine = ts ∧ id s < connection_id e) in
  (mine_first →
     ∃ s', OnReceiveRequest s i request = Some (s', [])
       ∧ delayed_requests_ s' = delayed_requests_ s ++ [mkDelayed i request])
  ∧ (¬ mine_first →
     ∃ s', OnReceiveRequest s i request
           = Some (s', [SendMessage i
                          (MsgReply (mkReply (timestamp_ s') (file_name mine)))])
       ∧ delayed_requests_ s' = delayed_requests_ s)
  ∧ (ts = timestamp mine → connection_id e < id s →
     ∃ s', OnReceiveRequest s i request
           = Some (s', [SendMessage i
                          (MsgReply (mkReply (timestamp_ s') (file_name mine)))])).
Proof.
  intros Hst Hreq He Hid request mine_first.
  assert (Hrun : OnReceiveRequest s i request =
    if (timestamp mine >? ts)
       || ((timestamp mine =? ts) && (id s >? connection_id e))
    then Some (bump ts s, [reply_to (bump ts s) i (file_name mine)])
    else Some (set_delayed (delayed_requests_ s ++ [mkDelayed i request])
                 (bump ts s), [])).
  { unfold OnReceiveRequest. rewrite He. simpl. rewrite Hst, Hreq. simpl.
    rewrite bool_decide_eq_true_2 by done. simpl. by destruct (_ || _). }
  rewrite Hrun. subst mine_first. repeat split.
  - intros Hlt.
    destruct (_ || _) eqn:Hc; [|by eexists].
    exfalso. apply orb_prop in Hc as [Hc | [Hc1 Hc2]%andb_prop]; lia.
  - intros Hge.
    destruct (_ || _) eqn:Hc; [by eexists|].
    exfalso. apply Hge. apply orb_false_elim in Hc as [Hc1 Hc2].
    apply andb_false_iff in Hc2. lia.
  - intros -> Hlow.
    destruct (_ || _) eqn:Hc; [by eexists|].
    exfalso. apply orb_false_elim in Hc as [Hc1 Hc2].
    apply andb_false_iff in Hc2. lia.
Qed.

(** Claim C4, as amended. On receiving [Reply{ts, filename}] from peer [P]
    while a request is outstanding, the engine sets the clock to
    [max(T, ts) + 1] (short of wrap-around), adds [filename] to its
    have-permission-for set for [P] and re-evaluates the entry condition,
    entering the critical section exactly when every peer's permission for
    the requested file is held; nothing else changes. *)
Theorem reply_updates_clock_and_permission s i e reply mine :
  network_ s !! i = Some e → my_request_ s = Some mine →
  0 ≤ timestamp_ s < size_t_max → 0 ≤ rep_timestamp reply < size_t_max →
  ∃ s' out, OnReceiveReply s i reply = Some (s', out)
    ∧ timestamp_ s' = Z.max (timestamp_ s) (rep_timestamp reply) + 1
    ∧ network_ s' !! i
      = Some (mkEntry (connection_id e)
                ({[ rep_file_name reply ]} ∪ have_permission_for e))
    ∧ (∀ k, k ≠ i → network_ s' !! k = network_ s !! k)
    ∧ id s' = id s
    ∧ my_request_ s' = my_request_ s
    ∧ delayed_requests_ s' = delayed_requests_ s
    ∧ ((∀ e', e' ∈ network_ s' → file_name mine ∈ have_permission_for e') →
         state_ s' = kInCriticalSection
         ∧ out = [PerformOperation (operation mine)])
    ∧ (¬ (∀ e', e' ∈ network_ s' → file_name mine ∈ have_permission_for e') →
         state_ s' = state_ s ∧ out = []).
Proof.
  intros He Hreq HT Hts. unfold OnReceiveReply. rewrite He. simpl.
  unfold CheckForMutualExclusion. simpl. rewrite Hreq. simpl.
  set (net' := alter _ i (network_ s)).
  assert (Hi : net' !! i = Some (mkEntry (connection_id e)
                 ({[ rep_file_name reply ]} ∪ have_permission_for e))).
  { subst net'. rewrite list_lookup_alter_eq, He. done. }
  assert (Hk : ∀ k, k ≠ i → net' !! k = network_ s !! k).
  { intros k Hne. subst net'. by rewrite list_lookup_alter_ne. }
  pose proof (bump_no_overflow s (rep_timestamp reply) HT Hts) as Hclock.
  unfold bump in Hclock. simpl in Hclock.
  destruct (forallb _ net') eqn:Hall.
  - eexists _, _. split; [reflexivity|]. simpl. split_and!; try done.
    intros Hnot. exfalso. apply Hnot. intros e' He'.
    rewrite forallb_forall in Hall. apply has_permission_true, Hall.
    by apply list_elem_of_In.
  - eexists _, _. split; [reflexivity|]. simpl. split_and!; try done.
    intros Hyes. exfalso.
    apply not_true_iff_false in Hall. apply Hall, forallb_forall.
    intros e' He'%list_elem_of_In. by apply has_permission_true, Hyes.
Qed.






End EngineClaims.

Section EngineExamples.
Import Mutex Network.

(** [entry_records_current_clock] at node 1 of three, right after start. *)
Lemma entry_records_current_clock_witness :
  state_ idle_node = kWaiting ∧ my_request_ idle_node = None
  ∧ ∃ s' out, RunWithMutualExclusion idle_node "f" 7%nat = Some (s', out)
      ∧ timestamp_ s' = timestamp_ idle_node
      ∧ my_request_ s' = Some (mkMine "f" 7%nat (timestamp_ idle_node))
      ∧ ∀ i m, SendMessage i m ∈ out →
          m = MsgRequest (mkRequest (timestamp_ idle_node) "f").
Proof.
  split; [reflexivity|]. split; [reflexivity|].
  apply (entry_records_current_clock idle_node "f" 7%nat); reflexivity.
Defined.

(** Claim C2 as stated fails: node 1, waiting with clock 0 and no
    outstanding request, calls [RunWithMutualExclusion("f", op)]. The
    clock is still 0 afterwards, not 1, the recorded request is stamped 0,
    and both Requests sent carry 0, which is not greater than the clock
    before the call. *)
Lemma entry_does_not_tick :
  state_ idle_node = kWaiting ∧ my_request_ idle_node = None
  ∧ timestamp_ idle_node = 0
  ∧ ∃ s' out, RunWithMutualExclusion idle_node "f" 7%nat = Some (s', out)
      ∧ timestamp_ s' ≠ timestamp_ idle_node + 1
      ∧ my_request_ s' ≠ Some (mkMine "f" 7%nat (timestamp_ idle_node + 1))
      ∧ out = [SendMessage 0 (MsgRequest (mkRequest 0 "f"));
               SendMessage 1 (MsgRequest (mkRequest 0 "f"))].
Proof.
  split; [reflexivity|]. split; [reflexivity|]. split; [reflexivity|].
  eexists _, _. split; [vm_compute; reflexivity|]. simpl.
  split; [discriminate|]. split; [discriminate | reflexivity].
Qed.

(** [same_file_priority] at nodes that request ["f"] with stamp 5. Node 1
    hears from the peer with id 2 about ["f"], first with the same stamp 5
    and then with the earlier stamp 3; node 3 hears from the peer with id 1
    with the same stamp 5. *)
Lemma same_file_priority_witness :
  (∃ s', OnReceiveRequest requesting_node 0 (mkRequest 5 "f") = Some (s', [])
     ∧ delayed_requests_ s' = [mkDelayed 0 (mkRequest 5 "f")])
  ∧ (∃ s', OnReceiveRequest requesting_node 0 (mkRequest 3 "f")
           = Some (s', [SendMessage 0 (MsgReply (mkReply (timestamp_ s') "f"))])
       ∧ delayed_requests_ s' = [])
  ∧ (∃ s', OnReceiveRequest requesting_node_3 0 (mkRequest 5 "f")
           = Some (s', [SendMessage 0 (MsgReply (mkReply (timestamp_ s') "f"))])).
Proof.
  split; [|split].
  - apply (same_file_priority requesting_node 0 (mkEntry 2 ∅)
             (mkMine "f" 0%nat 5) 5);
      [reflexivity | reflexivity | reflexivity | simpl; lia | simpl; lia].
  - apply (same_file_priority requesting_node 0 (mkEntry 2 ∅)
             (mkMine "f" 0%nat 5) 3);
      [reflexivity | reflexivity | reflexivity | simpl; lia | simpl; lia].
  - apply (same_file_priority requesting_node_3 0 (mkEntry 1 ∅)
             (mkMine "f" 0%nat 5) 5);
      [reflexivity | reflexivity | reflexivity | simpl; lia
      | reflexivity | simpl; lia].
Defined.

(** [reply_updates_clock_and_permission] at the same node when the Reply of
    the peer with id 2 arrives with stamp 9. *)
Lemma reply_updates_clock_and_permission_witness :
  ∃ s' out, OnReceiveReply requesting_node 0 (mkReply 9 "f") = Some (s', out)
    ∧ timestamp_ s' = Z.max 5 9 + 1
    ∧ network_ s' !! 0%nat = Some (mkEntry 2 ({[ "f" ]} ∪ ∅))
    ∧ (∀ k, k ≠ 0%nat → network_ s' !! k = network_ requesting_node !! k)
    ∧ id s' = 1
    ∧ my_request_ s' = Some (mkMine "f" 0%nat 5)
    ∧ delayed_requests_ s' = []
    ∧ ((∀ e', e' ∈ network_ s' → "f" ∈ have_permission_for e') →
         state_ s' = kInCriticalSection ∧ out = [PerformOperation 0%nat])
    ∧ (¬ (∀ e', e' ∈ network_ s' → "f" ∈ have_permission_for e') →
         state_ s' = kRequesting ∧ out = []).
Proof.
  apply (reply_updates_clock_and_permission requesting_node 0 (mkEntry 2 ∅)
           (mkReply 9 "f") (mkMine "f" 0%nat 5));
    [reflexivity | reflexivity | unfold size_t_max; simpl; lia
    | unfold size_t_max; simpl; lia].
Defined.

(** Claim C4 as stated fails: with clock [T = 5], a Reply stamped [ts = 0]
    moves the clock to 6, while [max(T, ts + 1)] is 5. *)
Lemma reply_clock_is_not_max_of_T_and_ts_plus_one :
  timestamp_ requesting_node = 5
  ∧ ∃ s' out, OnReceiveReply requesting_node 0 (mkReply 0 "f") = Some (s', out)
      ∧ timestamp_ s' = 6
      ∧ timestamp_ s' ≠ Z.max (timestamp_ requesting_node) (0 + 1).
Proof.
  split; [reflexivity|].
  eexists _, _. split; [vm_compute; reflexivity|]. simpl.
  split; [reflexivity | discriminate].
Qed.



(** A run of events is a path of the step relation. *)
Lemma run_rtc sys evs sys' : run sys evs = Some sys' → rtc step sys sys'.
Proof.
  revert sys. induction evs as [|ev rest IH]; intros sys; simpl.
  - intros [= ->]. apply rtc_refl.
  - destruct (do_event sys ev) as [sys1|] eqn:Hev; simpl; [|done].
    intros Hrest. eapply rtc_l; [by exists ev | by apply IH].
Qed.

(** Claim C1 fails on the code. With three nodes, the schedule [race] is a
    run of the step relation that ends with nodes 1 and 3 both in their
    critical section for the same file ["f"]: node 3 still holds node 1's
    permission from an earlier entry when it concedes to node 1's request,
    and the concession does not give the permission up. *)
Theorem mutual_exclusion_is_violated :
  ∃ sys, reachable [1; 2; 3] sys
    ∧ (1 : Z) ≠ 3
    ∧ in_critical_section sys 1 "f"
    ∧ in_critical_section sys 3 "f".
Proof.
  destruct (run (start [1; 2; 3]) race) as [sys|] eqn:Hrun;
    [|vm_compute in Hrun; discriminate].
  exists sys. split; [by eapply run_rtc|]. split; [done|].
  vm_compute in Hrun. injection Hrun as <-.
  split; eexists _, _; (split; [vm_compute; reflexivity|]); done.
Qed.

End EngineExamples.

(** ** Message framing *)

Section CodecClaims.
Import Proto AsyncMessageService.

(** A short frame survives the trip. *)
Example short_frame_round_trip :
  ∃ wire m', encode short_response = Some (ok wire)
    ∧ wire = ["003"; "003"; "000"; "000"; "000"; "a"; "b"; "c"]%byte
    ∧ decode [wire] = Some (ok m')
    ∧ opcode m' = kResponse
    ∧ Buffer.view_bytes (body m') = Buffer.view_bytes (body short_response).
Proof.
  eexists _, _. split; [vm_compute; reflexivity|]. split; [reflexivity|].
  split; [vm_compute; reflexivity|]. split; reflexivity.
Qed.

(** With 509 letters the frame still leaves room for the whole body after
    the write position of the input buffer, and the body comes back. *)
Example fitting_frame_round_trip :
  ∃ wire m', encode fitting_response = Some (ok wire)
    ∧ length wire = 514%nat
    ∧ decode [wire] = Some (ok m')
    ∧ opcode m' = kResponse
    ∧ Buffer.view_bytes (body m') = Buffer.view_bytes (body fitting_response).
Proof.
  eexists _, _. split; [vm_compute; reflexivity|]. split; [reflexivity|].
  split; [vm_compute; reflexivity|]. split; vm_compute; reflexivity.
Qed.

(** Claim C7 fails on the code. The Response with a body of 510 letters is
    encoded as the 515 bytes the claim describes, but when they arrive in
    one read the decoder hands back a body whose last byte is the opcode
    byte 3: [read_into] measures the first part of its copy by the room
    after the write position, 509 bytes here, and takes the rest from the
    start of the input buffer. *)
Theorem frame_round_trip_fails_at_510_bytes :
  ∃ wire m', encode long_response = Some (ok wire)
    ∧ wire = ["003"; "254"; "001"; "000"; "000"]%byte ++ replicate 510 "a"%byte
    ∧ decode [wire] = Some (ok m')
    ∧ opcode m' = opcode long_response
    ∧ Buffer.view_bytes (body long_response) = Some (replicate 510 "a"%byte)
    ∧ Buffer.view_bytes (body m')
      = Some (replicate 509 "a"%byte ++ ["003"%byte]).
Proof.
  eexists _, _. split; [vm_compute; reflexivity|]. split; [reflexivity|].
  split; [vm_compute; reflexivity|].
  split; [reflexivity|]. split; vm_compute; reflexivity.
Qed.

(** Claim C10 fails on the code. The file name ["a\r"] holds no delimiter,
    yet the Write message made from it and the line ["b"] decodes to the
    file name ["a\r\r\nb"] and an empty line: after a carriage return that
    is not followed by a line feed, [get_until] does not look at that next
    byte as the possible start of the delimiter. A file name that does hold
    the delimiter is cut at it, as the claim says. *)
Theorem write_round_trip_fails_after_carriage_return :
  index 0 (cr +:+ lf) ("a" +:+ cr) = None
  ∧ (m ← WriteMessage_ToMessage (mkWrite ("a" +:+ cr) "b"); ToWrite m)
    = Some (ok (mkWrite ("a" +:+ cr +:+ cr +:+ lf +:+ "b") ""))
  ∧ (m ← WriteMessage_ToMessage (mkWrite ("a" +:+ cr +:+ lf +:+ "b") "c"); ToWrite m)
    = Some (ok (mkWrite "a" ("b" +:+ cr +:+ lf +:+ "c"))).
Proof. split; [reflexivity|]. split; vm_compute; reflexivity. Qed.

(** A line of 512 letters comes back with its last three bytes replaced by
    the start of the body: [to_string] reads through [read_into]. *)
Example write_round_trip_long_line :
  (m ← WriteMessage_ToMessage
         (mkWrite "a" (string_of_list_byte (replicate 512 "b"%byte)));
   ToWrite m)
  = Some (ok (mkWrite "a"
                (string_of_list_byte (replicate 509 "b"%byte)
                 +:+ "a" +:+ cr +:+ lf))).
Proof. vm_compute; reflexivity. Qed.

(** Plain names and lines do come back as they were sent. *)
Example write_round_trip_plain :
  (m ← WriteMessage_ToMessage (mkWrite "file.txt" "(1, 7)"); ToWrite m)
  = Some (ok (mkWrite "file.txt" "(1, 7)")).
Proof. vm_compute; reflexivity. Qed.

End CodecClaims.

(** ** The file service *)

Section FileClaims.
Import FileService Project2Service.

(** The path check lets direct children of the root through and nothing
    else. *)
Example outside_root_examples :
  outside_root sample_root "a.txt" = false
  ∧ outside_root sample_root "../etc/passwd" = true
  ∧ outside_root sample_root "a/b" = true
  ∧ outside_root sample_root "/etc/passwd" = true
  ∧ outside_root sample_root "" = true.
Proof. repeat split; vm_compute; reflexivity. Qed.

(** A single line that ends in a newline is not found either, and after
    two newlines at the end the line before them is returned. *)
Example last_line_of_more_contents :
  last_line_of ("abc" +:+ nl) = ""
  ∧ last_line_of ("x" +:+ nl +:+ "a" +:+ nl +:+ nl) = "a"
  ∧ last_line_of ("a" +:+ nl +:+ "b") = "b".
Proof. repeat split; vm_compute; reflexivity. Qed.

(** Claim C8 fails on the code. For a file that holds ["abc"], a single line
    without a newline, [ReadLastLine] returns the empty string: the backward
    search runs into the start of the file, the failed seek leaves the stream
    in the failed state, and [std::getline] then reads nothing. The other
    cases the claim names come out as it says. *)
Theorem ReadLastLine_of_single_line_is_empty :
  last_line_of "abc" = ""
  ∧ ReadLastLine (mkFileSystem {[ "/srv/files/a.txt" := "abc" ]} ∅)
      sample_root "a.txt" = ok ""
  ∧ last_line_of ("a" +:+ nl +:+ "b" +:+ nl) = "b"
  ∧ last_line_of "" = ""
  ∧ last_line_of nl = "".
Proof. repeat split; vm_compute; reflexivity. Qed.

(** Claim C9 fails on the code. [AppendLine] has the path check but not the
    test for a leading dot that [ReadLastLine] makes: the Write for the
    hidden name [".hidden"] is appended below the root and answered with Ok,
    while a Read for the same name is refused. A name that leaves the root
    is refused and nothing is written. *)
Theorem AppendLine_accepts_hidden_name :
  hidden ".hidden" = true
  ∧ (∃ fs', HandleWrite empty_fs sample_root (Proto.mkWrite ".hidden" "x")
            = (OkMessage, AwaitMessage, fs')
       ∧ files fs' !! "/srv/files/.hidden" = Some ("x" +:+ nl))
  ∧ HandleRead empty_fs sample_root ".hidden"
    = (ErrorMessage "Invalid file access", Stop)
  ∧ HandleWrite empty_fs sample_root (Proto.mkWrite "../x" "x")
    = (ErrorMessage "Invalid file access", Stop, empty_fs).
Proof.
  split; [reflexivity|]. split.
  - eexists. split; [vm_compute; reflexivity|]. vm_compute; reflexivity.
  - split; vm_compute; reflexivity.
Qed.

End FileClaims.

(** ** Paths: the loops over a path's names end within their fuel *)

Section PathFacts.
Import Path.
Local Open Scope nat_scope.

Lemma length_substring s : ∀ n m,
  String.length (substring n m s) = Nat.min m (String.length s - n).
Proof.
  induction s as [|c s IH]; intros n m; simpl.
  - destruct n, m; simpl; lia.
  - destruct n as [|n]; simpl.
    + destruct m as [|m]; simpl; [done|]. rewrite IH. lia.
    + apply IH.
Qed.

Lemma length_suffix i s : String.length (suffix i s) = String.length s - i.
Proof. unfold suffix. rewrite length_substring. lia. Qed.

Lemma index_of_separator_le s : index_of_separator s ≤ String.length s.
Proof. induction s as [|c s IH]; simpl; [done|]. destruct (is_sep c); lia. Qed.

Lemma count_separators_le s : count_separators s ≤ String.length s.
Proof. induction s as [|c s IH]; simpl; [done|]. destruct (is_sep c); lia. Qed.

Lemma find_bounds p it :
  it ≤ String.length p → it ≤ find p it ≤ String.length p.
Proof.
  intros Hit. unfold find.
  pose proof (index_of_separator_le (suffix it p)) as Hle.
  rewrite length_suffix in Hle. lia.
Qed.

Lemma increment_bounds p pos :
  pos < String.length p → pos < increment p pos ≤ String.length p.
Proof.
  intros Hpos. unfold increment.
  destruct (Nat.eqb_spec pos (String.length p)) as [->|_]; [lia|].
  pose proof (find_bounds p (S pos) Hpos) as Hfind.
  pose proof (count_separators_le (suffix (S pos) p)) as Hcount.
  rewrite length_suffix in Hcount.
  destruct (is_sep (char_at p pos)).
  - destruct (Nat.eqb_spec (S pos) (String.length p)) as [Heq|Hne]; simpl; [lia|].
    destruct (is_sep (char_at p (S pos))); [|lia].
    destruct (pos =? 0); lia.
  - destruct (Nat.eqb_spec (S pos) (String.length p)) as [Heq|Hne];
      rewrite ?andb_false_r; simpl; [lia|].
    destruct (_ && _); lia.
Qed.

Lemma skip_separators_bounds fuel p it :
  it ≤ String.length p → it ≤ skip_separators fuel p it ≤ String.length p.
Proof.
  revert it. induction fuel as [|fuel IH]; intros it Hit; simpl; [lia|].
  destruct (Nat.eqb_spec it (String.length p)) as [Heq|Hne]; simpl; [lia|].
  destruct (negb _ && _ && _); [|lia].
  specialize (IH (S it)). lia.
Qed.

Lemma next_bounds p it :
  iter_ it < String.length p →
  iter_ it < iter_ (next p it) ≤ String.length p.
Proof.
  intros Hit. unfold next. simpl.
  pose proof (increment_bounds p (iter_ it) Hit) as Hinc.
  pose proof (skip_separators_bounds (String.length p) p
                (increment p (iter_ it))) as Hskip.
  lia.
Qed.

(** More fuel than the distance to the end changes nothing. *)
Lemma names_from_fuel p fuel1 : ∀ fuel2 it,
  iter_ it ≤ String.length p →
  String.length p - iter_ it ≤ fuel1 → String.length p - iter_ it ≤ fuel2 →
  names_from fuel1 p it = names_from fuel2 p it.
Proof.
  induction fuel1 as [|fuel1 IH]; intros fuel2 it Hle H1 H2.
  - assert (iter_ it = String.length p) as Heq by lia.
    destruct fuel2; simpl; [done|]. by rewrite Heq, Nat.eqb_refl.
  - simpl. destruct (Nat.eqb_spec (iter_ it) (String.length p)) as [Heq|Hne].
    + destruct fuel2; simpl; [done|]. by rewrite Heq, Nat.eqb_refl.
    + destruct fuel2 as [|fuel2]; [lia|]. simpl.
      destruct (Nat.eqb_spec (iter_ it) (String.length p)) as [|_]; [done|].
      pose proof (next_bounds p it) as Hnext.
      f_equal. apply IH; lia.
Qed.

Lemma names_fuel p extra :
  names_from (String.length p + extra) p (begin_ p) = names p.
Proof. unfold names. apply names_from_fuel; simpl; lia. Qed.

End PathFacts.

(** ** The engine, handler by handler *)

Section EngineRuns.
Import Mutex.
Context {Op : Type}.
Implicit Types (s : Service Op) (f : string).

(** What [OnReceiveRequest] leaves alone. *)
Lemma OnReceiveRequest_frame s i request s' out :
  OnReceiveRequest s i request = Some (s', out) →
  (i < length (network_ s))%nat
  ∧ state_ s' = state_ s ∧ my_request_ s' = my_request_ s ∧ id s' = id s
  ∧ length (network_ s') = length (network_ s)
  ∧ (delayed_requests_ s' = delayed_requests_ s
     ∨ (state_ s ≠ kWaiting
        ∧ delayed_requests_ s' = delayed_requests_ s ++ [mkDelayed i request])).
Proof.
  unfold OnReceiveRequest.
  destruct (network_ s !! i) as [e|] eqn:He; simpl; [|done].
  apply lookup_lt_Some in He. intros Hrun.
  destruct (state_ s) eqn:Hst; simpl in Hrun.
  - injection Hrun as <- _. simpl. rewrite length_alter. split_and!; auto.
  - destruct (my_request_ s) as [mine|] eqn:Hmine; simpl in Hrun; [|done].
    destruct (negb _); [|destruct (_ || _)]; injection Hrun as <- _; simpl;
      rewrite ?length_alter; split_and!; try done; try (by left); by right.
  - injection Hrun as <- _. simpl. split_and!; try done. by right.
Qed.


(** [CheckForMutualExclusion] touches the state alone, and only moves it into
    the critical section. *)
Lemma CheckForMutualExclusion_frame s s' out :
  CheckForMutualExclusion s = Some (s', out) →
  is_Some (my_request_ s)
  ∧ my_request_ s' = my_request_ s ∧ network_ s' = network_ s
  ∧ delayed_requests_ s' = delayed_requests_ s ∧ timestamp_ s' = timestamp_ s
  ∧ (state_ s' = state_ s ∨ state_ s' = kInCriticalSection).
Proof.
  unfold CheckForMutualExclusion.
  destruct (my_request_ s) as [mine|] eqn:Hmine; simpl; [|done].
  destruct (forallb _ _); intros [= <- <-]; simpl; split_and!; eauto.
Qed.

(** The loop of [DeliverDelayedRequests] in an engine that is waiting: every
    deferred request is answered, in the order of the queue, and the
    permission asked for is given up. *)
Lemma DeliverDelayedRequests_answers fuel : ∀ s,
  state_ s = kWaiting →
  Forall (λ d, (entry d < length (network_ s))%nat) (delayed_requests_ s) →
  (length (delayed_requests_ s) ≤ fuel)%nat →
  ∃ s' out, DeliverDelayedRequests fuel s = Some (s', out)
    ∧ state_ s' = kWaiting ∧ my_request_ s' = my_request_ s
    ∧ delayed_requests_ s' = []
    ∧ length (network_ s') = length (network_ s)
    ∧ (∀ k e', network_ s' !! k = Some e' →
         ∃ e, network_ s !! k = Some e
              ∧ connection_id e' = connection_id e
              ∧ have_permission_for e' ⊆ have_permission_for e)
    ∧ Forall2 (λ d eff, ∃ t,
         eff = SendMessage (entry d)
                 (MsgReply (mkReply t (req_file_name (request d)))))
        (delayed_requests_ s) out
    ∧ Forall (λ d, ∀ e', network_ s' !! entry d = Some e' →
                req_file_name (request d) ∉ have_permission_for e')
        (delayed_requests_ s).
Proof.
  induction fuel as [|fuel IH]; intros s Hst Hvalid Hfuel.
  - destruct (delayed_requests_ s) eqn:Hd; simpl in Hfuel; [|lia].
    simpl. rewrite Hd. eexists _, _. split; [reflexivity|].
    split_and!; auto. intros k e' He'. exists e'. split_and!; auto.
  - simpl. destruct (delayed_requests_ s) as [|next rest] eqn:Hd.
    { eexists _, _. split; [reflexivity|]. rewrite ?Hd.
      split_and!; auto. intros k e' He'. exists e'. split_and!; auto. }
    apply Forall_cons in Hvalid as [Hnext Hrest].
    apply lookup_lt_is_Some_2 in Hnext as [e He].
    unfold OnReceiveRequest. rewrite He. simpl. rewrite Hst. simpl.
    rewrite ?Hd. simpl.
    set (s1 := set_delayed rest _).
    destruct (IH s1) as (s2 & out2 & Hrun & Hst2 & Hreq2 & Hd2 & Hlen2 & Hnet2
                          & Hout2 & Hgone2).
    + done.
    + simpl. by rewrite length_alter.
    + simpl in *. lia.
    + rewrite Hrun. simpl. eexists _, _. split; [reflexivity|].
      assert (Hs1 : ∀ k e1, network_ s1 !! k = Some e1 →
                ∃ e0, network_ s !! k = Some e0
                  ∧ connection_id e1 = connection_id e0
                  ∧ have_permission_for e1 ⊆ have_permission_for e0).
      { intros k e1. simpl. destruct (decide (k = entry next)) as [->|Hne].
        - rewrite list_lookup_alter_eq, He. simpl. intros [= <-]. exists e.
          simpl. split_and!; auto. apply subseteq_difference_l. done.
        - rewrite list_lookup_alter_ne by done. intros He1. exists e1.
          split_and!; auto. }
      split_and!; auto.
      * simpl in Hlen2. by rewrite length_alter in Hlen2.
      * intros k e' He'. destruct (Hnet2 k e' He') as (e1 & He1 & Hid1 & Hsub1).
        destruct (Hs1 k e1 He1) as (e0 & He0 & Hid0 & Hsub0).
        exists e0. split_and!; [done|congruence|set_solver].
      * constructor; [|done]. by eexists.
      * constructor; [|done].
        intros e' He'. destruct (Hnet2 _ _ He') as (e1 & He1 & _ & Hsub1).
        simpl in He1. rewrite list_lookup_alter_eq, He in He1. simpl in He1.
        injection He1 as <-. simpl in Hsub1.
        intros Hin. apply Hsub1 in Hin.
        apply elem_of_difference in Hin as [_ Hn]. apply Hn.
        by apply elem_of_singleton.
Qed.

(** X1. Each handler, run from start to end without another handler in
    between, keeps the engine's fields in step: when a request is recorded
    exactly while the state is not [kWaiting], requests are deferred only
    then and every deferred request came from an entry of [network_], the
    same holds after a message was handled, after a call of
    [RunWithMutualExclusion] and after a release, and [network_] keeps its
    entries. *)
Theorem handlers_keep_the_engine_consistent s s' out :
  engine_invariant s →
  (∃ i m, OnReceiveMessage s i m = Some (s', out))
  ∨ (∃ f op, RunWithMutualExclusion s f op = Some (s', out))
  ∨ ReleaseMutualExclusion s = Some (s', out) →
  engine_invariant s' ∧ length (network_ s') = length (network_ s).
Proof.
  intros (Hreq & Hidle & Hvalid) [(i & m & Hrun)|[(f & op & Hrun)|Hrun]].
  - destruct m as [msg|reply|request|]; simpl in Hrun.
    + injection Hrun as <- _. done.
    + unfold OnReceiveReply in Hrun.
      destruct (network_ s !! i) as [e|]; simpl in Hrun; [|done].
      apply CheckForMutualExclusion_frame in Hrun
        as ([mine Hmine] & Hreq' & Hnet' & Hd' & _ & Hst').
      simpl in *. unfold engine_invariant.
      rewrite Hreq', Hnet', Hd', length_alter.
      assert (state_ s ≠ kWaiting) as Hbusy.
      { intros Hw. apply Hreq in Hw. congruence. }
      split; [|done]. split_and!.
      * split; [intros Hw|intros Hn; congruence].
        destruct Hst' as [Hst'|Hst']; congruence.
      * intros Hw. destruct Hst' as [Hst'|Hst']; congruence.
      * done.
    + apply OnReceiveRequest_frame in Hrun
        as (Hi & Hst' & Hreq' & _ & Hlen' & Hd').
      unfold engine_invariant. rewrite Hst', Hreq', Hlen'.
      split; [|done]. split_and!; [done| |].
      * intros Hw. destruct Hd' as [->|[Hbusy _]]; auto. done.
      * destruct Hd' as [->|[_ ->]]; [done|].
        apply Forall_app. split; [done|]. by constructor.
    + injection Hrun as <- _. done.
  - unfold RunWithMutualExclusion in Hrun.
    destruct (_ || _); [by injection Hrun as <- _|].
    simpl in Hrun.
    destruct (CheckForMutualExclusion _) as [[s2 out2]|] eqn:Hcheck;
      simpl in Hrun; [|done].
    injection Hrun as <- _.
    apply CheckForMutualExclusion_frame in Hcheck
      as (_ & Hreq' & Hnet' & Hd' & _ & Hst').
    simpl in *. unfold engine_invariant. rewrite Hreq', Hnet', Hd'.
    split; [|done]. split_and!.
    * split; [intros Hw|done]. destruct Hst' as [Hst'|Hst']; congruence.
    * intros Hw. destruct Hst' as [Hst'|Hst']; congruence.
    * done.
  - unfold ReleaseMutualExclusion in Hrun.
    destruct (DeliverDelayedRequests_answers
                (length (delayed_requests_ s)) (set_state kWaiting (set_my_request None s)))
      as (s2 & out2 & Hrun2 & Hst2 & Hreq2 & Hd2 & Hlen2 & _); [done..|].
    simpl in *. rewrite Hrun2 in Hrun. injection Hrun as <- _.
    unfold engine_invariant. rewrite Hst2, Hreq2, Hd2. done.
Qed.

(** [CheckForMutualExclusion] moves into the critical section only with
    every permission, and performs the operation then. *)
Lemma CheckForMutualExclusion_enters s s' out :
  CheckForMutualExclusion s = Some (s', out) →
  state_ s ≠ kInCriticalSection → state_ s' = kInCriticalSection →
  ∃ mine, my_request_ s' = Some mine
    ∧ Forall (λ e, file_name mine ∈ have_permission_for e) (network_ s')
    ∧ out = [PerformOperation (operation mine)].
Proof.
  unfold CheckForMutualExclusion.
  destruct (my_request_ s) as [mine|] eqn:Hmine; simpl; [|done].
  destruct (forallb _ _) eqn:Hall; intros [= <- <-] Hout Hin; [|done].
  exists mine. simpl. split_and!; [done| |done].
  rewrite forallb_forall in Hall. apply Forall_forall.
  intros e He%list_elem_of_In. by apply has_permission_true, Hall.
Qed.

(** X2. The critical section is entered with every permission. When a
    handler, run without another handler in between, moves the engine into
    [kInCriticalSection], by a message handled or by a call of
    [RunWithMutualExclusion], then at its end the engine holds the
    permission of every peer for the file of its request, and the handler
    has performed the operation of that request. *)
Theorem critical_section_is_entered_with_every_permission s s' out :
  state_ s ≠ kInCriticalSection →
  (∃ i m, OnReceiveMessage s i m = Some (s', out))
  ∨ (∃ f op, RunWithMutualExclusion s f op = Some (s', out)) →
  state_ s' = kInCriticalSection →
  ∃ mine, my_request_ s' = Some mine
    ∧ Forall (λ e, file_name mine ∈ have_permission_for e) (network_ s')
    ∧ PerformOperation (operation mine) ∈ out.
Proof.
  intros Hout [(i & m & Hrun)|(f & op & Hrun)] Hin.
  - destruct m as [msg|reply|request|]; simpl in Hrun.
    + injection Hrun as <- _. done.
    + unfold OnReceiveReply in Hrun.
      destruct (network_ s !! i) as [e|]; simpl in Hrun; [|done].
      destruct (CheckForMutualExclusion_enters _ _ _ Hrun Hout Hin)
        as (mine & Hmine & Hall & ->).
      exists mine. split_and!; [done..|]. by left.
    + apply OnReceiveRequest_frame in Hrun as (_ & Hst' & _). congruence.
    + injection Hrun as <- _. done.
  - unfold RunWithMutualExclusion in Hrun.
    destruct (_ || _); [injection Hrun as <- _; done|].
    simpl in Hrun.
    destruct (CheckForMutualExclusion _) as [[s2 out2]|] eqn:Hcheck;
      simpl in Hrun; [|done].
    injection Hrun as <- <-.
    destruct (CheckForMutualExclusion_enters _ _ _ Hcheck) as (mine & Hmine & Hall & ->);
      [done|done|].
    exists mine. split_and!; [done..|]. apply elem_of_app. right. by left.
Qed.


(** X5. While an operation is in progress a further
    [RunWithMutualExclusion] is refused: after any call, the next call,
    whatever its file, fails its operation with "Operation already in
    progress", sends nothing and changes nothing. *)
Theorem second_request_is_refused s f op s1 out1 g op2 :
  RunWithMutualExclusion s f op = Some (s1, out1) →
  RunWithMutualExclusion s1 g op2
  = Some (s1, [FailOperation op2 "Operation already in progress"]).
Proof.
  intros Hrun.
  enough (bool_decide (is_Some (my_request_ s1))
          || negb (bool_decide (state_ s1 = kWaiting)) = true) as Hbusy.
  { unfold RunWithMutualExclusion at 1. by rewrite Hbusy. }
  unfold RunWithMutualExclusion in Hrun.
  destruct (_ || _) eqn:Hb; [by injection Hrun as <- _|].
  simpl in Hrun.
  destruct (CheckForMutualExclusion _) as [[s2 out2]|] eqn:Hcheck;
    simpl in Hrun; [|done].
  injection Hrun as <- _.
  apply CheckForMutualExclusion_frame in Hcheck as (_ & -> & _).
  done.
Qed.

(** The clock after a Request was handled, whatever the branch taken. *)
Lemma OnReceiveRequest_clock s i request s' out :
  OnReceiveRequest s i request = Some (s', out) →
  timestamp_ s' = timestamp_ (bump (req_timestamp request) s).
Proof.
  unfold OnReceiveRequest.
  destruct (network_ s !! i) as [e|]; simpl; [|done]. intros Hrun.
  destruct (state_ s); simpl in Hrun.
  - by injection Hrun as <- _.
  - destruct (my_request_ s) as [mine|]; simpl in Hrun; [|done].
    destruct (negb _); [|destruct (_ || _)]; by injection Hrun as <- _.
  - by injection Hrun as <- _.
Qed.

Lemma OnReceiveMessage_clock s i m s' out B :
  OnReceiveMessage s i m = Some (s', out) →
  0 ≤ timestamp_ s ≤ B → (∀ ts, stamp m = Some ts → 0 ≤ ts ≤ B) →
  B < size_t_max →
  timestamp_ s ≤ timestamp_ s' ≤ B + 1
  ∧ ∀ ts, stamp m = Some ts → ts < timestamp_ s'.
Proof.
  intros Hrun HT Hts HB.
  destruct m as [msg|reply|request|]; simpl in Hrun, Hts.
  - injection Hrun as <- _. split; [lia|done].
  - unfold OnReceiveReply in Hrun.
    destruct (network_ s !! i) as [e|]; simpl in Hrun; [|done].
    apply CheckForMutualExclusion_frame in Hrun as (_ & _ & _ & _ & -> & _).
    specialize (Hts _ eq_refl).
    pose proof (bump_no_overflow s (rep_timestamp reply)) as Hb.
    unfold bump in Hb. simpl in *. rewrite Hb by lia.
    split; [lia|]. intros ts [= <-]. lia.
  - apply OnReceiveRequest_clock in Hrun as ->.
    specialize (Hts _ eq_refl).
    rewrite bump_no_overflow by lia.
    split; [lia|]. intros ts [= <-]. lia.
  - injection Hrun as <- _. split; [lia|done].
Qed.

(** X6. Short of wrap-around, handling messages never moves the Lamport
    clock backwards, and after a run of messages the clock is above the
    stamp of every Request and Reply in it. *)
Theorem clock_exceeds_received_stamps msgs : ∀ s s' out B,
  receive_all s msgs = Some (s', out) →
  0 ≤ timestamp_ s ≤ B →
  (∀ i m ts, (i, m) ∈ msgs → stamp m = Some ts → 0 ≤ ts ≤ B) →
  B + Z.of_nat (length msgs) ≤ size_t_max →
  timestamp_ s ≤ timestamp_ s' ≤ B + Z.of_nat (length msgs)
  ∧ ∀ i m ts, (i, m) ∈ msgs → stamp m = Some ts → ts < timestamp_ s'.
Proof.
  induction msgs as [|[i m] rest IH]; intros s s' out B Hrun HT Hts HB.
  - simpl in *. injection Hrun as <- _. split; [lia|].
    by intros i m ts ?%elem_of_nil.
  - simpl in Hrun.
    destruct (OnReceiveMessage s i m) as [[s1 out1]|] eqn:Hone;
      simpl in Hrun; [|done].
    destruct (receive_all s1 rest) as [[s2 out2]|] eqn:Hrest;
      simpl in Hrun; [|done].
    injection Hrun as <- _.
    rewrite length_cons, Nat2Z.inj_succ in *.
    destruct (OnReceiveMessage_clock s i m s1 out1 B Hone HT) as [HT1 Hts1].
    { intros ts. apply (Hts i). left. }
    { unfold size_t_max in *. lia. }
    destruct (IH s1 s2 out2 (B + 1) Hrest) as [HT2 Hts2].
    { lia. }
    { intros i' m' ts Hin Hst.
      assert (0 ≤ ts ≤ B); [|lia]. apply (Hts i' m'); [by right|done]. }
    { lia. }
    split; [lia|].
    intros i' m' ts [[= -> ->] | Hin]%elem_of_cons Hst.
    + specialize (Hts1 _ Hst). lia.
    + by eapply Hts2.
Qed.


(** X8. A permission given away is asked for again: after a waiting engine
    has answered a peer's Request for a file, its own next
    [RunWithMutualExclusion] for that file sends that peer a Request and the
    engine has to wait for the Reply. *)
Theorem permission_given_away_is_asked_back s i request s1 out1 op :
  state_ s = kWaiting → my_request_ s = None →
  OnReceiveRequest s i request = Some (s1, out1) →
  let F := req_file_name request in
  ∃ s2 out2, RunWithMutualExclusion s1 F op = Some (s2, out2)
    ∧ state_ s2 = kRequesting
    ∧ SendMessage i (MsgRequest (mkRequest (timestamp_ s1) F)) ∈ out2.
Proof.
  intros Hst Hreq Hrun F. subst F.
  unfold OnReceiveRequest in Hrun.
  destruct (network_ s !! i) as [e|] eqn:He; simpl in Hrun; [|done].
  rewrite Hst in Hrun. simpl in Hrun. injection Hrun as <- _.
  unfold RunWithMutualExclusion. simpl. rewrite Hreq, Hst. simpl.
  unfold CheckForMutualExclusion. simpl.
  set (net := alter _ i (network_ s)).
  assert (Hi : net !! i = Some (erase_permission (req_file_name request) e)).
  { subst net. by rewrite list_lookup_alter_eq, He. }
  assert (Hn : req_file_name request
               ∉ have_permission_for (erase_permission (req_file_name request) e)).
  { simpl. intros [_ Hn]%elem_of_difference. apply Hn. by apply elem_of_singleton. }
  destruct (forallb _ net) eqn:Hall.
  { exfalso. rewrite forallb_forall in Hall.
    apply list_elem_of_lookup_2, list_elem_of_In, Hall, has_permission_true in Hi.
    done. }
  eexists _, _. split; [reflexivity|]. split; [done|].
  rewrite app_nil_r. apply elem_of_send_requests. simpl.
  split; [done|]. split; [lia|]. eexists. rewrite Nat.sub_0_r. split; [exact Hi|done].
Qed.

End EngineRuns.

Section EngineRunExamples.
Import Mutex Network.

Lemma handlers_keep_the_engine_consistent_witness :
  let s' := mkService 1 [mkEntry 2 {[ "f" ]}; mkEntry 3 {[ "f" ]}] 3
              kInCriticalSection (Some (mkMine "f" 7%nat 3)) [] in
  engine_invariant s' ∧ length (network_ s') = length (network_ retaining_node).
Proof.
  intros s'.
  apply (handlers_keep_the_engine_consistent retaining_node s' [PerformOperation 7%nat]).
  - unfold engine_invariant. simpl. split_and!; [split; reflexivity|reflexivity|constructor].
  - right. left. exists "f", 7%nat. vm_compute. reflexivity.
Defined.

Lemma critical_section_is_entered_with_every_permission_witness :
  let s' := mkService 1 [mkEntry 2 {[ "f" ]}; mkEntry 3 {[ "f" ]}] 3
              kInCriticalSection (Some (mkMine "f" 7%nat 3)) [] in
  ∃ mine, my_request_ s' = Some mine
    ∧ Forall (λ e, file_name mine ∈ have_permission_for e) (network_ s')
    ∧ PerformOperation (operation mine) ∈ [PerformOperation 7%nat].
Proof.
  intros s'.
  apply (critical_section_is_entered_with_every_permission retaining_node s').
  - discriminate.
  - right. exists "f", 7%nat. vm_compute. reflexivity.
  - reflexivity.
Defined.


Lemma second_request_is_refused_witness :
  RunWithMutualExclusion
    (mkService 1 [mkEntry 2 ∅; mkEntry 3 ∅] 0 kRequesting
       (Some (mkMine "f" 1%nat 0)) []) "g" 2%nat
  = Some (mkService 1 [mkEntry 2 ∅; mkEntry 3 ∅] 0 kRequesting
            (Some (mkMine "f" 1%nat 0)) [],
          [FailOperation 2%nat "Operation already in progress"]).
Proof.
  eapply (second_request_is_refused idle_node "f" 1%nat).
  vm_compute. reflexivity.
Defined.

Lemma clock_exceeds_received_stamps_witness :
  let msgs := [(0%nat, MsgRequest (mkRequest 4 "x"));
               (1%nat, MsgRequest (mkRequest 2 "y"))] in
  let s' := mkService 1 [mkEntry 2 (∅ ∖ {[ "x" ]}); mkEntry 3 (∅ ∖ {[ "y" ]})] 6
              kWaiting (None : option (MutualExclusionRequest nat)) [] in
  timestamp_ idle_node ≤ timestamp_ s' ≤ 4 + Z.of_nat (length msgs)
  ∧ ∀ i m ts, (i, m) ∈ msgs → stamp m = Some ts → ts < timestamp_ s'.
Proof.
  intros msgs s'.
  eapply (clock_exceeds_received_stamps msgs idle_node s').
  - vm_compute. reflexivity.
  - simpl. lia.
  - intros i m ts Hin Hst. subst msgs.
    apply elem_of_cons in Hin as [[= -> ->] | Hin].
    { injection Hst as <-. lia. }
    apply list_elem_of_singleton in Hin as [= -> ->].
    injection Hst as <-. lia.
  - vm_compute. discriminate.
Defined.


Lemma permission_given_away_is_asked_back_witness :
  let s1 := mkService 1 [mkEntry 2 (∅ ∖ {[ "x" ]}); mkEntry 3 ∅] 5
              kWaiting (None : option (MutualExclusionRequest nat)) [] in
  ∃ s2 out2, RunWithMutualExclusion s1 "x" 9%nat = Some (s2, out2)
    ∧ state_ s2 = kRequesting
    ∧ SendMessage 0 (MsgRequest (mkRequest (timestamp_ s1) "x")) ∈ out2.
Proof.
  intros s1.
  eapply (permission_given_away_is_asked_back idle_node 0 (mkRequest 4 "x") s1);
    [reflexivity|reflexivity|].
  vm_compute. reflexivity.
Defined.

End EngineRunExamples.

(** ** The circular buffer while its bytes lie in one piece *)

(** Decides the comparisons in the goal that the hypotheses settle. *)
Ltac n_tests :=
  repeat match goal with
  | |- context [(?a <? ?b)%N] =>
      first [ destruct (N.ltb_spec a b); [exfalso; lia|]
            | destruct (N.ltb_spec a b); [|exfalso; lia] ]
  | |- context [(?a <=? ?b)%N] =>
      first [ destruct (N.leb_spec a b); [exfalso; lia|]
            | destruct (N.leb_spec a b); [|exfalso; lia] ]
  | |- context [(?a =? ?b)%N] =>
      first [ destruct (N.eqb_spec a b); [exfalso; lia|]
            | destruct (N.eqb_spec a b); [|exfalso; lia] ]
  end; simpl.

Section BufferFacts.
Import Buffer.
Local Open Scope N_scope.
Implicit Types (b : buffer) (c d : list byte).

Lemma holds_size b c : holds b c → size b = N.of_nat (length c).
Proof.
  intros (Hfull & Hlen & Hrw & Hw & Hc). unfold size. rewrite Hfull. n_tests. lia.
Qed.

Lemma holds_empty b c : holds b c → empty b = bool_decide (c = []).
Proof.
  intros (Hfull & Hlen & Hrw & Hw & Hc). unfold empty. rewrite Hfull. simpl.
  destruct c as [|x c]; simpl in *; by n_tests.
Qed.

Lemma holds_fresh : holds fresh [].
Proof. unfold holds. simpl. split_and!; try done. Qed.

(** Memory after [d] was copied to position [w], right behind [c]. *)
Lemma length_written (mem : list byte) w d :
  (w + length d ≤ length mem)%nat →
  length (take w mem ++ d ++ drop (w + length d) mem) = length mem.
Proof. intros H. rewrite !length_app, length_take, length_drop. lia. Qed.

Lemma take_written (mem : list byte) r w c d :
  (r + length c = w)%nat → (w + length d ≤ length mem)%nat →
  take (length c) (drop r mem) = c →
  take (length (c ++ d)) (drop r (take w mem ++ d ++ drop (w + length d) mem))
  = c ++ d.
Proof.
  intros Hrw Hw Hc.
  rewrite drop_app_le by (rewrite length_take; lia).
  assert (drop r (take w mem) = c) as ->.
  { rewrite <- Hc at 1. rewrite take_drop_commute. f_equal. f_equal. lia. }
  rewrite app_assoc, length_app.
  rewrite take_app_le by (rewrite length_app; lia).
  apply take_ge. rewrite length_app. lia.
Qed.

(** Copying [d] to the write position and advancing it, as [put] and a
    [reserve] followed by [commit] do. *)
Lemma write_then_advance b c d :
  holds b c → N.of_nat (length d) < capacity_ b - write_ b →
  ∃ b', memcpy_to (data_ b) (write_ b) d
          ≫= (λ mem, advance_write (N.of_nat (length d)) (set_data mem b))
        = Some b'
    ∧ holds b' (c ++ d) ∧ capacity_ b' = capacity_ b ∧ read_ b' = read_ b.
Proof.
  intros Hb Hd. pose proof (holds_size b c Hb) as Hsize.
  destruct Hb as (Hfull & Hlen & Hrw & Hw & Hc).
  unfold memcpy_to.
  destruct (N.leb_spec (write_ b + N.of_nat (length d)) (N.of_nat (length (data_ b))));
    [|lia]. simpl.
  unfold advance_write, space_remaining, size. simpl. rewrite Hfull. simpl.
  destruct (N.eqb_spec (N.of_nat (length d)) 0) as [Hz|Hnz].
  - destruct d; [|simpl in Hz; lia]. simpl.
    rewrite Nat.add_0_r, take_drop, app_nil_r.
    eexists. split; [reflexivity|]. unfold holds, set_data. simpl. done.
  - n_tests. eexists. split; [reflexivity|]. unfold holds. simpl.
    split_and!; try done.
    + rewrite length_written by lia. done.
    + rewrite length_app. lia.
    + apply take_written; [lia..|done].
Qed.

Lemma put_holds b c d r :
  holds b c → N.of_nat (length d) < capacity_ b - write_ b →
  ∃ b', put d r b = Some b' ∧ holds b' (c ++ d)
        ∧ capacity_ b' = capacity_ b ∧ read_ b' = read_ b.
Proof.
  intros Hb Hd. pose proof (holds_size b c Hb) as Hsize.
  destruct (write_then_advance b c d Hb Hd) as (b' & Hrun & Hb').
  destruct Hb as (Hfull & Hlen & Hrw & Hw & Hc).
  unfold put, space_remaining. rewrite Hsize.
  destruct (N.ltb_spec (capacity_ b - N.of_nat (length c)) (N.of_nat (length d)));
    [lia|]. simpl.
  unfold space_remaining_until_end.
  destruct (N.ltb_spec (write_ b) (read_ b)); [lia|].
  destruct (N.leb_spec (N.of_nat (length d)) (capacity_ b - write_ b)); [|lia].
  by exists b'.
Qed.

Lemma get_holds b x c :
  holds b (x :: c) →
  ∃ b', get b = Some (x, b') ∧ holds b' c
        ∧ capacity_ b' = capacity_ b ∧ write_ b' = write_ b.
Proof.
  intros Hb. pose proof (holds_size b _ Hb) as Hsize.
  pose proof (holds_empty b _ Hb) as Hempty.
  destruct Hb as (Hfull & Hlen & Hrw & Hw & Hc).
  unfold get. rewrite Hempty. simpl in *.
  assert (data_ b !! N.to_nat (read_ b) = Some x) as Hx.
  { destruct (drop (N.to_nat (read_ b)) (data_ b)) as [|y rest] eqn:Hdrop;
      [done|]. simpl in Hc. injection Hc as -> _.
    rewrite <- (Nat.add_0_r (N.to_nat (read_ b))), <- lookup_drop, Hdrop. done. }
  rewrite Hx. simpl. unfold advance_read. rewrite Hsize. n_tests.
  eexists. split; [reflexivity|]. unfold holds. simpl.
  split_and!; try done; try lia.
  rewrite (drop_S _ _ _ Hx) in Hc. simpl in Hc. injection Hc as Hc.
  replace (N.to_nat (read_ b + 1)) with (S (N.to_nat (read_ b))) by lia.
  done.
Qed.

Lemma get_many_holds b c n :
  holds b c → n ≤ N.of_nat (length c) → n ≤ capacity_ b - write_ b →
  ∃ b', get_many n b = Some (take (N.to_nat n) c, b')
        ∧ holds b' (drop (N.to_nat n) c)
        ∧ capacity_ b' = capacity_ b ∧ write_ b' = write_ b.
Proof.
  intros Hb Hn Hroom. pose proof (holds_size b _ Hb) as Hsize.
  destruct Hb as (Hfull & Hlen & Hrw & Hw & Hc).
  unfold get_many. rewrite Hsize. n_tests.
  unfold read_into, space_remaining_until_end. n_tests.
  unfold memcpy_from. n_tests.
  assert (take (N.to_nat n) (drop (N.to_nat (read_ b)) (data_ b))
          = take (N.to_nat n) c) as ->.
  { rewrite <- Hc at 1. rewrite take_take. f_equal. lia. }
  unfold advance_read. rewrite Hsize.
  destruct (N.eqb_spec n 0) as [->|Hnz]; simpl.
  - eexists. split; [reflexivity|]. unfold holds. by split_and!.
  - n_tests. eexists. split; [reflexivity|]. unfold holds. simpl.
    rewrite length_drop. split_and!; try done; try lia.
    rewrite <- Hc at 2.
    replace (N.to_nat (read_ b + n)) with (N.to_nat (read_ b) + N.to_nat n)%nat by lia.
    rewrite <- drop_drop, take_drop_commute.
    f_equal. f_equal. lia.
Qed.

Lemma to_string_holds b c :
  holds b c → N.of_nat (length c) ≤ capacity_ b - write_ b →
  ∃ b', to_string b = Some (c, b') ∧ holds b' [].
Proof.
  intros Hb Hroom. unfold to_string. rewrite (holds_size b c Hb).
  destruct (get_many_holds b c (N.of_nat (length c)) Hb) as (b' & -> & Hb' & _);
    [lia..|].
  rewrite Nat2N.id, take_ge, drop_ge in * by lia. by exists b'.
Qed.

Lemma view_bytes_holds b c : holds b c → view_bytes b = Some c.
Proof.
  intros Hb. pose proof (holds_size b _ Hb) as Hsize.
  destruct Hb as (Hfull & Hlen & Hrw & Hw & Hc).
  unfold view_bytes, view. n_tests. rewrite Hsize. unfold memcpy_from. n_tests.
  rewrite Nat2N.id, Hc, app_nil_r. done.
Qed.

Lemma consume_holds b c n :
  holds b c → n ≤ N.of_nat (length c) →
  ∃ b', consume n b = Some b' ∧ holds b' (drop (N.to_nat n) c).
Proof.
  intros Hb Hn. pose proof (holds_size b _ Hb) as Hsize.
  destruct Hb as (Hfull & Hlen & Hrw & Hw & Hc).
  unfold consume, advance_read. rewrite Hsize. n_tests.
  destruct (N.eqb_spec n 0) as [->|Hnz]; simpl.
  - eexists. split; [reflexivity|]. unfold holds. by split_and!.
  - n_tests. eexists. split; [reflexivity|]. unfold holds. simpl.
    rewrite length_drop. split_and!; try done; try lia.
    rewrite <- Hc at 2.
    replace (N.to_nat (read_ b + n)) with (N.to_nat (read_ b) + N.to_nat n)%nat by lia.
    rewrite <- drop_drop, take_drop_commute.
    f_equal. f_equal. lia.
Qed.

(** A buffer made from a string or a vector gives its bytes back, whatever
    their number. *)
Lemma size_of_bytes d : size (of_bytes d) = N.of_nat (length d).
Proof.
  unfold of_bytes. destruct (N.eqb_spec (N.of_nat (length d)) 0) as [Hz|Hnz].
  - rewrite Hz. done.
  - done.
Qed.

Lemma view_bytes_of_bytes d : view_bytes (of_bytes d) = Some d.
Proof.
  unfold of_bytes. destruct (N.eqb_spec (N.of_nat (length d)) 0) as [Hz|Hnz].
  - destruct d; [|simpl in Hz; lia]. done.
  - unfold view_bytes, view, size, memcpy_from. simpl. n_tests.
    rewrite Nat2N.id, firstn_all, app_nil_r. done.
Qed.

Lemma to_string_of_bytes d :
  ∃ b', to_string (of_bytes d) = Some (d, b') ∧ empty b' = true.
Proof.
  unfold of_bytes. destruct (N.eqb_spec (N.of_nat (length d)) 0) as [Hz|Hnz].
  - destruct d; [|simpl in Hz; lia]. by eexists.
  - unfold to_string, get_many, size, read_into, space_remaining_until_end,
      memcpy_from, advance_read, size. simpl.
    n_tests.
    rewrite Nat2N.id, firstn_all. eexists. split; [reflexivity|].
    unfold empty. simpl. apply N.eqb_eq. lia.
Qed.

Lemma memcpy_from_all d : memcpy_from d 0 (N.of_nat (length d)) = Some d.
Proof. unfold memcpy_from. n_tests. by rewrite Nat2N.id, firstn_all. Qed.

Lemma move_buffer_of_bytes b c d :
  holds b c → N.of_nat (length d) < capacity_ b - write_ b →
  ∃ b' o', move_buffer (of_bytes d) true b = Some (b', o') ∧ holds b' (c ++ d)
           ∧ capacity_ b' = capacity_ b ∧ read_ b' = read_ b.
Proof.
  intros Hb Hd. unfold move_buffer, of_bytes.
  destruct (N.eqb_spec (N.of_nat (length d)) 0) as [Hz|Hnz].
  - destruct d; [|simpl in Hz; lia].
    destruct (put_holds b c [] true Hb) as (b' & Hput & Hb' & Hcap & Hread);
      [simpl in *; lia|].
    change (view fresh) with [(0, 0)]. simpl.
    change (memcpy_from (allocate default_size) 0 0) with (Some ([] : list byte)).
    simpl. rewrite Hput. simpl. by eexists _, _.
  - destruct (put_holds b c d true Hb) as (b' & Hput & Hb' & Hcap & Hread); [done|].
    unfold view, size, consume, advance_read, size. simpl.
    rewrite memcpy_from_all. simpl. rewrite Hput. simpl.
    n_tests. by eexists _, _.
Qed.

(** X9. While the unread bytes lie in one piece and [data] fits strictly
    between the write position and the end of the allocation, [put] appends
    [data] behind them, with or without [allow_resize]: the views then show
    the old bytes followed by [data], the size grows by the length of
    [data], and the capacity stays. *)
Theorem put_appends_behind_unread_bytes b c d allow_resize :
  holds b c → N.of_nat (length d) < capacity_ b - write_ b →
  ∃ b', put d allow_resize b = Some b'
    ∧ holds b' (c ++ d)
    ∧ view_bytes b' = Some (c ++ d)
    ∧ size b' = size b + N.of_nat (length d)
    ∧ capacity_ b' = capacity_ b.
Proof.
  intros Hb Hd.
  destruct (put_holds b c d allow_resize Hb Hd) as (b' & Hput & Hb' & Hcap & _).
  exists b'. split_and!; try done.
  - by apply view_bytes_holds.
  - rewrite (holds_size _ _ Hb), (holds_size _ _ Hb'), length_app. lia.
Qed.

(** X10. While the unread bytes lie in one piece, [get_many(n)] returns the
    [n] oldest of them in order and leaves the others, provided [n] is at
    most the room between the write position and the end of the allocation
    (the length [read_into] gives its first copy). *)
Theorem get_many_returns_oldest_bytes b c n :
  holds b c → n ≤ N.of_nat (length c) → n ≤ capacity_ b - write_ b →
  ∃ b', get_many n b = Some (take (N.to_nat n) c, b')
    ∧ holds b' (drop (N.to_nat n) c)
    ∧ view_bytes b' = Some (drop (N.to_nat n) c).
Proof.
  intros Hb Hn Hroom.
  destruct (get_many_holds b c n Hb Hn Hroom) as (b' & Hget & Hb' & _).
  exists b'. split_and!; try done. by apply view_bytes_holds.
Qed.

(** X11. While the unread bytes lie in one piece, [get] returns the oldest
    byte and leaves the others; on a buffer without unread bytes it
    throws. *)
Theorem get_pops_oldest_byte b c :
  holds b c →
  match c with
  | [] => get b = None
  | x :: rest => ∃ b', get b = Some (x, b') ∧ holds b' rest
                       ∧ view_bytes b' = Some rest
  end.
Proof.
  intros Hb. destruct c as [|x rest].
  - unfold get. by rewrite (holds_empty _ _ Hb).
  - destruct (get_holds b x rest Hb) as (b' & Hget & Hb' & _).
    exists b'. split_and!; try done. by apply view_bytes_holds.
Qed.

(** X12. A buffer built from a string or a vector holds exactly its bytes:
    [size] is their number, the views show them, and [to_string] returns
    them all, whatever their number, and leaves the buffer empty. *)
Theorem of_bytes_gives_its_bytes_back d :
  size (of_bytes d) = N.of_nat (length d)
  ∧ view_bytes (of_bytes d) = Some d
  ∧ ∃ b', to_string (of_bytes d) = Some (d, b') ∧ empty b' = true.
Proof.
  split_and!.
  - apply size_of_bytes.
  - apply view_bytes_of_bytes.
  - apply to_string_of_bytes.
Qed.

End BufferFacts.

(** ** Byte strings in a buffer *)

Section BytesFacts.
Import Buffer Bytes.
Local Open Scope N_scope.
Implicit Types (b : buffer) (c d : list byte).

Lemma to_N_low_byte x : Byte.to_N (low_byte x) = x mod 256.
Proof.
  unfold low_byte. change 255 with (N.ones 8). rewrite N.land_ones.
  change (2 ^ 8) with 256.
  destruct (Byte.of_N (x mod 256)) as [y|] eqn:Hy; simpl.
  - by apply Byte.to_of_N.
  - apply Byte.of_N_None_iff in Hy.
    pose proof (N.mod_upper_bound x 256). lia.
Qed.

Lemma length_le_bytes n x : length (le_bytes n x) = n.
Proof. revert x. induction n as [|n IH]; intros x; simpl; [done|]. by rewrite IH. Qed.

Lemma le_value_bound bs : le_value bs < 256 ^ N.of_nat (length bs).
Proof.
  induction bs as [|y bs IH]; simpl length; [simpl; lia|].
  rewrite Nat2N.inj_succ, N.pow_succ_r'. simpl le_value.
  pose proof (Byte.to_N_bounded y). lia.
Qed.

(** [insert<n>] then reading the bytes as a number gives the [n] low bytes
    of the number back. *)
Lemma le_value_le_bytes n : ∀ x, le_value (le_bytes n x) = x mod 256 ^ N.of_nat n.
Proof.
  induction n as [|n IH]; intros x.
  - simpl. by rewrite N.mod_1_r.
  - simpl le_bytes. simpl le_value. rewrite IH, to_N_low_byte.
    rewrite Nat2N.inj_succ, N.pow_succ_r', N.Div0.mod_mul_r.
    by rewrite N.shiftr_div_pow2.
Qed.

Lemma insert_holds n : ∀ x b c,
  holds b c → N.of_nat n < capacity_ b - write_ b →
  ∃ b', insert n x b = Some b' ∧ holds b' (c ++ le_bytes n x)
        ∧ capacity_ b' = capacity_ b ∧ read_ b' = read_ b.
Proof.
  induction n as [|n IH]; intros x b c Hb Hn.
  - simpl. rewrite app_nil_r. by exists b.
  - simpl.
    destruct (put_holds b c [low_byte x] true Hb)
      as (b1 & -> & Hb1 & Hcap1 & Hread1); [simpl; lia|].
    simpl.
    assert (write_ b1 = write_ b + 1) as Hw1.
    { destruct Hb as (_ & _ & Hrw & _), Hb1 as (_ & _ & Hrw1 & _).
      rewrite length_app in Hrw1. simpl in Hrw1. lia. }
    destruct (IH (N.shiftr x 8) b1 _ Hb1) as (b2 & -> & Hb2 & Hcap2 & Hread2);
      [lia|].
    exists b2. rewrite <- app_assoc in Hb2. split_and!; [done|done|congruence..].
Qed.

(** Bits that do not overlap add up. *)
Lemma lor_shifted a y k : a < 2 ^ k → N.lor a (y * 2 ^ k) = a + y * 2 ^ k.
Proof.
  intros Ha.
  assert (N.land a (y * 2 ^ k) = 0) as Hdisjoint.
  { apply N.bits_inj. intros j. rewrite N.land_spec, N.bits_0.
    destruct (N.lt_ge_cases j k) as [Hlt|Hge].
    - by rewrite N.mul_pow2_bits_low, andb_false_r.
    - rewrite <- (N.mod_small a (2 ^ k)) by done.
      by rewrite N.mod_pow2_bits_high. }
  by rewrite N.add_nocarry_lxor, N.lxor_lor.
Qed.

(** The conversion of the shifted [int] changes nothing when the sign bit
    is clear, or when the result has at most 32 bits. *)
Lemma int_as_low bits p : p < 2 ^ 31 → 31 ≤ bits → int_as bits p = p.
Proof.
  intros Hp Hbits. unfold int_as.
  destruct (N.leb_spec (2 ^ 31) p); [lia|].
  apply N.mod_small.
  assert (2 ^ 31 ≤ 2 ^ bits) by (apply N.pow_le_mono_r; lia). lia.
Qed.

Lemma int_as_narrow bits p : bits ≤ 32 → p < 2 ^ bits → int_as bits p = p.
Proof.
  intros Hbits Hp. unfold int_as.
  destruct (N.leb_spec (2 ^ 31) p) as [Hhigh|Hlow]; [|by apply N.mod_small].
  assert (2 ^ 64 - 2 ^ 32 = (2 ^ (64 - bits) - 2 ^ (32 - bits)) * 2 ^ bits) as ->.
  { rewrite N.mul_sub_distr_r, <- !N.pow_add_r.
    by replace (64 - bits + bits) with 64 by lia;
       replace (32 - bits + bits) with 32 by lia. }
  rewrite N.Div0.mod_add. by apply N.mod_small.
Qed.

Lemma extract_loop_holds todo : ∀ i bits result src bs c,
  length bs = todo → holds src (bs ++ c) →
  8 * (i + N.of_nat todo) ≤ bits → bits ≤ 32 → result < 2 ^ (8 * i) →
  ∃ src', extract_loop todo i bits result src
          = Some (result + 2 ^ (8 * i) * le_value bs, src')
    ∧ holds src' c ∧ capacity_ src' = capacity_ src ∧ write_ src' = write_ src.
Proof.
  induction todo as [|todo IH]; intros i bits result src bs c Hlen Hsrc Hbits H32 Hres.
  - destruct bs; [|done]. simpl. rewrite N.mul_0_r, N.add_0_r. by exists src.
  - destruct bs as [|next bs]; [done|]. simpl in Hlen. injection Hlen as Hlen.
    simpl extract_loop.
    destruct (get_holds src next (bs ++ c) Hsrc) as (src1 & -> & Hsrc1 & Hcap1 & Hw1).
    simpl. rewrite N.shiftl_mul_pow2. change (2 ^ 3) with 8.
    destruct (N.leb_spec 32 (i * 8)); [lia|].
    rewrite N.shiftl_mul_pow2.
    pose proof (Byte.to_N_bounded next) as Hnext.
    assert (2 ^ (i * 8) * 256 = 2 ^ (8 * (i + 1))) as Hpow.
    { replace (8 * (i + 1)) with (i * 8 + 8) by lia. by rewrite N.pow_add_r. }
    assert (2 ^ (8 * (i + 1)) ≤ 2 ^ bits) as Hle1 by (apply N.pow_le_mono_r; lia).
    assert (2 ^ bits ≤ 2 ^ 32) as Hle2 by (apply N.pow_le_mono_r; lia).
    replace (8 * i) with (i * 8) in * by lia.
    assert (Byte.to_N next * 2 ^ (i * 8) < 2 ^ (8 * (i + 1))) as Hshift by nia.
    rewrite (N.mod_small (_ * _) (2 ^ 32)) by lia.
    rewrite int_as_narrow by lia.
    rewrite lor_shifted by done.
    destruct (IH (i + 1) bits (result + Byte.to_N next * 2 ^ (i * 8)) src1 bs c)
      as (src2 & -> & Hsrc2 & Hcap2 & Hw2); [done|done|lia|done|nia|].
    exists src2. split_and!; [|done|congruence..].
    f_equal. f_equal. simpl le_value.
    replace (8 * (i + 1)) with (i * 8 + 8) by lia.
    rewrite N.pow_add_r. change (2 ^ 8) with 256. lia.
Qed.

(** Reading a number below [2 ^ 31] from any count of bytes: the bytes from
    the fifth on are zero, and the sign bit of no shifted [int] is set. *)
Lemma extract_loop_wide todo : ∀ i bits result src bs c,
  length bs = todo → holds src (bs ++ c) →
  31 ≤ bits → result < 2 ^ (8 * i) →
  result + 2 ^ (8 * i) * le_value bs < 2 ^ 31 →
  ∃ src', extract_loop todo i bits result src
          = Some (result + 2 ^ (8 * i) * le_value bs, src')
    ∧ holds src' c ∧ capacity_ src' = capacity_ src ∧ write_ src' = write_ src.
Proof.
  induction todo as [|todo IH]; intros i bits result src bs c Hlen Hsrc Hbits Hres Hsmall.
  - destruct bs; [|done]. simpl. rewrite N.mul_0_r, N.add_0_r. by exists src.
  - destruct bs as [|next bs]; [done|]. simpl in Hlen. injection Hlen as Hlen.
    simpl extract_loop.
    destruct (get_holds src next (bs ++ c) Hsrc) as (src1 & -> & Hsrc1 & Hcap1 & Hw1).
    simpl. rewrite N.shiftl_mul_pow2. change (2 ^ 3) with 8.
    assert (2 ^ (i * 8) * 256 = 2 ^ (8 * (i + 1))) as Hpow.
    { replace (8 * (i + 1)) with (i * 8 + 8) by lia. by rewrite N.pow_add_r. }
    replace (8 * i) with (i * 8) in * by lia.
    simpl le_value in Hsmall |- *.
    assert (0 < 2 ^ (i * 8)) as Hpos by (apply N.neq_0_lt_0, N.pow_nonzero; lia).
    destruct (N.leb_spec 32 (i * 8)) as [Hfar|Hnear].
    + assert (2 ^ 32 ≤ 2 ^ (i * 8)) as Hbig by (apply N.pow_le_mono_r; lia).
      assert (Byte.to_N next = 0) as Hzero by nia.
      rewrite Hzero in *. simpl.
      destruct (IH (i + 1) bits result src1 bs c)
        as (src2 & -> & Hsrc2 & Hcap2 & Hw2); [done|done|done|nia|nia|].
      exists src2. split_and!; [|done|congruence..].
      f_equal. f_equal. nia.
    + rewrite N.shiftl_mul_pow2.
      assert (Byte.to_N next * 2 ^ (i * 8) < 2 ^ 31) as Hshift by nia.
      rewrite (N.mod_small (_ * _) (2 ^ 32)) by lia.
      rewrite int_as_low by done.
      rewrite lor_shifted by done.
      pose proof (Byte.to_N_bounded next) as Hnext.
      destruct (IH (i + 1) bits (result + Byte.to_N next * 2 ^ (i * 8)) src1 bs c)
        as (src2 & -> & Hsrc2 & Hcap2 & Hw2); [done|done|done|nia|nia|].
      exists src2. split_and!; [|done|congruence..].
      f_equal. f_equal. nia.
Qed.

(** X13. A byte string of up to four bytes written with [insert<n>] into
    a buffer without unread bytes is read back by [extract<n>]: the result
    is the number's [n] low bytes, so the number itself when it fits, and
    the buffer is left without unread bytes. *)
Theorem insert_then_extract n x b :
  holds b [] → (n ≤ 4)%nat → N.of_nat n < capacity_ b - write_ b →
  ∃ b1 b2, insert n x b = Some b1
    ∧ extract n b1 = Some (x mod 256 ^ N.of_nat n, b2)
    ∧ holds b2 [].
Proof.
  intros Hb Hn Hroom.
  destruct (insert_holds n x b [] Hb Hroom) as (b1 & Hins & Hb1 & _).
  simpl in Hb1. rewrite <- (app_nil_r (le_bytes n x)) in Hb1.
  destruct (extract_loop_holds n 0 (result_bits n) 0 b1 (le_bytes n x) [])
    as (b2 & Hex & Hb2 & _).
  - apply length_le_bytes.
  - done.
  - do 5 (destruct n as [|n]; [vm_compute; discriminate|]). lia.
  - unfold result_bits. repeat case_bool_decide; lia.
  - simpl. lia.
  - exists b1, b2. split_and!; [done| |done].
    unfold extract. rewrite Hex. rewrite le_value_le_bytes.
    rewrite N.mul_0_r, N.pow_0_r, N.mul_1_l. done.
Qed.

(** X14. A number below [2 ^ 31] written with [insert<n>] as five to eight
    bytes into a buffer without unread bytes is read back by [extract<n>]
    unchanged, and the buffer is left without unread bytes. The fifth and
    later bytes are zero then, and no byte is shifted into the sign bit of
    the 32-bit [int]. *)
Theorem wide_insert_then_extract n x b :
  holds b [] → (4 < n ≤ 8)%nat → x < 2 ^ 31 →
  N.of_nat n < capacity_ b - write_ b →
  ∃ b1 b2, insert n x b = Some b1
    ∧ extract n b1 = Some (x, b2)
    ∧ holds b2 [].
Proof.
  intros Hb Hn Hx Hroom.
  destruct (insert_holds n x b [] Hb Hroom) as (b1 & Hins & Hb1 & _).
  simpl in Hb1. rewrite <- (app_nil_r (le_bytes n x)) in Hb1.
  assert (le_value (le_bytes n x) = x) as Hvalue.
  { rewrite le_value_le_bytes. apply N.mod_small.
    assert (256 ^ 4 ≤ 256 ^ N.of_nat n) by (apply N.pow_le_mono_r; lia). lia. }
  assert (result_bits n = 64) as Hbits.
  { unfold result_bits. repeat case_bool_decide; lia. }
  destruct (extract_loop_wide n 0 64 0 b1 (le_bytes n x) [])
    as (b2 & Hex & Hb2 & _).
  - apply length_le_bytes.
  - done.
  - lia.
  - simpl. lia.
  - rewrite Hvalue. simpl. lia.
  - exists b1, b2. split_and!; [done| |done].
    unfold extract. rewrite Hbits, Hex, Hvalue. do 2 f_equal. simpl. lia.
Qed.

End BytesFacts.

Section BufferExamples.
Import Buffer Bytes.
Local Open Scope N_scope.

Lemma put_appends_behind_unread_bytes_witness :
  ∃ b', put ["a"; "b"]%byte false fresh = Some b'
    ∧ holds b' ([] ++ ["a"; "b"]%byte)
    ∧ view_bytes b' = Some ([] ++ ["a"; "b"]%byte)
    ∧ size b' = size fresh + N.of_nat (length ["a"; "b"]%byte)
    ∧ capacity_ b' = capacity_ fresh.
Proof.
  apply (put_appends_behind_unread_bytes fresh [] ["a"; "b"]%byte false).
  - unfold holds. vm_compute. split_and!; reflexivity.
  - vm_compute. reflexivity.
Defined.

Lemma get_many_returns_oldest_bytes_witness :
  let b := mkBuffer ["a"; "b"; "c"; "d"]%byte 4 0 2 false in
  ∃ b', get_many 2 b = Some (take (N.to_nat 2) ["a"; "b"]%byte, b')
    ∧ holds b' (drop (N.to_nat 2) ["a"; "b"]%byte)
    ∧ view_bytes b' = Some (drop (N.to_nat 2) ["a"; "b"]%byte).
Proof.
  intros b.
  apply (get_many_returns_oldest_bytes b ["a"; "b"]%byte 2).
  - unfold holds. vm_compute. split_and!; reflexivity.
  - vm_compute. discriminate.
  - vm_compute. discriminate.
Defined.

Lemma get_pops_oldest_byte_witness :
  let b := mkBuffer ["a"; "b"; "c"; "d"]%byte 4 0 2 false in
  ∃ b', get b = Some ("a"%byte, b') ∧ holds b' ["b"%byte]
        ∧ view_bytes b' = Some ["b"%byte].
Proof.
  intros b.
  apply (get_pops_oldest_byte b ["a"; "b"]%byte).
  unfold holds. vm_compute. split_and!; reflexivity.
Defined.

Lemma insert_then_extract_witness :
  ∃ b1 b2, insert 4 305419896 fresh = Some b1
    ∧ extract 4 b1 = Some (305419896 mod 256 ^ N.of_nat 4, b2)
    ∧ holds b2 [].
Proof.
  apply (insert_then_extract 4 305419896 fresh).
  - unfold holds. vm_compute. split_and!; reflexivity.
  - lia.
  - vm_compute. reflexivity.
Defined.

Lemma wide_insert_then_extract_witness :
  ∃ b1 b2, insert 8 5 fresh = Some b1
    ∧ extract 8 b1 = Some (5, b2)
    ∧ holds b2 [].
Proof.
  apply (wide_insert_then_extract 8 5 fresh).
  - unfold holds. vm_compute. split_and!; reflexivity.
  - lia.
  - vm_compute. reflexivity.
  - vm_compute. reflexivity.
Defined.

End BufferExamples.

(** ** Messages and their bodies *)

Section MessageFacts.
Import Buffer Bytes Proto.
Local Open Scope N_scope.

Lemma length_list_byte_of_string (s : string) :
  length (list_byte_of_string s) = String.length s.
Proof.
  unfold list_byte_of_string. rewrite length_map.
  induction s as [|a s IH]; simpl; [done|]. by rewrite IH.
Qed.

(** X15. The messages whose body is one string or one vector come back from
    their conversion unchanged, whatever the length of the text: Error,
    Response, FileTransfer, Read and TransmitData. *)
Theorem text_messages_convert_back (text : string) (data : list byte) :
  ToError (ErrorMessage_ToMessage (mkError text)) = Some (ok (mkError text))
  ∧ ToResponse (ResponseMessage_ToMessage (mkResponse text))
    = Some (ok (mkResponse text))
  ∧ ToFileTransfer (FileTransferMessage_ToMessage (mkFileTransfer text))
    = Some (ok (mkFileTransfer text))
  ∧ ToRead (ReadMessage_ToMessage (mkRead text)) = Some (ok (mkRead text))
  ∧ ToTransmitData (TransmitDataMessage_ToMessage (mkTransmitData data))
    = Some (ok (mkTransmitData data)).
Proof.
  destruct (to_string_of_bytes (list_byte_of_string text)) as (b1 & Htext & _).
  destruct (to_string_of_bytes data) as (b2 & Hdata & _).
  unfold ToError, ToResponse, ToFileTransfer, ToRead, ToTransmitData. simpl.
  fold (to_string (of_bytes data)).
  rewrite Htext, Hdata. simpl. rewrite string_of_list_byte_of_string. done.
Qed.

Local Arguments get_until_loop : simpl never.
Local Arguments insert : simpl never.
Local Arguments extract_loop : simpl never.

Lemma get_until_loop_S fuel delim b output delim_pos :
  get_until_loop (S fuel) delim b output delim_pos
  = if empty b then Some (output, b)
    else '(next, b) ← get b;
         if bool_decide ((delim ++ ["000"%byte]) !! delim_pos = Some next) then
           if bool_decide (S delim_pos = length delim) then Some (output, b)
           else get_until_loop fuel delim b output (S delim_pos)
         else
           get_until_loop fuel delim b
             ((if bool_decide (0 < delim_pos)%nat
               then output ++ take delim_pos delim else output) ++ [next]) 0%nat.
Proof. done. Qed.

(** [get_until] with the string delimiter on text without carriage return:
    the text before the delimiter comes out, the delimiter is dropped and
    what follows it stays. *)
Lemma get_until_loop_plain f : ∀ fuel b out rest,
  "013"%byte ∉ f → holds b (f ++ "013"%byte :: "010"%byte :: rest) →
  (length f + 2 ≤ fuel)%nat →
  ∃ b', get_until_loop fuel kStringDelimiter b out 0 = Some (out ++ f, b')
    ∧ holds b' rest ∧ capacity_ b' = capacity_ b ∧ write_ b' = write_ b.
Proof.
  induction f as [|x f IH]; intros fuel b out rest Hplain Hb Hfuel.
  - destruct fuel as [|[|fuel]]; [simpl in Hfuel; lia..|]. simpl in Hb.
    rewrite get_until_loop_S, (holds_empty _ _ Hb). simpl.
    destruct (get_holds _ _ _ Hb) as (b1 & -> & Hb1 & Hcap1 & Hw1). simpl.
    rewrite get_until_loop_S, (holds_empty _ _ Hb1). simpl.
    destruct (get_holds _ _ _ Hb1) as (b2 & -> & Hb2 & Hcap2 & Hw2). simpl.
    rewrite app_nil_r. exists b2. split_and!; [done|done|congruence..].
  - destruct fuel as [|fuel]; [simpl in Hfuel; lia|]. simpl in Hb.
    apply not_elem_of_cons in Hplain as [Hx Hplain].
    rewrite get_until_loop_S, (holds_empty _ _ Hb). simpl.
    destruct (get_holds _ _ _ Hb) as (b1 & -> & Hb1 & Hcap1 & Hw1). simpl.
    rewrite bool_decide_eq_false_2 by congruence. simpl.
    destruct (IH fuel b1 (out ++ [x]) rest Hplain Hb1) as (b2 & -> & Hb2 & Hcap2 & Hw2).
    { simpl in Hfuel. lia. }
    rewrite <- app_assoc. simpl. exists b2. split_and!; [done|done|congruence..].
Qed.

(** X16. A Write message whose file name has no carriage return and whose
    name and line are short enough for the default buffer (the length of
    the name plus twice the length of the line is below 1022) comes back
    from its conversion unchanged. *)
Theorem write_message_converts_back (w : WriteMessage) :
  "013"%byte ∉ list_byte_of_string (file_name w) →
  (String.length (file_name w) + 2 * String.length (line w) < 1022)%nat →
  ∃ m, WriteMessage_ToMessage w = Some m ∧ ToWrite m = Some (ok w).
Proof.
  destruct w as [f l]. simpl. intros Hplain Hlen.
  rewrite <- (length_list_byte_of_string f), <- (length_list_byte_of_string l) in Hlen.
  unfold WriteMessage_ToMessage, put_iter. simpl.
  destruct (put_holds fresh [] (list_byte_of_string f) true holds_fresh)
    as (b1 & -> & Hb1 & Hcap1 & Hread1);
    [change (capacity_ fresh - write_ fresh) with 1024; lia|]. simpl.
  change (capacity_ fresh) with 1024 in Hcap1.
  change (read_ fresh) with 0 in Hread1.
  assert (write_ b1 = N.of_nat (length (list_byte_of_string f))) as Hw1.
  { destruct Hb1 as (_ & _ & Hrw & _). rewrite Hread1 in Hrw. simpl in Hrw. lia. }
  destruct (put_holds b1 _ kStringDelimiter true Hb1)
    as (b2 & -> & Hb2 & Hcap2 & Hread2); [rewrite Hcap1; simpl; lia|]. simpl.
  assert (write_ b2 = N.of_nat (length (list_byte_of_string f)) + 2) as Hw2.
  { destruct Hb2 as (_ & _ & Hrw & _). rewrite Hread2, Hread1 in Hrw.
    rewrite length_app in Hrw. simpl in Hrw. lia. }
  destruct (put_holds b2 _ (list_byte_of_string l) true Hb2)
    as (b3 & -> & Hb3 & Hcap3 & Hread3); [rewrite Hcap2, Hcap1; simpl; lia|]. simpl.
  assert (write_ b3 = N.of_nat (length (list_byte_of_string f)) + 2
                      + N.of_nat (length (list_byte_of_string l))) as Hw3.
  { destruct Hb3 as (_ & _ & Hrw & _). rewrite Hread3, Hread2, Hread1 in Hrw.
    rewrite !length_app in Hrw. simpl in Hrw. lia. }
  eexists. split; [reflexivity|].
  unfold ToWrite, get_until. simpl.
  rewrite (holds_size _ _ Hb3). simpl in Hb3. rewrite <- app_assoc in Hb3. simpl in Hb3.
  destruct (get_until_loop_plain (list_byte_of_string f)
              (N.to_nat (N.of_nat (length (list_byte_of_string f ++
                 "013"%byte :: "010"%byte :: list_byte_of_string l))))
              b3 [] (list_byte_of_string l) Hplain Hb3)
    as (b4 & Hget & Hb4 & Hcap4 & Hw4).
  { rewrite Nat2N.id, length_app. simpl. lia. }
  rewrite <- app_assoc. simpl. rewrite Hget. simpl.
  destruct (to_string_holds b4 _ Hb4) as (b5 & -> & _).
  { rewrite Hcap4, Hw4, Hcap3, Hcap2, Hcap1, Hw3. simpl. lia. }
  simpl. by rewrite !string_of_list_byte_of_string.
Qed.

Lemma insert_fresh n x :
  (n < 1024)%nat →
  ∃ b, insert n x fresh = Some b ∧ holds b (le_bytes n x)
       ∧ capacity_ b = 1024 ∧ read_ b = 0 ∧ write_ b = N.of_nat n.
Proof.
  intros Hn.
  destruct (insert_holds n x fresh [] holds_fresh) as (b & Hins & Hb & Hcap & Hread).
  { change (capacity_ fresh - write_ fresh) with 1024. lia. }
  exists b. simpl in Hb. split_and!; try done.
  destruct Hb as (_ & _ & Hrw & _). rewrite Hread, length_le_bytes in Hrw.
  change (read_ fresh) with 0 in Hrw. lia.
Qed.

(** X17. An EstablishConnection message with a node id below 256 and a text
    of at most 511 bytes comes back from its conversion unchanged. *)
Theorem establish_connection_converts_back (e : EstablishConnectionMessage) :
  establish_id e < 256 → (String.length (establish_message e) ≤ 511)%nat →
  ∃ m, EstablishConnectionMessage_ToMessage e = Some m
    ∧ ToEstablishConnection m = Some (ok e).
Proof.
  destruct e as [id text]. cbn [establish_id establish_message]. intros Hid Hlen.
  rewrite <- (length_list_byte_of_string text) in Hlen.
  unfold EstablishConnectionMessage_ToMessage, put_iter.
  cbn [establish_id establish_message].
  destruct (insert_fresh 1 id) as (b1 & -> & Hb1 & Hcap1 & Hread1 & Hw1); [lia|].
  cbn [mbind option_bind].
  destruct (put_holds b1 _ (list_byte_of_string text) false Hb1)
    as (b2 & -> & Hb2 & Hcap2 & Hread2); [lia|].
  cbn [mbind option_bind].
  eexists. split; [reflexivity|].
  unfold ToEstablishConnection, extract. cbn [opcode body].
  rewrite bool_decide_eq_true_2 by done. cbn [negb].
  destruct (extract_loop_holds 1 0 8 0 b2 (le_bytes 1 id) (list_byte_of_string text))
    as (b3 & Hex & Hb3 & Hcap3 & Hw3); [done|done|lia|lia|simpl; lia|].
  change (result_bits 1) with 8. rewrite Hex. cbn [mbind option_bind].
  destruct (to_string_holds b3 _ Hb3) as (b4 & -> & _).
  { destruct Hb2 as (_ & _ & Hrw & _). rewrite length_app in Hrw.
    cbn [length le_bytes] in Hrw. lia. }
  cbn [mbind option_bind]. rewrite string_of_list_byte_of_string.
  cbn [le_bytes le_value]. rewrite to_N_low_byte.
  rewrite N.mod_small by done. do 3 f_equal. lia.
Qed.

(** X18. The messages that fill a default buffer without [allow_resize]
    throw "Buffer overflow" on long text: an EstablishConnection message
    with more than 1023 bytes of text, and a Request or Reply with a file
    name of more than 1016 bytes. *)
Theorem long_text_overflows_the_message_body :
  (∀ e, (1023 < String.length (establish_message e))%nat →
        EstablishConnectionMessage_ToMessage e = None)
  ∧ (∀ r, (1016 < String.length (Mutex.req_file_name r))%nat →
          RequestMessage_ToMessage r = None)
  ∧ (∀ r, (1016 < String.length (Mutex.rep_file_name r))%nat →
          ReplyMessage_ToMessage r = None).
Proof.
  assert (Hput : ∀ n x text, (n < 1024)%nat → (1024 - n < String.length text)%nat →
            insert n x fresh ≫= put (list_byte_of_string text) false = None).
  { intros n x text Hn Hlen.
    rewrite <- (length_list_byte_of_string text) in Hlen.
    destruct (insert_fresh n x Hn) as (b & -> & Hb & Hcap & Hread & Hw). simpl.
    unfold put, space_remaining. rewrite (holds_size _ _ Hb), length_le_bytes, Hcap.
    destruct (N.ltb_spec (1024 - N.of_nat n)
                (N.of_nat (length (list_byte_of_string text)))); [reflexivity|lia]. }
  split_and!.
  - intros [id text] Hlen. unfold EstablishConnectionMessage_ToMessage, put_iter.
    cbn [establish_id establish_message] in *.
    pose proof (Hput 1%nat id text) as H.
    destruct (insert 1 id fresh) as [b|]; cbn [mbind option_bind] in *; [|done].
    rewrite H; [done|lia|lia].
  - intros [ts f] Hlen. unfold RequestMessage_ToMessage, put_iter.
    cbn [Mutex.req_timestamp Mutex.req_file_name] in *.
    pose proof (Hput 8%nat (Z.to_N ts) f) as H.
    destruct (insert 8 (Z.to_N ts) fresh) as [b|]; cbn [mbind option_bind] in *; [|done].
    rewrite H; [done|lia|lia].
  - intros [ts f] Hlen. unfold ReplyMessage_ToMessage, put_iter.
    cbn [Mutex.rep_timestamp Mutex.rep_file_name] in *.
    pose proof (Hput 8%nat (Z.to_N ts) f) as H.
    destruct (insert 8 (Z.to_N ts) fresh) as [b|]; cbn [mbind option_bind] in *; [|done].
    rewrite H; [done|lia|lia].
Qed.

(** X19. A Request and a Reply with a clock value below [2 ^ 31] and a file
    name of at most 508 bytes come back from their conversion unchanged:
    the eight bytes of the clock are read back by [extract<8>], and the
    rest of the body is the file name. *)
Theorem request_and_reply_convert_back (ts : Z) (f : string) :
  (0 ≤ ts < 2 ^ 31)%Z → (String.length f ≤ 508)%nat →
  (∃ m, RequestMessage_ToMessage (Mutex.mkRequest ts f) = Some m
        ∧ ToRequest m = Some (ok (Mutex.mkRequest ts f)))
  ∧ (∃ m, ReplyMessage_ToMessage (Mutex.mkReply ts f) = Some m
          ∧ ToReply m = Some (ok (Mutex.mkReply ts f))).
Proof.
  intros Hts Hlen.
  rewrite <- (length_list_byte_of_string f) in Hlen.
  assert (Hbody : ∃ b1 body,
            insert 8 (Z.to_N ts) fresh = Some b1
            ∧ put_iter (list_byte_of_string f) false b1 = Some body
            ∧ extract 8 body ≫= (λ '(clock, body),
                '(file_name, _) ← to_string body;
                Some (Z.of_N clock, string_of_list_byte file_name))
              = Some (ts, f)).
  { unfold put_iter.
    destruct (insert_fresh 8 (Z.to_N ts)) as (b1 & Hins & Hb1 & Hcap1 & Hread1 & Hw1);
      [lia|].
    destruct (put_holds b1 _ (list_byte_of_string f) false Hb1)
      as (b2 & Hput & Hb2 & Hcap2 & Hread2); [lia|].
    exists b1, b2. split_and!; [done..|].
    assert (le_value (le_bytes 8 (Z.to_N ts)) = Z.to_N ts) as Hvalue.
    { rewrite le_value_le_bytes. apply N.mod_small. simpl. lia. }
    destruct (extract_loop_wide 8 0 64 0 b2 (le_bytes 8 (Z.to_N ts))
                (list_byte_of_string f))
      as (b3 & Hex & Hb3 & Hcap3 & Hw3);
      [done|done|lia|simpl; lia|rewrite Hvalue; simpl; lia|].
    unfold extract. change (result_bits 8) with 64. rewrite Hex, Hvalue.
    cbn [mbind option_bind].
    destruct (to_string_holds b3 _ Hb3) as (b4 & -> & _).
    { destruct Hb2 as (_ & _ & Hrw & _). rewrite length_app in Hrw.
      rewrite length_le_bytes in Hrw. lia. }
    cbn [mbind option_bind]. rewrite string_of_list_byte_of_string.
    do 2 f_equal. simpl. lia. }
  destruct Hbody as (b1 & body & Hins & Hput & Hget).
  split.
  - unfold RequestMessage_ToMessage.
    cbn [Mutex.req_timestamp Mutex.req_file_name]. rewrite Hins.
    cbn [mbind option_bind]. rewrite Hput. cbn [mbind option_bind].
    eexists. split; [reflexivity|].
    unfold ToRequest. cbn [opcode Proto.body].
    rewrite bool_decide_eq_true_2 by done. cbn [negb].
    destruct (extract 8 body) as [[clock body1]|]; cbn [mbind option_bind] in *;
      [|done].
    destruct (to_string body1) as [[file_name body2]|]; cbn [mbind option_bind] in *;
      [|done].
    by injection Hget as -> ->.
  - unfold ReplyMessage_ToMessage.
    cbn [Mutex.rep_timestamp Mutex.rep_file_name]. rewrite Hins.
    cbn [mbind option_bind]. rewrite Hput. cbn [mbind option_bind].
    eexists. split; [reflexivity|].
    unfold ToReply. cbn [opcode Proto.body].
    rewrite bool_decide_eq_true_2 by done. cbn [negb].
    destruct (extract 8 body) as [[clock body1]|]; cbn [mbind option_bind] in *;
      [|done].
    destruct (to_string body1) as [[file_name body2]|]; cbn [mbind option_bind] in *;
      [|done].
    by injection Hget as -> ->.
Qed.

End MessageFacts.

(** ** Frames on a connection *)

Section FrameFacts.
Import Buffer Bytes Proto AsyncMessageService.
Local Open Scope N_scope.

(** The frame of a message: the opcode, the length of the body in four
    bytes, least significant first, and the body. *)
Lemma PutMessageInOutputBuffer_of_bytes (op : byte) (data : list byte) :
  (length data < 1019)%nat →
  ∃ output, PutMessageInOutputBuffer (mkMessage op (of_bytes data)) fresh
            = Some (ok output)
    ∧ holds output (op :: le_bytes 4 (N.of_nat (length data)) ++ data).
Proof.
  intros Hlen. unfold PutMessageInOutputBuffer. cbn [opcode body].
  change Opcode with byte. rewrite size_of_bytes. unfold kMaxBodySize.
  destruct (N.ltb_spec (2 ^ 32 - 1) (N.of_nat (length data))); [lia|].
  destruct (put_holds fresh [] [op] true holds_fresh)
    as (b1 & -> & Hb1 & Hcap1 & Hread1);
    [change (capacity_ fresh - write_ fresh) with 1024; simpl; lia|].
  cbn [mbind option_bind].
  change (capacity_ fresh) with 1024 in Hcap1.
  change (read_ fresh) with 0 in Hread1.
  assert (write_ b1 = 1) as Hw1.
  { destruct Hb1 as (_ & _ & Hrw & _). rewrite Hread1 in Hrw. simpl in Hrw. lia. }
  rewrite N.mod_small by lia.
  destruct (insert_holds 4 (N.of_nat (length data)) b1 _ Hb1)
    as (b2 & -> & Hb2 & Hcap2 & Hread2); [lia|].
  cbn [mbind option_bind].
  assert (write_ b2 = 5) as Hw2.
  { destruct Hb2 as (_ & _ & Hrw & _). rewrite Hread2, Hread1 in Hrw.
    rewrite length_app, length_le_bytes in Hrw. simpl in Hrw. lia. }
  destruct (move_buffer_of_bytes b2 _ data Hb2)
    as (b3 & o3 & -> & Hb3 & Hcap3 & Hread3); [lia|].
  cbn [mbind option_bind]. exists b3. split; [done|].
  by rewrite <- app_assoc in Hb3.
Qed.

Lemma encode_of_bytes (op : byte) (data : list byte) :
  op ≠ kFileTransfer → (length data < 1019)%nat →
  encode (mkMessage op (of_bytes data))
  = Some (ok (op :: le_bytes 4 (N.of_nat (length data)) ++ data)).
Proof.
  intros Hop Hlen. unfold encode, WriteMessage, FillOutputBuffer.
  unfold OpcodeStartsACompoundMessage. cbn [opcode].
  rewrite bool_decide_eq_false_2 by done.
  cbn [Socket.output_buffer_ Socket.input_buffer_ Socket.fresh].
  destruct (PutMessageInOutputBuffer_of_bytes op data Hlen) as (output & -> & Hout).
  cbn [mbind option_bind]. unfold Socket.Send. cbn [Socket.output_buffer_].
  rewrite (view_bytes_holds _ _ Hout). cbn [mbind option_bind].
  destruct (consume_holds output _ _ Hout (N.le_refl _)) as (o' & Hc & _).
  rewrite Hc.
  done.
Qed.

(** X20. A message with any opcode but FileTransfer whose body was built
    from a string or a vector of fewer than 1019 bytes goes out on a fresh
    connection as one frame: the opcode, the length of the body in four
    bytes with the least significant first, and the body. *)
Theorem frame_is_opcode_length_and_body (op : byte) (data : list byte) :
  op ≠ kFileTransfer → (length data < 1019)%nat →
  encode (mkMessage op (of_bytes data))
  = Some (ok (op :: le_bytes 4 (N.of_nat (length data)) ++ data)).
Proof. apply encode_of_bytes. Qed.

(** One [::read] of fewer than 1024 bytes into the input buffer of a fresh
    socket. *)
Lemma Receive_fresh chunk :
  (length chunk < 1024)%nat →
  ∃ inp, Socket.Receive 1024 chunk Socket.fresh
         = Some (Socket.mkSocket inp fresh)
    ∧ holds inp chunk ∧ capacity_ inp = 1024 ∧ read_ inp = 0.
Proof.
  intros Hlen. unfold Socket.Receive.
  destruct (N.ltb_spec 1024 (N.of_nat (length chunk))); [lia|].
  cbn [Socket.input_buffer_ Socket.output_buffer_ Socket.fresh].
  change (reserve 1024 fresh) with (Some (0, fresh)).
  cbn [mbind option_bind]. unfold commit.
  destruct (write_then_advance fresh [] chunk holds_fresh)
    as (inp & Hrun & Hinp & Hcap & Hread).
  { change (capacity_ fresh - write_ fresh) with 1024. lia. }
  change (write_ fresh) with 0 in Hrun.
  destruct (memcpy_to (data_ fresh) 0 chunk) as [mem|];
    cbn [mbind option_bind] in Hrun |- *; [|done].
  rewrite Hrun. exists inp. split_and!; done.
Qed.

Local Ltac svc :=
  cbn [mbind option_bind socket_ compound_message_parent_ finished_compound_
       opcode_ expected_ body_ transfer_file_ set_input set_socket set_opcode
       set_expected set_body Input Socket.input_buffer_ Socket.output_buffer_
       opcode body].

(** The reader on a whole frame that one read brought in. *)
Lemma ProcessBytes_whole_frame (op : byte) (data : list byte) inp out :
  op ≠ kFileTransfer → (length data ≤ 509)%nat →
  holds inp (op :: le_bytes 4 (N.of_nat (length data)) ++ data) →
  capacity_ inp = 1024 → read_ inp = 0 →
  ∃ inp' body',
    ProcessBytes (size inp)
      (mkService (Socket.mkSocket inp out) None false None None fresh [])
    = Some (ok (true, mkService (Socket.mkSocket inp' out) None false (Some op)
                        (Some (N.of_nat (length data))) body' []))
    ∧ holds body' data ∧ capacity_ body' = 1024 ∧ read_ body' = 0.
Proof.
  intros Hop Hlen Hinp Hcap Hread.
  assert (write_ inp = 5 + N.of_nat (length data)) as Hw.
  { destruct Hinp as (_ & _ & Hrw & _). rewrite Hread in Hrw.
    cbn [length] in Hrw. rewrite length_app, length_le_bytes in Hrw. lia. }
  rewrite (holds_size _ _ Hinp). cbn [length]. rewrite length_app, length_le_bytes.
  unfold ProcessBytes, ProcessBytesIntoCurrentMessage. svc.
  unfold kOpcodeLength, kBodySizeLength. n_tests.
  destruct (get_holds _ _ _ Hinp) as (inp1 & -> & Hinp1 & Hcap1 & Hw1). svc.
  n_tests.
  destruct (extract_loop_holds 4 0 32 0 inp1 (le_bytes 4 (N.of_nat (length data))) data)
    as (inp2 & Hex & Hinp2 & Hcap2 & Hw2);
    [apply length_le_bytes|done|lia|lia|simpl; lia|].
  unfold extract. change (result_bits 4) with 32. rewrite Hex. svc.
  rewrite le_value_le_bytes.
  rewrite N.mul_0_r, N.pow_0_r, N.mul_1_l, N.add_0_l.
  rewrite (N.mod_small (N.of_nat (length data))) by (simpl; lia).
  assert (Hdone : ∀ s, opcode_ s = Some op → compound_message_parent_ s = None →
            expected_ s = Some (size (body_ s)) →
            (if FinishedReadingCurrentMessage s
             then o ← opcode_ s;
                  if OpcodeStartsACompoundMessage o
                  then r ← HandleCompoundMessageHeader s;
                       match r with
                       | ok s0 => Some (ok (true, ResetCurrentMessage s0))
                       | err e => Some (err e)
                       end
                  else if InACompoundMessage s
                       then r ← HandleCompoundMessageFrame s;
                            match r with
                            | ok s0 => Some (ok (true, ResetCurrentMessage s0))
                            | err e => Some (err e)
                            end
                       else Some (ok (true, s))
             else Some (ok (true, s))) = Some (ok (true, s))).
  { intros s Ho Hc He.
    unfold FinishedReadingCurrentMessage, OpcodeStartsACompoundMessage,
      InACompoundMessage.
    rewrite Ho, Hc, He, N.eqb_refl. cbn [mbind option_bind].
    rewrite bool_decide_eq_false_2 by done.
    rewrite bool_decide_eq_false_2 by (by intros [? ?]). done. }
  destruct (N.eqb_spec (N.of_nat (length data)) 0) as [Hz|Hnz]; cbn [negb].
  - destruct data; [|simpl in Hz; lia]. svc.
    change (size fresh <? N.of_nat (length [])) with false. cbv iota. svc.
    rewrite Hdone by done. exists inp2, fresh.
    split_and!; [done|apply holds_fresh|done..].
  - unfold reserve. n_tests.
    change (space_remaining_until_end fresh) with 1024. n_tests. svc.
    change (size fresh) with 0. n_tests.
    replace (N.of_nat (S (S (S (S (S (length data)))))) - 1 - 4)
      with (N.of_nat (length data)) by lia.
    rewrite N.sub_0_r, N.min_id.
    destruct (get_many_holds inp2 data (N.of_nat (length data)) Hinp2)
      as (inp3 & -> & _); [lia|lia|]. svc.
    rewrite Nat2N.id, firstn_all. unfold put_iter.
    destruct (put_holds fresh [] data false holds_fresh)
      as (body' & -> & Hbody & Hcapb & Hreadb).
    { change (capacity_ fresh - write_ fresh) with 1024. lia. }
    svc. rewrite Hdone; [|done|done|].
    + exists inp3, body'. split_and!; done.
    + svc. by rewrite (holds_size _ _ Hbody).
Qed.

Lemma ProcessAllBytes_loop_S fuel s :
  ProcessAllBytes_loop (S fuel) s
  = if FinishedReading s then Some (ok s)
    else if size (Input s) =? 0 then Some (ok s)
    else r ← ProcessBytes (size (Input s)) s;
         match r with
         | err e => Some (err e)
         | ok (true, s) => ProcessAllBytes_loop fuel s
         | ok (false, s) => Some (ok s)
         end.
Proof. done. Qed.

(** The reader on a connection where a single read brings in the frame of
    up to 509 bytes of body. *)
Lemma decode_of_frame (op : byte) (data : list byte) :
  op ≠ kFileTransfer → (length data ≤ 509)%nat →
  ∃ m rest,
    decode [op :: le_bytes 4 (N.of_nat (length data)) ++ data] = Some (ok m)
    ∧ opcode m = op
    ∧ view_bytes (body m) = Some data
    ∧ to_string (body m) = Some (data, rest).
Proof.
  intros Hop Hlen.
  remember (op :: le_bytes 4 (N.of_nat (length data)) ++ data) as frame eqn:Hf.
  assert (length frame = (5 + length data)%nat) as Hframe.
  { subst frame. cbn [length]. rewrite length_app, length_le_bytes. lia. }
  destruct (Receive_fresh frame) as (inp & Hrecv & Hinp & Hcap & Hread); [lia|].
  rewrite Hf in Hinp.
  destruct (ProcessBytes_whole_frame op data inp fresh Hop Hlen Hinp Hcap Hread)
    as (inp' & body' & Hprocess & Hbody & Hcapb & Hreadb).
  destruct (to_string_holds body' data Hbody) as (rest & Hstring & _).
  { destruct Hbody as (_ & _ & Hrw & _). lia. }
  exists (mkMessage op body'), rest.
  split_and!; [|done|by apply view_bytes_holds|done].
  unfold decode, ReadMessage.
  change (ProcessAllBytes (ResetCompoundMessage (start Socket.fresh)))
    with (Some (ok (start Socket.fresh))).
  cbn [mbind option_bind ReceiveBytes].
  change (FinishedReading (start Socket.fresh)) with false. cbv iota.
  change (socket_ (start Socket.fresh)) with Socket.fresh.
  rewrite Hrecv. cbn [mbind option_bind].
  unfold ProcessAllBytes.
  change (Input (set_socket (Socket.mkSocket inp fresh) (start Socket.fresh)))
    with inp.
  replace (2 * N.to_nat (size inp) + 2)%nat
    with (S (S (2 * N.to_nat (size inp)))) by lia.
  rewrite ProcessAllBytes_loop_S.
  change (FinishedReading (set_socket (Socket.mkSocket inp fresh) (start Socket.fresh)))
    with false. cbv iota.
  change (Input (set_socket (Socket.mkSocket inp fresh) (start Socket.fresh)))
    with inp.
  destruct (N.eqb_spec (size inp) 0) as [Hz|_].
  { rewrite (holds_size _ _ Hinp) in Hz. cbn [length] in Hz. lia. }
  change (set_socket (Socket.mkSocket inp fresh) (start Socket.fresh))
    with (mkService (Socket.mkSocket inp fresh) None false None None fresh []).
  rewrite Hprocess. cbn [mbind option_bind].
  rewrite ProcessAllBytes_loop_S.
  assert (FinishedReading
            (mkService (Socket.mkSocket inp' fresh) None false (Some op)
               (Some (N.of_nat (length data))) body' []) = true) as Hfinished.
  { unfold FinishedReading, FinishedReadingCompoundMessage,
      FinishedReadingCurrentMessage. cbn [compound_message_parent_ opcode_
      expected_ body_ orb]. rewrite (holds_size _ _ Hbody). apply N.eqb_refl. }
  rewrite Hfinished. cbn [mbind option_bind]. rewrite Hfinished.
  unfold GetReturnedMessage.
  cbn [compound_message_parent_ opcode_ body_ mbind option_bind]. done.
Qed.

(** X21. A message whose body was built from up to 509 bytes, with any
    opcode but FileTransfer, goes over a fresh connection whole: when a
    single read brings its frame in, [ReadMessage] returns a message with
    the same opcode whose body holds the same bytes, and [to_string] gives
    them back. *)
Theorem frame_round_trip_up_to_509_bytes (op : byte) (data : list byte) :
  op ≠ kFileTransfer → (length data ≤ 509)%nat →
  ∃ frame m rest,
    encode (mkMessage op (of_bytes data)) = Some (ok frame)
    ∧ decode [frame] = Some (ok m)
    ∧ opcode m = op
    ∧ view_bytes (body m) = Some data
    ∧ to_string (body m) = Some (data, rest).
Proof.
  intros Hop Hlen. rewrite encode_of_bytes by (done || lia).
  destruct (decode_of_frame op data Hop Hlen) as (m & rest & Hdecode & Hm).
  by exists (op :: le_bytes 4 (N.of_nat (length data)) ++ data), m, rest.
Qed.

End FrameFacts.

Section CodecExamples.
Import Buffer Bytes Proto AsyncMessageService.
Local Open Scope N_scope.

Lemma write_message_converts_back_witness :
  ∃ m, WriteMessage_ToMessage (mkWrite "notes.txt" "(1, 5)") = Some m
    ∧ ToWrite m = Some (ok (mkWrite "notes.txt" "(1, 5)")).
Proof.
  apply (write_message_converts_back (mkWrite "notes.txt" "(1, 5)")).
  - apply (bool_decide_unpack _). vm_compute. exact I.
  - vm_compute. lia.
Defined.

Lemma establish_connection_converts_back_witness :
  ∃ m, EstablishConnectionMessage_ToMessage (mkEstablishConnection 3 "hello")
       = Some m
    ∧ ToEstablishConnection m = Some (ok (mkEstablishConnection 3 "hello")).
Proof.
  apply (establish_connection_converts_back (mkEstablishConnection 3 "hello")).
  - vm_compute. reflexivity.
  - vm_compute. lia.
Defined.

Lemma request_and_reply_convert_back_witness :
  (∃ m, RequestMessage_ToMessage (Mutex.mkRequest 5 "f") = Some m
        ∧ ToRequest m = Some (ok (Mutex.mkRequest 5 "f")))
  ∧ (∃ m, ReplyMessage_ToMessage (Mutex.mkReply 5 "f") = Some m
          ∧ ToReply m = Some (ok (Mutex.mkReply 5 "f"))).
Proof.
  apply (request_and_reply_convert_back 5 "f").
  - lia.
  - vm_compute. lia.
Defined.

Lemma frame_is_opcode_length_and_body_witness :
  encode (mkMessage kResponse (of_bytes ["a"; "b"; "c"]%byte))
  = Some (ok (kResponse
              :: le_bytes 4 (N.of_nat (length ["a"; "b"; "c"]%byte))
              ++ ["a"; "b"; "c"]%byte)).
Proof.
  apply (frame_is_opcode_length_and_body kResponse ["a"; "b"; "c"]%byte).
  - discriminate.
  - vm_compute. lia.
Defined.

Lemma frame_round_trip_up_to_509_bytes_witness :
  ∃ frame m rest,
    encode (mkMessage kResponse (of_bytes ["a"; "b"; "c"]%byte)) = Some (ok frame)
    ∧ decode [frame] = Some (ok m)
    ∧ opcode m = kResponse
    ∧ view_bytes (body m) = Some ["a"; "b"; "c"]%byte
    ∧ to_string (body m) = Some (["a"; "b"; "c"]%byte, rest).
Proof.
  apply (frame_round_trip_up_to_509_bytes kResponse ["a"; "b"; "c"]%byte).
  - discriminate.
  - vm_compute. lia.
Defined.

End CodecExamples.

(** ** Paths: equality, assignment and iteration *)

Section PathProperties.
Import Path.
Local Open Scope nat_scope.

Lemma substring_all s : substring 0 (String.length s) s = s.
Proof. induction s as [|c s IH]; simpl; [done|]. by rewrite IH. Qed.

Lemma suffix_0 s : suffix 0 s = s.
Proof. unfold suffix. rewrite Nat.sub_0_r. apply substring_all. Qed.

Lemma suffix_1 c s : suffix 1 (String c s) = s.
Proof. unfold suffix. simpl. rewrite Nat.sub_0_r. apply substring_all. Qed.

Lemma compare_from_0 s1 : ∀ s2, compare_from s1 s2 = 0%Z ↔ s1 = s2.
Proof.
  induction s1 as [|c1 r1 IH]; intros [|c2 r2]; simpl; try done.
  - destruct (is_sep c1); [done|]. by destruct (_ <? _)%Z.
  - destruct (Ascii.eqb_spec c1 c2) as [->|Hne].
    + rewrite IH. split; [by intros ->|by intros [= ->]].
    + split; [|by intros [= ? ?]].
      destruct (is_sep c1); [done|]. destruct (is_sep c2); [done|].
      by destruct (_ <? _)%Z.
Qed.

Lemma has_root_directory_true p :
  has_root_directory p = true → ∃ rest, p = String "/" rest.
Proof.
  destruct p as [|c rest]; [done|]. unfold has_root_directory, char_at. simpl.
  intros ->%Ascii.eqb_eq. by exists rest.
Qed.

(** X22. [operator==] on paths is equality of their strings: [compare]
    returns zero exactly for a path and itself. *)
Theorem path_equality_is_string_equality (p rhs : path) :
  eq p rhs = true ↔ p = rhs.
Proof.
  unfold eq, compare. rewrite Z.eqb_eq. split.
  - destruct (has_root_directory p) eqn:H1, (has_root_directory rhs) eqn:H2;
      simpl; try done.
    + apply has_root_directory_true in H1 as [r1 ->].
      apply has_root_directory_true in H2 as [r2 ->].
      rewrite !suffix_1. by intros ->%compare_from_0.
    + rewrite !suffix_0. by intros ?%compare_from_0.
  - intros <-. destruct (has_root_directory p); simpl; by apply compare_from_0.
Qed.

Lemma eq_same (p : path) : eq p p = true.
Proof.
  unfold eq, compare. rewrite Z.eqb_eq.
  destruct (has_root_directory p); simpl; by apply compare_from_0.
Qed.

(** X23. A loop [for (it = p.begin(); it != p.end(); ++it)] ends: every
    [++] short of the end moves the iterator forward and never beyond the
    end, so [end()] is reached after at most as many steps as the path has
    characters. *)
Theorem iteration_reaches_end (p : path) :
  (∀ it, iter_ it < String.length p →
         iter_ it < iter_ (next p it) ≤ String.length p)
  ∧ ∃ n, n ≤ String.length p
         ∧ iter_ (Nat.iter n (next p) (begin_ p)) = String.length p.
Proof.
  split; [apply next_bounds|].
  assert (H : ∀ k it, iter_ it ≤ String.length p → String.length p - iter_ it ≤ k →
            ∃ n, n ≤ k ∧ iter_ (Nat.iter n (next p) it) = String.length p).
  { induction k as [|k IH]; intros it Hle Hk.
    - exists 0. simpl. lia.
    - destruct (decide (iter_ it = String.length p)) as [Heq|Hne].
      + exists 0. simpl. lia.
      + pose proof (next_bounds p it) as Hnext.
        destruct (IH (next p it)) as (n & Hn & Hend); [lia..|].
        exists (S n). rewrite Nat.iter_succ_r. split; [lia|done]. }
  destruct (H (String.length p) (begin_ p)) as (n & Hn & Hend); simpl; [lia..|].
  by exists n.
Qed.

Lemma skip_common_same p : ∀ fuel it,
  iter_ it ≤ String.length p → String.length p - iter_ it ≤ fuel →
  ∃ it', skip_common fuel p p it it = (it', it') ∧ iter_ it' = String.length p.
Proof.
  induction fuel as [|fuel IH]; intros it Hle Hfuel; simpl.
  - exists it. split; [done|lia].
  - destruct (Nat.eqb_spec (iter_ it) (String.length p)) as [Heq|Hne]; simpl.
    + by exists it.
    + rewrite eq_same. pose proof (next_bounds p it) as Hnext.
      apply IH; lia.
Qed.

(** X24. The path from a path to itself is ["."], whatever the path. *)
Theorem lexically_relative_to_itself (p : path) : lexically_relative p p = ".".
Proof.
  unfold lexically_relative.
  rewrite eq_same, Bool.eqb_reflx, andb_negb_l. simpl.
  destruct (skip_common_same p (String.length p) (begin_ p)) as (it & -> & Hit);
    simpl; [lia..|].
  by rewrite Hit, Nat.eqb_refl.
Qed.

(** The first character [std::unique] keeps is a separator exactly if the
    first character of the string is one. *)
Lemma unique_separators_first c s :
  ∃ c' s', unique_separators (String c s) = String c' s'
           ∧ is_sep c' = is_sep c.
Proof.
  revert c. induction s as [|b r IH]; intros c.
  - by exists c, "".
  - simpl. destruct (is_sep c && is_sep b) eqn:Hboth.
    + destruct (IH b) as (c' & s' & Heq & Hsep). exists c', s'.
      split; [done|]. apply andb_prop in Hboth as [-> ?]. congruence.
    + by eexists _, _.
Qed.

Lemma unique_separators_idempotent s :
  unique_separators (unique_separators s) = unique_separators s.
Proof.
  induction s as [|a rest IH]; [done|].
  destruct rest as [|b r]; [done|].
  change (unique_separators (String a (String b r)))
    with (if is_sep a && is_sep b then unique_separators (String b r)
          else String a (unique_separators (String b r))).
  destruct (is_sep a && is_sep b) eqn:Hboth; [done|].
  destruct (unique_separators_first b r) as (b' & r' & Heq & Hsep).
  rewrite Heq in IH |- *.
  change (unique_separators (String a (String b' r')))
    with (if is_sep a && is_sep b' then unique_separators (String b' r')
          else String a (unique_separators (String b' r'))).
  rewrite Hsep, Hboth. by rewrite IH.
Qed.

Lemma unique_separators_front s a b r :
  unique_separators s = String a (String b r) → is_sep a && is_sep b = false.
Proof.
  revert a b r. induction s as [|x rest IH]; intros a b r; [done|].
  destruct rest as [|y r0]; [done|].
  change (unique_separators (String x (String y r0)))
    with (if is_sep x && is_sep y then unique_separators (String y r0)
          else String x (unique_separators (String y r0))).
  destruct (is_sep x && is_sep y) eqn:Hboth; [apply IH|].
  destruct (unique_separators_first y r0) as (y' & r' & Heq & Hsep).
  rewrite Heq. intros [= <- <- _]. by rewrite Hsep.
Qed.

Lemma process_assigned_path_double_separator a b c r :
  is_sep a = true → is_sep b = true → is_sep c = false →
  process_assigned_path (String a (String b (String c r)))
  = String a (String b (unique_separators (String c r))).
Proof.
  intros Ha Hb Hc. unfold process_assigned_path.
  assert ((2 <? String.length (String a (String b (String c r))))
          && is_sep (char_at (String a (String b (String c r))) 0)
          && is_sep (char_at (String a (String b (String c r))) 1)
          && negb (is_sep (char_at (String a (String b (String c r))) 2))
          = true) as ->.
  { unfold char_at. simpl. by rewrite Ha, Hb, Hc. }
  change (substring 0 2 (String a (String b (String c r))))
    with (String a (String b "")).
  assert (suffix 2 (String a (String b (String c r))) = String c r) as ->.
  { unfold suffix. simpl. by rewrite substring_all. }
  done.
Qed.

Lemma process_assigned_path_plain str :
  (2 <? String.length str) && is_sep (char_at str 0)
  && is_sep (char_at str 1) && negb (is_sep (char_at str 2)) = false →
  process_assigned_path str = unique_separators str.
Proof.
  intros Hstart. unfold process_assigned_path. rewrite Hstart.
  rewrite suffix_0. by destruct str.
Qed.

(** X25. Assigning is idempotent: a path's string, assigned again, is the
    same path. Runs of separators are collapsed once and for all, a leading
    double separator before a name being kept. *)
Theorem assign_is_idempotent (str : string) : assign (assign str) = assign str.
Proof.
  unfold assign.
  destruct ((2 <? String.length str) && is_sep (char_at str 0)
            && is_sep (char_at str 1) && negb (is_sep (char_at str 2))) eqn:Hstart.
  - destruct str as [|a [|b [|c r]]]; try done.
    unfold char_at in Hstart. simpl in Hstart.
    apply andb_prop in Hstart as [[Ha Hb]%andb_prop Hc%negb_true_iff].
    rewrite (process_assigned_path_double_separator a b c r) by done.
    destruct (unique_separators_first c r) as (c' & r' & Heq & Hsep).
    rewrite Heq.
    rewrite (process_assigned_path_double_separator a b c' r') by congruence.
    by rewrite <- Heq, unique_separators_idempotent.
  - rewrite (process_assigned_path_plain str Hstart).
    rewrite process_assigned_path_plain; [apply unique_separators_idempotent|].
    destruct (unique_separators str) as [|a [|b r]] eqn:Heq; try done.
    apply unique_separators_front in Heq. unfold char_at. simpl.
    destruct (is_sep a), (is_sep b); try done; simpl; by rewrite ?andb_false_r.
Qed.

End PathProperties.

(** ** The last line of a file *)

Section FileProperties.
Import Path IStream FileService Project2Service.
Local Open Scope Z_scope.

Lemma get_append_l (s1 s2 : string) (i : nat) :
  (i < String.length s1)%nat → String.get i (s1 +:+ s2) = String.get i s1.
Proof.
  revert i. induction s1 as [|c s1 IH]; intros i Hi; simpl in *; [lia|].
  destruct i as [|i]; [done|]. apply IH. lia.
Qed.

Lemma get_append_r (s1 s2 : string) (i : nat) :
  String.get (String.length s1 + i) (s1 +:+ s2) = String.get i s2.
Proof. induction s1 as [|c s1 IH]; simpl; [done|]. apply IH. Qed.

Lemma length_append (s1 s2 : string) :
  String.length (s1 +:+ s2) = (String.length s1 + String.length s2)%nat.
Proof. induction s1 as [|c s1 IH]; simpl; [done|]. by rewrite IH. Qed.

Lemma suffix_append (s1 s2 : string) : suffix (String.length s1) (s1 +:+ s2) = s2.
Proof.
  unfold suffix. rewrite length_append.
  replace (String.length s1 + String.length s2 - String.length s1)%nat
    with (String.length s2) by lia.
  induction s1 as [|c s1 IH]; simpl; [apply substring_all|done].
Qed.

(** A string without a line feed. *)
Lemma until_newline_plain (line rest : string) :
  (∀ i, String.get i line ≠ Some "010"%char) →
  until_newline (line +:+ nl +:+ rest) = (line, true)
  ∧ until_newline line = (line, false).
Proof.
  induction line as [|c line IH]; intros Hplain; simpl; [done|].
  destruct (Ascii.eqb_spec c "010") as [->|Hne].
  { by specialize (Hplain 0%nat). }
  destruct IH as [-> ->]; [|done].
  intros i. apply (Hplain (S i)).
Qed.

(** Going back from position [p] over characters that are no line feeds to
    the line feed at position [s]. *)
Lemma seek_back_finds_newline (content : string) (s : nat) :
  String.get s content = Some "010"%char →
  ∀ (k fuel : nat) (ch : option ascii),
    ch ≠ Some "010"%char →
    (∀ i, (s < i < s + S k)%nat →
       ∃ c, String.get i content = Some c ∧ c ≠ "010"%char) →
    (S k ≤ fuel)%nat →
    seek_back fuel ch (mkStream content (Z.of_nat (s + S k)) false false)
    = (Some "010"%char, mkStream content (Z.of_nat s) false false).
Proof.
  intros Hs. induction k as [|k IH]; intros fuel ch Hch Hline Hfuel.
  - destruct fuel as [|fuel]; [lia|]. simpl.
    rewrite bool_decide_eq_false_2 by done.
    unfold seekg, fail, peek, good. simpl.
    destruct (Z.ltb_spec (Z.of_nat (s + 1) + -1) 0); [lia|]. simpl.
    replace (Z.of_nat (s + 1) + -1) with (Z.of_nat s) by lia.
    rewrite Nat2Z.id, Hs.
    by destruct fuel.
  - destruct fuel as [|fuel]; [lia|]. simpl.
    rewrite bool_decide_eq_false_2 by done.
    unfold seekg, fail, peek, good. simpl.
    destruct (Z.ltb_spec (Z.of_nat (s + S (S k)) + -1) 0); [lia|]. simpl.
    replace (Z.of_nat (s + S (S k)) + -1) with (Z.of_nat (s + S k)) by lia.
    rewrite Nat2Z.id.
    destruct (Hline (s + S k)%nat) as (c & -> & Hc); [lia|].
    apply IH; [congruence| |lia].
    intros i Hi. apply Hline. lia.
Qed.

Local Arguments seek_back : simpl never.

Lemma append_empty_r (s : string) : s +:+ "" = s.
Proof.
  induction s as [|c s IH]; [done|].
  change (String c (s +:+ "") = String c s). by rewrite IH.
Qed.

Lemma get_is_Some (s : string) (i : nat) :
  (i < String.length s)%nat → is_Some (String.get i s).
Proof.
  revert i. induction s as [|c s IH]; intros i Hi; simpl in *; [lia|].
  destruct i as [|i]; [done|]. apply IH. lia.
Qed.

(** In a file whose last line has characters and stands behind a line feed,
    the loop of [ReadLastLine] finds that line feed and [getline] reads the
    line behind it, with or without a line feed at the end of the file. *)
Lemma last_line_of_lines (before line tail : string) :
  line ≠ "" → (∀ i, String.get i line ≠ Some "010"%char) →
  tail = "" ∨ tail = nl →
  last_line_of ((before +:+ nl) +:+ (line +:+ tail)) = line.
Proof.
  intros Hne Hplain Htail.
  set (content := (before +:+ nl) +:+ (line +:+ tail)).
  set (s := String.length before).
  assert (∃ k, String.length line = S k) as [k HL].
  { destruct line; [done|]. by eexists. }
  assert (Hlen : String.length content
                 = (s + 1 + S k + String.length tail)%nat).
  { subst content s. rewrite !length_append, HL. simpl. lia. }
  assert (Hs : String.get s content = Some "010"%char).
  { subst content s. rewrite get_append_l by (rewrite length_append; simpl; lia).
    rewrite <- (Nat.add_0_r (String.length before)), get_append_r. done. }
  assert (Hget : ∀ j, String.get (s + 1 + j) content = String.get j (line +:+ tail)).
  { intros j. subst content s.
    replace (String.length before + 1)%nat with (String.length (before +:+ nl))
      by (rewrite length_append; simpl; lia).
    apply get_append_r. }
  assert (Hin : ∀ j, (j < S k)%nat →
            ∃ c, String.get (s + 1 + j) content = Some c ∧ c ≠ "010"%char).
  { intros j Hj. rewrite Hget, get_append_l by lia.
    destruct (get_is_Some line j) as [c Hc]; [lia|].
    exists c. split; [done|]. intros ->. by apply (Hplain j). }
  assert (Hsuffix : suffix (s + 1) content = line +:+ tail).
  { subst content s.
    replace (String.length before + 1)%nat with (String.length (before +:+ nl))
      by (rewrite length_append; simpl; lia).
    apply suffix_append. }
  assert (Hback : ∀ fuel ch, (S k ≤ fuel)%nat → ch ≠ Some "010"%char →
            seek_back fuel ch
              (mkStream content (Z.of_nat (s + S k)) false false)
            = (Some "010"%char, mkStream content (Z.of_nat s) false false)).
  { intros fuel ch Hfuel Hch. apply seek_back_finds_newline; [done|done| |lia].
    intros i Hi. replace i with (s + 1 + (i - s - 1))%nat by lia.
    apply Hin. lia. }
  assert (Hend : (let file := mkStream content (Z.of_nat s) false false in
                  (getline "" (get file).2).1) = line).
  { unfold get, getline, good. simpl. rewrite Nat2Z.id, Hs. simpl.
    replace (Z.to_nat (Z.of_nat s + 1)) with (s + 1)%nat by lia.
    rewrite Hsuffix.
    destruct (until_newline_plain line "" Hplain) as [Hnl Hno].
    destruct Htail as [-> | ->].
    - by rewrite append_empty_r, Hno.
    - change (line +:+ nl) with (line +:+ nl +:+ "") in *. by rewrite Hnl. }
  unfold last_line_of. fold content.
  unfold open, seekg, size, fail, peek, good. simpl.
  rewrite Hlen.
  destruct (Z.ltb_spec (Z.of_nat (s + 1 + S k + String.length tail) + -1) 0);
    [lia|]. simpl.
  destruct Htail as [-> | ->]; simpl.
  - replace (Z.to_nat (Z.of_nat (s + 1 + S k + 0) + -1)) with (s + 1 + k)%nat by lia.
    destruct (Hin k) as (c & -> & Hc); [lia|].
    rewrite bool_decide_eq_false_2 by congruence.
    replace (Z.of_nat (s + 1 + S k + 0) + -1) with (Z.of_nat (s + S k)) by lia.
    rewrite Hback; [|lia|done]. simpl. exact Hend.
  - replace (Z.to_nat (Z.of_nat (s + 1 + S k + 1) + -1)) with (s + 1 + S k)%nat by lia.
    assert (String.get (s + 1 + S k) content = Some "010"%char) as ->.
    { rewrite Hget, <- HL.
      replace (String.length line) with (String.length line + 0)%nat at 1 by lia.
      by rewrite get_append_r. }
    simpl.
    destruct (Z.ltb_spec (Z.of_nat (s + 1 + S k + 1) + -1 + -1) 0); [lia|]. simpl.
    replace (Z.of_nat (s + 1 + S k + 1) + -1 + -1) with (Z.of_nat (s + S k)) by lia.
    rewrite Hback; [|lia|done]. simpl. exact Hend.
Qed.

Lemma ReadLastLine_lines
    (fs : FileSystem) (root_ : path) (name before line tail : string) :
  outside_root root_ name = false → hidden name = false →
  files fs !! full_path root_ name = Some ((before +:+ nl) +:+ (line +:+ tail)) →
  line ≠ "" → (∀ i, String.get i line ≠ Some "010"%char) →
  tail = "" ∨ tail = nl →
  ReadLastLine fs root_ name = ok line.
Proof.
  intros Hin Hvisible Hfile Hne Hplain Htail.
  unfold ReadLastLine. rewrite Hin, Hvisible, Hfile. simpl.
  by rewrite last_line_of_lines.
Qed.

(** X26. For a visible name inside the managed directory, [ReadLastLine]
    returns the last line of the file whenever that line has characters and
    a line feed stands before it, whether or not a line feed ends the
    file. *)
Theorem ReadLastLine_returns_line_behind_last_newline
    (fs : FileSystem) (root_ : path) (name before line tail : string) :
  outside_root root_ name = false → hidden name = false →
  files fs !! full_path root_ name = Some ((before +:+ nl) +:+ (line +:+ tail)) →
  line ≠ "" → (∀ i, String.get i line ≠ Some "010"%char) →
  tail = "" ∨ tail = nl →
  ReadLastLine fs root_ name = ok line.
Proof. apply ReadLastLine_lines. Qed.

(** X27. What the server appends it reads back: when a Write for a visible
    name inside the managed directory adds a line with characters and
    without line feed to a file that ends in a line feed, the handler
    answers Ok and keeps the connection, only that file changes, and a Read
    of the same name that follows is answered with that line. *)
Theorem line_written_is_line_read
    (fs : FileSystem) (root_ : path) (write : Proto.WriteMessage) (before : string) :
  let name := Proto.file_name write in
  let line := Proto.line write in
  outside_root root_ name = false → hidden name = false →
  full_path root_ name ∉ unwritable fs →
  files fs !! full_path root_ name = Some (before +:+ nl) →
  line ≠ "" → (∀ i, String.get i line ≠ Some "010"%char) →
  ∃ fs', HandleWrite fs root_ write = (OkMessage, AwaitMessage, fs')
    ∧ (∀ p, p ≠ full_path root_ name → files fs' !! p = files fs !! p)
    ∧ HandleRead fs' root_ name = (ResponseMessage line, AwaitMessage).
Proof.
  intros name line Hin Hvisible Hwritable Hfile Hne Hplain.
  unfold HandleWrite, AppendLine. fold name line.
  rewrite Hin, bool_decide_eq_false_2 by done. rewrite Hfile. simpl.
  eexists. split; [reflexivity|]. split.
  - intros p Hp. simpl. by rewrite lookup_insert_ne.
  - unfold HandleRead.
    rewrite (ReadLastLine_lines _ root_ name before line nl); try done.
    + simpl. by rewrite lookup_insert_eq.
    + by right.
Qed.

End FileProperties.

Section FileExamples.
Import Path IStream FileService Project2Service.

Lemma ReadLastLine_returns_line_behind_last_newline_witness :
  ReadLastLine
    (mkFileSystem {[ full_path sample_root "notes.txt" := ("(1, 4)" +:+ nl) +:+ ("(2, 7)" +:+ nl) ]} ∅)
    sample_root "notes.txt"
  = ok "(2, 7)".
Proof.
  apply (ReadLastLine_returns_line_behind_last_newline _ _ _ "(1, 4)" "(2, 7)" nl).
  - vm_compute. reflexivity.
  - vm_compute. reflexivity.
  - vm_compute. reflexivity.
  - discriminate.
  - intros i. do 7 (destruct i as [|i]; [discriminate|]). discriminate.
  - right. reflexivity.
Defined.

Lemma line_written_is_line_read_witness :
  let fs := mkFileSystem {[ full_path sample_root "notes.txt" := "(1, 4)" +:+ nl ]} ∅ in
  let write := Proto.mkWrite "notes.txt" "(2, 7)" in
  ∃ fs', HandleWrite fs sample_root write = (OkMessage, AwaitMessage, fs')
    ∧ (∀ p, p ≠ full_path sample_root "notes.txt" → files fs' !! p = files fs !! p)
    ∧ HandleRead fs' sample_root "notes.txt" = (ResponseMessage "(2, 7)", AwaitMessage).
Proof.
  intros fs write.
  apply (line_written_is_line_read fs sample_root write "(1, 4)").
  - vm_compute. reflexivity.
  - vm_compute. reflexivity.
  - apply (bool_decide_unpack _). vm_compute. exact I.
  - vm_compute. reflexivity.
  - discriminate.
  - intros i. do 7 (destruct i as [|i]; [discriminate|]). discriminate.
Defined.

End FileExamples.

(** ** Splitting and joining strings *)

Section StringFacts.
Import Strings.
Local Open Scope N_scope.
Implicit Types (s pre rest t : list ascii) (p : ascii → bool).

Lemma drop_size_app pre rest : drop (N.to_nat (size pre)) (pre ++ rest) = rest.
Proof. unfold size. rewrite Nat2N.id. apply drop_app_length. Qed.

Lemma size_app s1 s2 : size (s1 ++ s2) = size s1 + size s2.
Proof. unfold size. rewrite length_app. lia. Qed.

Lemma plus_small a b : a + b < 2 ^ 64 → plus a b = a + b.
Proof. intros H. unfold plus. by rewrite N.mod_small. Qed.

Lemma minus_small a b : b ≤ a → a < 2 ^ 64 → minus a b = a - b.
Proof.
  intros Hb Ha. unfold minus. rewrite (N.mod_small b) by lia.
  replace (a + 2 ^ 64 - b) with (a - b + 1 * 2 ^ 64) by lia.
  rewrite N.Div0.mod_add. apply N.mod_small. lia.
Qed.

(** The first character with [p] from the end of [pre] on. *)
Lemma find_first_app p pre l c rest :
  Forall (λ x, p x = false) l → p c = true →
  find_first p (pre ++ l ++ c :: rest) (size pre) = size pre + size l.
Proof.
  intros Hl Hc. unfold find_first. rewrite drop_size_app.
  assert (list_find (λ x, p x = true) (l ++ c :: rest) = Some (length l, c)) as ->.
  { apply list_find_Some. split_and!.
    - by rewrite lookup_app_r, Nat.sub_diag by lia.
    - done.
    - intros j y Hy Hj. rewrite lookup_app_l in Hy by done.
      rewrite Forall_forall in Hl. rewrite (Hl y); [done|].
      by eapply list_elem_of_lookup_2. }
  done.
Qed.

Lemma find_first_none p pre l :
  Forall (λ x, p x = false) l → find_first p (pre ++ l) (size pre) = npos.
Proof.
  intros Hl. unfold find_first. rewrite drop_size_app.
  assert (list_find (λ x, p x = true) l = None) as ->; [|done].
  apply list_find_None. eapply Forall_impl; [exact Hl|]. simpl. congruence.
Qed.

(** The last character with [p] up to a position that holds one. *)
Lemma find_last_at p body c rest pos :
  p c = true → N.min pos (size (body ++ c :: rest) - 1) = size body →
  find_last p (body ++ c :: rest) pos = size body.
Proof.
  intros Hc Hpos. unfold find_last.
  destruct (N.eqb_spec (size (body ++ c :: rest)) 0) as [Hz|_].
  { rewrite size_app in Hz. unfold size in Hz. simpl in Hz. lia. }
  rewrite Hpos. unfold size at 1. rewrite Nat2N.id.
  replace (S (length body)) with (length (body ++ [c])) by (rewrite length_app; simpl; lia).
  rewrite (cons_middle c body rest), app_assoc, take_app_length, reverse_snoc.
  simpl. rewrite decide_True by done. simpl. lia.
Qed.

Lemma substr_app pre t rest count :
  N.min count (size t + size rest) = size t →
  substr (pre ++ t ++ rest) (size pre) count = Some t.
Proof.
  intros Hcount. unfold substr.
  destruct (N.ltb_spec (size (pre ++ t ++ rest)) (size pre)) as [Hlt|_].
  { rewrite size_app in Hlt. lia. }
  rewrite drop_size_app.
  replace (size (pre ++ t ++ rest) - size pre) with (size t + size rest)
    by (rewrite !size_app; lia).
  rewrite Hcount. unfold size. rewrite Nat2N.id, take_app_length. done.
Qed.

Lemma join_singleton t delim : join [t] delim = t.
Proof. done. Qed.

Lemma c_str_plain s : zero ∉ s → c_str s = s.
Proof.
  induction s as [|c s IH]; [done|]. intros Hs. simpl.
  destruct (Ascii.eqb_spec c zero) as [->|_].
  - exfalso. apply Hs. by left.
  - rewrite IH; [done|]. intros Hin. apply Hs. by right.
Qed.

Lemma join_cons t t' ts delim :
  join (t :: t' :: ts) delim = t ++ c_str delim ++ join (t' :: ts) delim.
Proof.
  unfold join. change (last (t :: t' :: ts)) with (last (t' :: ts)).
  destruct (last (t' :: ts)) as [final|] eqn:Hlast.
  - simpl length.
    replace (S (S (length ts)) - 1)%nat with (S (length ts)) by lia.
    replace (S (length ts) - 1)%nat with (length ts) by lia.
    change (take (S (length ts)) (t :: t' :: ts))
      with (t :: take (length ts) (t' :: ts)).
    rewrite fmap_cons. simpl mjoin. by rewrite <- !app_assoc.
  - by apply last_None in Hlast.
Qed.

Lemma split_loop_unfold fuel src delim prev tokens :
  split_loop fuel src delim prev tokens
  = if find src delim prev =? npos then Some (prev, tokens)
    else match fuel with
         | O => None
         | S fuel =>
             token ← substr src prev (minus (find src delim prev) prev);
             split_loop fuel src delim (plus (find src delim prev) 1)
               (tokens ++ [token])
         end.
Proof. by destruct fuel. Qed.

(** [split] on a joined list, after [pre] was dealt with. *)
Lemma split_loop_join delim tokens : ∀ pre acc fuel,
  delim ≠ zero → tokens ≠ [] → Forall (λ t, delim ∉ t) tokens →
  size (pre ++ join tokens [delim]) < npos →
  (length (join tokens [delim]) ≤ fuel)%nat →
  split_loop fuel (pre ++ join tokens [delim]) delim (size pre) acc
  ≫= (λ '(prev, toks),
        token ← substr (pre ++ join tokens [delim]) prev npos;
        Some (toks ++ [token]))
  = Some (acc ++ tokens).
Proof.
  induction tokens as [|t [|t' ts] IH]; intros pre acc fuel Hz Hne Hplain Hsize Hfuel;
    [done| |];
    assert (c_str [delim] = [delim]) as Hdelim
      by (apply c_str_plain; intros H%list_elem_of_singleton; by apply Hz).
  - rewrite join_singleton in *.
    apply Forall_cons in Hplain as [Hplain _].
    assert (find (pre ++ t) delim (size pre) = npos) as Hfind.
    { apply find_first_none. apply Forall_forall. intros x Hx.
      apply Ascii.eqb_neq. intros ->. by apply Hplain. }
    assert (substr (pre ++ t) (size pre) npos = Some t) as Hsub.
    { rewrite <- (app_nil_r t) at 1. apply substr_app.
      rewrite size_app in Hsize. change (size []) with 0. lia. }
    rewrite split_loop_unfold, Hfind. simpl. by rewrite Hsub.
  - rewrite join_cons, Hdelim in *.
    apply Forall_cons in Hplain as [Ht Hrest].
    assert (find (pre ++ t ++ [delim] ++ join (t' :: ts) [delim]) delim (size pre)
            = size pre + size t) as Hfind.
    { apply find_first_app; [|apply Ascii.eqb_refl].
      apply Forall_forall. intros x Hx. apply Ascii.eqb_neq. intros ->.
      by apply Ht. }
    assert (npos = 2 ^ 64 - 1) as Hnpos by done.
    pose proof Hsize as Hsize'. rewrite !size_app in Hsize'.
    change (size [delim]) with 1 in Hsize'.
    destruct fuel as [|fuel].
    { rewrite !length_app in Hfuel. simpl in Hfuel. lia. }
    rewrite split_loop_unfold, Hfind.
    destruct (N.eqb_spec (size pre + size t) npos) as [Heq|_]; [lia|].
    rewrite minus_small by lia.
    replace (size pre + size t - size pre) with (size t) by lia.
    rewrite substr_app by lia. cbn [mbind option_bind].
    rewrite plus_small by lia.
    replace (size pre + size t + 1) with (size ((pre ++ t) ++ [delim]))
      by (rewrite !size_app; done).
    replace (pre ++ t ++ [delim] ++ join (t' :: ts) [delim])
      with (((pre ++ t) ++ [delim]) ++ join (t' :: ts) [delim])
      by (by rewrite <- !app_assoc).
    rewrite IH; [by rewrite <- app_assoc|done|done|done| |].
    + by rewrite <- !app_assoc.
    + rewrite !length_app in Hfuel. simpl in Hfuel. lia.
Qed.

(** X28. [split] undoes [join]: for a delimiter other than the null
    character and a list of strings that has at least one element and whose
    elements do not contain the delimiter, splitting their join at the
    delimiter returns the very list, empty strings included. *)
Theorem split_undoes_join (delim : ascii) (tokens : list (list ascii)) :
  delim ≠ zero → tokens ≠ [] → Forall (λ t, delim ∉ t) tokens →
  size (join tokens [delim]) < npos →
  split (join tokens [delim]) delim = Some tokens.
Proof.
  intros Hz Hne Hplain Hsize. unfold split.
  apply (split_loop_join delim tokens [] []); try done.
Qed.

Lemma size_cons c s : size (c :: s) = 1 + size s.
Proof. unfold size. simpl. lia. Qed.

(** The searches at a position given by a decomposition of the string. *)
Lemma find_first_at p s pos pre l c rest :
  s = pre ++ l ++ c :: rest → pos = size pre →
  Forall (λ x, p x = false) l → p c = true →
  find_first p s pos = pos + size l.
Proof. intros -> ->. apply find_first_app. Qed.

Lemma find_first_at_none p s pos pre l :
  s = pre ++ l → pos = size pre → Forall (λ x, p x = false) l →
  find_first p s pos = npos.
Proof. intros -> ->. apply find_first_none. Qed.

Lemma find_last_at' p s pos body c rest :
  s = body ++ c :: rest → p c = true → N.min pos (size s - 1) = size body →
  find_last p s pos = size body.
Proof. intros ->. apply find_last_at. Qed.

Lemma substr_at s pos count pre t rest :
  s = pre ++ t ++ rest → pos = size pre → N.min count (size t + size rest) = size t →
  substr s pos count = Some t.
Proof. intros -> ->. apply substr_app. Qed.

Lemma split_trim_loop_unfold fuel src delim whitespace prev tokens :
  split_trim_loop fuel src delim whitespace prev tokens
  = if find src delim prev =? npos then Some (prev, tokens)
    else match fuel with
         | O => None
         | S fuel =>
             let begin := find_first_not_of src whitespace prev in
             if find src delim prev <=? begin then
               split_trim_loop fuel src delim whitespace
                 (if begin =? npos then begin else plus begin 1) tokens
             else
               let end_ :=
                 find_last_not_of src whitespace (minus (find src delim prev) 1) in
               token ← substr src begin (plus (minus end_ begin) 1);
               split_trim_loop fuel src delim whitespace
                 (plus (find src delim prev) 1) (tokens ++ [token])
         end.
Proof. by destruct fuel. Qed.

Local Ltac side_goal :=
  first
    [ done
    | by rewrite <- ?app_assoc
    | match goal with H : _ :: _ = _ ++ [_] |- _ => by rewrite H, <- ?app_assoc end
    | rewrite ?size_app, ?size_cons in *; change (size []) with 0 in *;
      rewrite ?minus_small, ?plus_small by lia; lia ].

(** [split_trim] on a joined list whose delimiter is followed by whitespace,
    after [pre] was dealt with and in front of the whitespace [ws]. *)
Lemma split_trim_loop_join delim W gap tokens : ∀ pre ws acc fuel,
  delim ∉ W → Forall (λ c, c ∈ W) gap → c_str (delim :: gap) = delim :: gap →
  Forall (λ c, c ∈ W) ws →
  tokens ≠ [] → Forall (λ t, (delim ∉ t) ∧ trimmed W t) tokens →
  size (pre ++ ws ++ join tokens (delim :: gap)) < npos →
  (length (ws ++ join tokens (delim :: gap)) ≤ fuel)%nat →
  split_trim_loop fuel (pre ++ ws ++ join tokens (delim :: gap)) delim W (size pre) acc
  ≫= split_trim_rest (pre ++ ws ++ join tokens (delim :: gap)) W
  = Some (acc ++ tokens).
Proof.
  induction tokens as [|t [|t' ts] IH];
    intros pre ws acc fuel HdW Hgap Hsep Hws Hne Hplain Hsize Hfuel; [done| |];
    assert (npos = 2 ^ 64 - 1) as Hnpos by done;
    apply Forall_cons in Hplain as [(Ht & (c & Hc & HcW) & (c' & Hc' & Hc'W)) Hrest];
    (destruct t as [|c0 t0]; [done|]); injection Hc as ->;
    apply last_Some in Hc' as [body Hbody];
    assert (size (c :: t0) = size body + 1) as Hsizet
      by (rewrite Hbody, size_app; done);
    assert (Forall (λ x, (x =? delim)%char = false) (ws ++ c :: t0)) as Hnodelim
      by (apply Forall_forall; intros x Hx; apply Ascii.eqb_neq; intros ->;
          apply elem_of_app in Hx as [Hx|Hx]; [|done];
          rewrite Forall_forall in Hws; by apply HdW, Hws);
    assert (Forall (λ x, negb (bool_decide (x ∈ W)) = false) ws) as Hblank
      by (eapply Forall_impl; [exact Hws|]; intros x Hx; simpl;
          by rewrite bool_decide_eq_true_2);
    assert (negb (bool_decide (c ∈ W)) = true) as Hfirst
      by (by rewrite bool_decide_eq_false_2);
    assert (negb (bool_decide (c' ∈ W)) = true) as Hlast
      by (by rewrite bool_decide_eq_false_2).
  - rewrite join_singleton in *.
    pose proof Hsize as Hsize'. rewrite !size_app in Hsize'.
    rewrite split_trim_loop_unfold.
    unfold find. rewrite (find_first_at_none _ _ _ pre (ws ++ c :: t0)); try done.
    change (npos =? npos) with true. cbn [mbind option_bind split_trim_rest].
    unfold find_first_not_of, find_last_not_of.
    rewrite (find_first_at _ _ _ pre ws c t0); try done.
    destruct (N.eqb_spec (size pre + size ws) npos) as [Heq|_]; [lia|].
    cbn [negb].
    rewrite (find_last_at' _ _ _ (pre ++ ws ++ body) c' []);
      [|solve [side_goal]..].
    rewrite (substr_at _ _ _ (pre ++ ws) (c :: t0) []);
      [|solve [side_goal]..].
    done.
  - rewrite join_cons, Hsep in *.
    set (J := join (t' :: ts) (delim :: gap)) in *.
    pose proof Hsize as Hsize'. rewrite !size_app in Hsize'.
    pose proof (size_cons delim gap) as Hsd.
    destruct fuel as [|fuel].
    { rewrite !length_app in Hfuel. simpl in Hfuel. lia. }
    rewrite split_trim_loop_unfold.
    unfold find.
    rewrite (find_first_at _ _ _ pre (ws ++ c :: t0) delim (gap ++ J));
      [|solve [side_goal | apply Ascii.eqb_refl]..].
    rewrite size_app.
    destruct (N.eqb_spec (size pre + (size ws + size (c :: t0))) npos) as [Heq|_];
      [lia|].
    cbv zeta. unfold find_first_not_of, find_last_not_of.
    rewrite (find_first_at _ _ _ pre ws c (t0 ++ (delim :: gap) ++ J));
      [|solve [side_goal]..].
    destruct (N.leb_spec (size pre + (size ws + size (c :: t0))) (size pre + size ws))
      as [Hle|_]; [lia|].
    rewrite (minus_small _ 1) by lia.
    rewrite (find_last_at' _ _ _ (pre ++ ws ++ body) c' ((delim :: gap) ++ J));
      [|solve [side_goal]..].
    rewrite (substr_at _ _ _ (pre ++ ws) (c :: t0) ((delim :: gap) ++ J));
      [|solve [side_goal]..].
    cbn [mbind option_bind].
    rewrite plus_small by lia.
    replace (pre ++ ws ++ (c :: t0) ++ (delim :: gap) ++ J)
      with ((pre ++ ws ++ (c :: t0) ++ [delim]) ++ gap ++ J)
      by (by rewrite <- !app_assoc).
    replace (size pre + (size ws + size (c :: t0)) + 1)
      with (size (pre ++ ws ++ (c :: t0) ++ [delim])) by side_goal.
    rewrite IH; [by rewrite <- app_assoc|done..| |].
    + side_goal.
    + rewrite !length_app in Hfuel. simpl in Hfuel. rewrite length_app in *. lia.
Qed.

Lemma split_trim_join delim W gap tokens :
  delim ∉ W → Forall (λ c, c ∈ W) gap → c_str (delim :: gap) = delim :: gap →
  tokens ≠ [] → Forall (λ t, (delim ∉ t) ∧ trimmed W t) tokens →
  size (join tokens (delim :: gap)) < npos →
  split_trim (join tokens (delim :: gap)) delim W = Some tokens.
Proof.
  intros HdW Hgap Hsep Hne Hplain Hsize. unfold split_trim.
  by apply (split_trim_loop_join delim W gap tokens [] [] []).
Qed.

End StringFacts.

(** ** The enquiry: the server's list of files and what the client reads *)

Section EnquiryFacts.
Import Strings FileService Project2Service Project2Client.

Lemma length_string_of_list_ascii (l : list ascii) :
  String.length (string_of_list_ascii l) = length l.
Proof. induction l as [|c l IH]; simpl; [done|]. by rewrite IH. Qed.

(** The client's splitting of the text that the server joins. *)
Lemma ReceiveEnquiryResponse_join (visible : list string) :
  visible ≠ [] →
  Forall (λ name, (("," : ascii) ∉ list_ascii_of_string name)
                  ∧ trimmed default_whitespace (list_ascii_of_string name)) visible →
  (size (join (list_ascii_of_string <$> visible) (list_ascii_of_string ", ")) < npos)%N →
  ReceiveEnquiryResponse
    (string_of_list_ascii
       (join (list_ascii_of_string <$> visible) (list_ascii_of_string ", ")))
  = Some (ok visible).
Proof.
  intros Hne Hnames Hsize.
  unfold ReceiveEnquiryResponse.
  rewrite list_ascii_of_string_of_list_ascii.
  change (list_ascii_of_string ", ") with ([","; " "]%char : list ascii) in *.
  rewrite (split_trim_join "," default_whitespace [" "%char]).
  - cbn [mbind option_bind]. rewrite bool_decide_eq_false_2.
    + do 2 f_equal. rewrite <- list_fmap_compose.
      rewrite <- (list_fmap_id visible) at 2. apply list_fmap_ext.
      intros i name _. apply string_of_list_ascii_of_string.
    + by destruct visible.
  - apply (bool_decide_unpack _). vm_compute. exact I.
  - apply Forall_singleton. by left.
  - reflexivity.
  - by destruct visible.
  - by apply Forall_fmap.
  - done.
Qed.

(** X29. A file list survives the enquiry. When the file service lists at
    least one visible file, no name contains a comma or begins or ends with
    a blank or a tab, and the names joined by a comma and a blank take at
    most 509 bytes, the server answers the Enquiry with a Response message
    and goes on awaiting messages; when a single read brings the frame of
    this message in, the client reads the message whole, keeps the very
    names, in the same order, and goes on to wait. *)
Theorem enquiry_returns_the_visible_file_names
    (peer : string) (listing : result (list string)) (visible old : list string) :
  GetFiles listing = ok visible →
  visible ≠ [] →
  Forall (λ name, (("," : ascii) ∉ list_ascii_of_string name)
                  ∧ trimmed default_whitespace (list_ascii_of_string name)) visible →
  (length (join (list_ascii_of_string <$> visible) (list_ascii_of_string ", "))
   ≤ 509)%nat →
  ∃ sent frame reply,
    HandleEnquiry (ok peer) listing = ok (sent, AwaitMessage)
    ∧ AsyncMessageService.encode (Sent_ToMessage sent) = Some (ok frame)
    ∧ AsyncMessageService.decode [frame] = Some (ok reply)
    ∧ ReceiveEnquiryResponse_callback old (ok reply) = Some (ok (visible, Wait)).
Proof.
  intros Hfiles Hne Hnames Hlen.
  set (text := string_of_list_ascii
                 (join (list_ascii_of_string <$> visible) (list_ascii_of_string ", "))).
  assert (length (list_byte_of_string text) ≤ 509)%nat as Hbytes.
  { subst text. by rewrite length_list_byte_of_string, length_string_of_list_ascii. }
  destruct (decode_of_frame Proto.kResponse (list_byte_of_string text))
    as (reply & rest & Hdecode & Hop & _ & Hstring); [done|done|].
  exists (ResponseMessage text),
    (Proto.kResponse
     :: Bytes.le_bytes 4 (N.of_nat (length (list_byte_of_string text)))
        ++ list_byte_of_string text), reply.
  split_and!.
  - unfold HandleEnquiry. by rewrite Hfiles.
  - apply encode_of_bytes; [done|lia].
  - exact Hdecode.
  - unfold ReceiveEnquiryResponse_callback, Proto.ToResponse.
    rewrite Hop. rewrite !bool_decide_eq_true_2 by done.
    cbn [negb]. rewrite Hstring. cbn [mbind option_bind Proto.message].
    rewrite string_of_list_byte_of_string. subst text.
    rewrite ReceiveEnquiryResponse_join; [done..|].
    unfold size, npos. lia.
Qed.

(** X30. An enquiry without visible files stops the client. When the file
    service lists no visible file, the server still answers with a Response
    message, an empty one, and the client takes it as the error that the
    server responded with 0 file names. *)
Theorem enquiry_without_visible_files_is_an_error_for_the_client
    (peer : string) (listing : result (list string)) :
  GetFiles listing = ok [] →
  HandleEnquiry (ok peer) listing = ok (ResponseMessage "", AwaitMessage)
  ∧ ReceiveEnquiryResponse "" = Some (err "Server responded to enquiry with 0 file names").
Proof.
  intros Hfiles. split.
  - unfold HandleEnquiry. rewrite Hfiles. reflexivity.
  - vm_compute. reflexivity.
Qed.

End EnquiryFacts.

Section StringExamples.
Import Strings FileService Project2Service Project2Client.

Lemma split_undoes_join_witness :
  split (join [list_ascii_of_string "dc01:8001"; []; list_ascii_of_string "dc02:8001"]
           [","%char]) ","
  = Some [list_ascii_of_string "dc01:8001"; []; list_ascii_of_string "dc02:8001"].
Proof.
  apply split_undoes_join.
  - discriminate.
  - discriminate.
  - apply (bool_decide_unpack _). vm_compute. exact I.
  - vm_compute. reflexivity.
Defined.

Lemma enquiry_returns_the_visible_file_names_witness :
  ∃ sent frame reply,
    HandleEnquiry (ok "10.0.0.7:4100") (ok [".keep"; "file1.txt"; "my notes.txt"])
    = ok (sent, AwaitMessage)
    ∧ AsyncMessageService.encode (Sent_ToMessage sent) = Some (ok frame)
    ∧ AsyncMessageService.decode [frame] = Some (ok reply)
    ∧ ReceiveEnquiryResponse_callback [] (ok reply)
      = Some (ok (["file1.txt"; "my notes.txt"], Wait)).
Proof.
  apply enquiry_returns_the_visible_file_names.
  - vm_compute. reflexivity.
  - discriminate.
  - repeat constructor; try (apply (bool_decide_unpack _); vm_compute; exact I);
      eexists; (split; [reflexivity|]);
      apply (bool_decide_unpack _); vm_compute; exact I.
  - vm_compute. lia.
Defined.

Lemma enquiry_without_visible_files_is_an_error_for_the_client_witness :
  HandleEnquiry (ok "10.0.0.7:4100") (ok [".keep"; ".git"])
  = ok (ResponseMessage "", AwaitMessage)
  ∧ ReceiveEnquiryResponse "" = Some (err "Server responded to enquiry with 0 file names").
Proof.
  apply enquiry_without_visible_files_is_an_error_for_the_client.
  vm_compute. reflexivity.
Defined.

End StringExamples.
